(** * Spacer search engine and term graph: a shallow embedding

    The development follows the sources of the repository:
    - [spacer_util.h]: level arithmetic ([infty_level], [next_level],
      [prev_level]);
    - [spacer_context.h]: lemmas, frames, proof obligations and the
      obligation queue;
    - [spacer_smt_context_manager.cpp]: the pool of solver factories;
    - [qe_term_graph.cpp]: the equivalence graph of terms.

    Machine integers of type [unsigned] are integers in [Z] reduced modulo
    [2^32]; pointers to heap objects are indices into the vector that owns
    the objects. *)

From Stdlib Require Import ZArith Lia List Bool.
From stdpp Require Import base option list gmap strings.

Local Open Scope Z_scope.

(** * The embedding *)

(** ** Machine integers *)

Module Unsigned.

Definition width : Z := 32.
Definition modulus : Z := 2 ^ width.
Definition UINT_MAX : Z := modulus - 1.

(** The value an [unsigned] variable holds after it is assigned [z]. *)
Definition wrap (z : Z) : Z := z mod modulus.

(** The values of type [unsigned]. *)
Definition in_range (z : Z) : Prop := 0 <= z <= UINT_MAX.

End Unsigned.

(** ** Levels ([spacer_util.h]) *)

Module SpacerUtil.
Import Unsigned.

Definition infty_level : Z := UINT_MAX.

Definition is_infty_level (lvl : Z) : bool := lvl =? infty_level.

Definition next_level (lvl : Z) : Z :=
  if is_infty_level lvl then lvl else wrap (lvl + 1).

Definition prev_level (lvl : Z) : Z :=
  if is_infty_level lvl then infty_level
  else if lvl =? 0 then 0
  else wrap (lvl - 1).

(** A level is an [unsigned]; it is finite when it is not [infty_level]. *)
Definition is_level (l : Z) : Prop := in_range l.
Definition finite_level (l : Z) : Prop := 0 <= l < infty_level.

(** The order on levels is the order [<] / [<=] of [unsigned]. *)
Definition level_le (a b : Z) : Prop := a <= b.
Definition level_leb (a b : Z) : bool := a <=? b.

End SpacerUtil.

(** ** Lemmas, frames, proof obligations and their queue
    ([spacer_context.h]) *)

Module SpacerContext.
Import Unsigned SpacerUtil.

Section Context_.

(** Formulas of the underlying logic ([expr]); the search engine treats
    them as opaque values. *)
Context {expr : Type}.

(** [class lemma]: the formula, the cube it was built from, the current
    level and the level at which it was created. *)
Record lemma : Type := mk_lemma {
  m_body : expr;
  m_cube : list expr;
  m_lvl : Z;
  m_init_lvl : Z;
  m_external : bool
}.

Definition get_expr (l : lemma) : expr := m_body l.
Definition level (l : lemma) : Z := m_lvl l.
Definition init_level (l : lemma) : Z := m_init_lvl l.
Definition is_inductive (l : lemma) : bool := is_infty_level (m_lvl l).
Definition external (l : lemma) : bool := m_external l.
Definition set_external (ext : bool) (l : lemma) : lemma :=
  mk_lemma (m_body l) (m_cube l) (m_lvl l) (m_init_lvl l) ext.

(** [class pred_transformer::frames]: the active lemmas and the number of
    frames. *)
Record frames : Type := mk_frames {
  m_lemmas : list lemma;
  m_size : Z;
  m_sorted : bool
}.

(** [get_frame_lemmas]: the loop pushes onto [out] the formula of every
    lemma whose level is [level]. *)
Definition get_frame_lemmas (f : frames) (lvl : Z) (out : list expr) : list expr :=
  fold_left
    (fun out l => if level l =? lvl then out ++ [get_expr l] else out)
    (m_lemmas f) out.

(** [get_frame_geq_lemmas]: the loop pushes onto [out] the formula of every
    lemma whose level is at least [level]. *)
Definition get_frame_geq_lemmas (f : frames) (lvl : Z) (out : list expr) : list expr :=
  fold_left
    (fun out l => if level l >=? lvl then out ++ [get_expr l] else out)
    (m_lemmas f) out.

Definition size (f : frames) : Z := m_size f.
Definition lemma_size (f : frames) : Z := Z.of_nat (length (m_lemmas f)).
Definition add_frame (f : frames) : frames :=
  mk_frames (m_lemmas f) (wrap (m_size f + 1)) (m_sorted f).

(** [class pob]: post-condition, level, depth, open flag, weakness. *)
Record pob : Type := mk_pob {
  m_post : expr;
  m_level : Z;
  m_depth : Z;
  m_open : bool;
  m_weakness : Z
}.

Definition pob_level (n : pob) : Z := m_level n.
Definition pob_depth (n : pob) : Z := m_depth n.
Definition is_closed (n : pob) : bool := negb (m_open n).
Definition reset_weakness (n : pob) : pob :=
  mk_pob (m_post n) (m_level n) (m_depth n) (m_open n) 0.
Definition bump_weakness (n : pob) : pob :=
  mk_pob (m_post n) (m_level n) (m_depth n) (m_open n) (wrap (m_weakness n + 1)).
Definition pob_inc_level (n : pob) : pob :=
  mk_pob (m_post n) (wrap (m_level n + 1)) (wrap (m_depth n + 1)) (m_open n) 0.

Section Queue.

(** The body of [pob_lt::operator()] is in [spacer_context.cpp]; the queue
    is defined over any comparison. *)
Variable pob_lt : pob -> pob -> bool.

Definition pob_gt (n1 n2 : pob) : bool := pob_lt n2 n1.
Definition pob_ref_gt (n1 n2 : pob) : bool := pob_gt n1 n2.

(** [std::priority_queue<pob_ref, std::vector<pob_ref>, pob_ref_gt>]: the
    container is a list kept in the order in which [top]/[pop] deliver its
    elements, so its head is an element [x] with [pob_ref_gt x y = false]
    for every other element [y]. *)
Fixpoint pq_push (x : pob) (q : list pob) : list pob :=
  match q with
  | [] => [x]
  | y :: q' => if pob_ref_gt y x then x :: y :: q' else y :: pq_push x q'
  end.

Definition pq_top (q : list pob) : option pob := head q.
Definition pq_pop (q : list pob) : list pob := tail q.
Definition pq_empty (q : list pob) : bool :=
  match q with [] => true | _ => false end.

(** [class pob_queue]; [m_root] is a nullable reference. *)
Record pob_queue : Type := mk_pob_queue {
  m_root : option pob;
  m_max_level : Z;
  m_min_depth : Z;
  m_obligations : list pob
}.

Definition pob_queue_init : pob_queue := mk_pob_queue None 0 0 [].

Definition pop (q : pob_queue) : pob_queue :=
  mk_pob_queue (m_root q) (m_max_level q) (m_min_depth q)
    (pq_pop (m_obligations q)).

(** [pob_queue::inc_level].  The [SASSERT] that the queue is not empty or
    the root is set is a debugging aid and has no effect on the result. *)
Definition inc_level (q : pob_queue) : pob_queue :=
  let max_level := wrap (m_max_level q + 1) in
  let min_depth := wrap (m_min_depth q + 1) in
  match m_root q with
  | Some root =>
      if pq_empty (m_obligations q)
      then mk_pob_queue (m_root q) max_level min_depth
             (pq_push root (m_obligations q))
      else mk_pob_queue (m_root q) max_level min_depth (m_obligations q)
  | None => mk_pob_queue (m_root q) max_level min_depth (m_obligations q)
  end.

Definition max_level (q : pob_queue) : Z := m_max_level q.
Definition min_depth (q : pob_queue) : Z := m_min_depth q.
Definition queue_size (q : pob_queue) : nat := length (m_obligations q).

End Queue.

End Context_.

Arguments lemma : clear implicits.
Arguments frames : clear implicits.
Arguments pob : clear implicits.
Arguments pob_queue : clear implicits.

Section RootEnqueued.

Context {expr : Type}.
Variable pob_lt : pob expr -> pob expr -> bool.
Implicit Types (q : pob_queue expr) (n r : pob expr).

(** [inc_level] added an obligation to the queue. *)
Definition enqueued_by_inc_level q : Prop :=
  length (m_obligations (inc_level pob_lt q)) = S (length (m_obligations q)).

(** The root obligation is set and still open. *)
Definition root_open q : Prop :=
  exists r, m_root q = Some r /\ m_open r = true.

End RootEnqueued.

(** A queue that has drained and whose root obligation is closed. *)
Definition closed_root : pob unit := mk_pob tt 3 0 false 0.
Definition drained_closed_queue : pob_queue unit :=
  mk_pob_queue (Some closed_root) 3 0 [].

Section LemmaLt.

Context {expr : Type}.

(** [ast_lt_proc], the order on expressions by which lemmas of one level
    are sorted, is defined with the abstract syntax ([ast/ast.h]). *)
Variable ast_lt_proc : expr -> expr -> bool.

(** [lemma_lt_proc::operator()]. *)
Definition lemma_lt_proc (a b : lemma expr) : bool :=
  (level a <? level b)
  || ((level a =? level b) && ast_lt_proc (get_expr a) (get_expr b)).

End LemmaLt.


End SpacerContext.

(** ** The pool of solver factories ([spacer_smt_context_manager.cpp]) *)

Module SmtContextManager.
Import Unsigned.

(** A [virtual_solver_factory] object, identified by the number of
    factories allocated before it. *)
Record virtual_solver_factory : Type := mk_factory { factory_stamp : nat }.

(** The solver that [solver_factory->mk_solver()] returns remembers the
    factory that made it. *)
Record virtual_solver : Type := mk_solver { solver_factory : virtual_solver_factory }.

Record smt_context_manager : Type := mk_manager {
  m_max_num_contexts : Z;
  m_num_contexts : Z;
  m_solvers : list virtual_solver_factory
}.

(** The constructor. *)
Definition init (max_num_contexts : Z) : smt_context_manager :=
  mk_manager max_num_contexts 0 [].

(** [mk_fresh]; the result is [None] if [m_solvers] is indexed out of its
    bounds. *)
Definition mk_fresh (s : smt_context_manager)
  : option virtual_solver * smt_context_manager :=
  let num_contexts := wrap (m_num_contexts s + 1) in
  if (m_max_num_contexts s =? 0)
     || (Z.of_nat (length (m_solvers s)) <? m_max_num_contexts s)
  then
    let f := mk_factory (length (m_solvers s)) in
    (Some (mk_solver f),
     mk_manager (m_max_num_contexts s) num_contexts (m_solvers s ++ [f]))
  else
    (mk_solver <$>
       m_solvers s !! Z.to_nat (wrap (num_contexts - 1) mod m_max_num_contexts s),
     mk_manager (m_max_num_contexts s) num_contexts (m_solvers s)).

(** The manager constructed with [max_num_contexts = n] after [c] calls of
    [mk_fresh], and the solver that call number [c] (counted from 1)
    returns. *)
Definition state_after (n c : Z) : smt_context_manager :=
  N.iter (Z.to_N c) (fun s => snd (mk_fresh s)) (init n).

Definition call (n c : Z) : option virtual_solver :=
  fst (mk_fresh (state_after n (c - 1))).

(** Call number [c] reuses the factory at index [(c - 1) mod n]. *)
Definition round_robin_reuse (n c : Z) : Prop :=
  call n c
  = mk_solver <$> m_solvers (state_after n (c - 1)) !! Z.to_nat ((c - 1) mod n).

End SmtContextManager.

(** ** The equivalence graph of terms ([qe_term_graph.cpp]) *)

Module TermGraph.
Import Unsigned.
Local Open Scope nat_scope.

(** *** Expressions

    The part of the abstract syntax that the term graph looks at: every
    expression has an identifier; an application has a declaration and
    arguments. *)

Record func_decl : Type := mk_func_decl { decl_id : Z; decl_family_id : Z }.

#[warnings="-register-all"]
Inductive expr : Type :=
| e_app (id : Z) (d : func_decl) (args : list expr)
| e_var (id : Z) (idx : Z)
| e_quantifier (id : Z) (body : expr).

Definition expr_id (e : expr) : Z :=
  match e with
  | e_app id _ _ | e_var id _ | e_quantifier id _ => id
  end.

Definition expr_is_app (e : expr) : bool :=
  match e with e_app _ _ _ => true | _ => false end.

Definition expr_args (e : expr) : list expr :=
  match e with e_app _ _ args => args | _ => [] end.

(** The queries of [ast_manager] that the term graph uses. *)
Record ast_manager : Type := mk_ast_manager {
  is_value : expr -> bool;
  is_unique_value : expr -> bool
}.

(** *** Terms

    A pointer to a term is the index of the term in [m_terms]. *)

Abbreviation ptr := nat (only parsing).

Record term : Type := mk_term_record {
  m_expr : expr;
  m_root : ptr;
  m_next : ptr;
  m_class_size : Z;
  m_mark : bool;
  m_mark2 : bool;
  m_interpreted : bool;
  m_parents : list ptr;
  m_children : list ptr
}.

#[export] Instance term_inhabited : Inhabited term :=
  populate (mk_term_record (e_var 0 0) 0 0 0 false false false [] []).

Definition get_id (t : term) : Z := expr_id (m_expr t).

Definition get_decl_id (t : term) : Z :=
  match m_expr t with
  | e_app _ d _ => decl_id d
  | e => expr_id e
  end.

Definition get_num_args (t : term) : Z :=
  Z.of_nat (length (expr_args (m_expr t))).

Definition is_interpreted (t : term) : bool := m_interpreted t.

Definition with_root (r : ptr) (t : term) : term :=
  mk_term_record (m_expr t) r (m_next t) (m_class_size t) (m_mark t)
    (m_mark2 t) (m_interpreted t) (m_parents t) (m_children t).

Definition with_next (n : ptr) (t : term) : term :=
  mk_term_record (m_expr t) (m_root t) n (m_class_size t) (m_mark t)
    (m_mark2 t) (m_interpreted t) (m_parents t) (m_children t).

Definition with_class_size (sz : Z) (t : term) : term :=
  mk_term_record (m_expr t) (m_root t) (m_next t) sz (m_mark t)
    (m_mark2 t) (m_interpreted t) (m_parents t) (m_children t).

Definition with_mark (v : bool) (t : term) : term :=
  mk_term_record (m_expr t) (m_root t) (m_next t) (m_class_size t) v
    (m_mark2 t) (m_interpreted t) (m_parents t) (m_children t).

Definition with_interpreted (v : bool) (t : term) : term :=
  mk_term_record (m_expr t) (m_root t) (m_next t) (m_class_size t) (m_mark t)
    (m_mark2 t) v (m_parents t) (m_children t).

Definition with_parent (p : ptr) (t : term) : term :=
  mk_term_record (m_expr t) (m_root t) (m_next t) (m_class_size t) (m_mark t)
    (m_mark2 t) (m_interpreted t) (m_parents t ++ [p]) (m_children t).

(** *** The graph *)

Record term_graph : Type := mk_graph {
  m_terms : list term;
  m_app2term : gmap Z ptr;
  m_term2app : gmap Z expr;
  m_pinned : list expr;
  m_cg_table : list ptr;
  m_merge : list (ptr * ptr)
}.

Definition empty_graph : term_graph := mk_graph [] ∅ ∅ [] [] [].

Definition with_terms (ts : list term) (g : term_graph) : term_graph :=
  mk_graph ts (m_app2term g) (m_term2app g) (m_pinned g) (m_cg_table g)
    (m_merge g).

Definition with_app2term (a : gmap Z ptr) (g : term_graph) : term_graph :=
  mk_graph (m_terms g) a (m_term2app g) (m_pinned g) (m_cg_table g)
    (m_merge g).

Definition with_cg_table (tb : list ptr) (g : term_graph) : term_graph :=
  mk_graph (m_terms g) (m_app2term g) (m_term2app g) (m_pinned g) tb
    (m_merge g).

Definition with_merge (q : list (ptr * ptr)) (g : term_graph) : term_graph :=
  mk_graph (m_terms g) (m_app2term g) (m_term2app g) (m_pinned g)
    (m_cg_table g) q.

(** [m_term2app.reset(); m_pinned.reset();] *)
Definition reset_caches (g : term_graph) : term_graph :=
  mk_graph (m_terms g) (m_app2term g) ∅ [] (m_cg_table g) (m_merge g).

(** Dereference and in-place update of the term a pointer points to. *)
Definition get (g : term_graph) (p : ptr) : term := m_terms g !!! p.

Definition update_term (p : ptr) (f : term -> term) (g : term_graph) : term_graph :=
  with_terms (alter f p (m_terms g)) g.

Definition num_terms (g : term_graph) : nat := length (m_terms g).

Definition get_root (g : term_graph) (p : ptr) : ptr := m_root (get g p).
Definition get_next (g : term_graph) (p : ptr) : ptr := m_next (get g p).
Definition get_class_size (g : term_graph) (p : ptr) : Z := m_class_size (get g p).
Definition is_marked (g : term_graph) (p : ptr) : bool := m_mark (get g p).
Definition is_root (g : term_graph) (p : ptr) : bool := get_root g p =? p.
Definition parents (g : term_graph) (p : ptr) : list ptr := m_parents (get g p).
Definition children (g : term_graph) (p : ptr) : list ptr := m_children (get g p).

Definition set_root (p r : ptr) : term_graph -> term_graph :=
  update_term p (with_root r).
Definition set_next (p n : ptr) : term_graph -> term_graph :=
  update_term p (with_next n).
Definition set_class_size (p : ptr) (sz : Z) : term_graph -> term_graph :=
  update_term p (with_class_size sz).
Definition set_mark (p : ptr) (v : bool) : term_graph -> term_graph :=
  update_term p (with_mark v).
Definition mark_as_interpreted (p : ptr) : term_graph -> term_graph :=
  update_term p (with_interpreted true).
Definition add_parent (a p : ptr) : term_graph -> term_graph :=
  update_term a (with_parent p).

(** [term::merge_eq_class], called on [a] with argument [b]: swap the two
    [m_next] pointers, add the class size of [b] to that of [a], reset the
    class size of [b]. *)
Definition merge_eq_class (a b : ptr) (g : term_graph) : term_graph :=
  let na := get_next g a in
  let nb := get_next g b in
  let g := set_next a nb g in
  let g := set_next b na g in
  let g := set_class_size a (wrap (get_class_size g a + get_class_size g b)) g in
  set_class_size b 0%Z g.

(** [term::cg_eq]: same declaration, same number of children, and the
    roots of the children agree pairwise. *)
Definition cg_eq (g : term_graph) (t1 t2 : ptr) : bool :=
  (get_decl_id (get g t1) =? get_decl_id (get g t2))%Z
  && (length (children g t1) =? length (children g t2))
  && forallb
       (fun cs => (get_id (get g (get_root g cs.1))
                   =? get_id (get g (get_root g cs.2)))%Z)
       (zip (children g t1) (children g t2)).

(** [m_cg_table] is a [ptr_hashtable<term, term_hash, term_eq>]; the
    container is a list of entries, and an entry matches a term when
    [term_eq] (that is, [cg_eq]) holds of them. *)
Fixpoint remove_first (f : ptr -> bool) (l : list ptr) : list ptr :=
  match l with
  | [] => []
  | x :: l' => if f x then l' else x :: remove_first f l'
  end.

Definition cg_erase (p : ptr) (g : term_graph) : term_graph :=
  with_cg_table (remove_first (fun e => cg_eq g e p) (m_cg_table g)) g.

Definition cg_insert_if_not_there (p : ptr) (g : term_graph) : ptr * term_graph :=
  match find (fun e => cg_eq g e p) (m_cg_table g) with
  | Some e => (e, g)
  | None => (p, with_cg_table (m_cg_table g ++ [p]) g)
  end.

(** The first loop of [merge]: take the unmarked parents of [b] out of the
    congruence table and mark them. *)
Definition erase_parents (b : ptr) (g : term_graph) : term_graph :=
  fold_left
    (fun g p => if is_marked g p then g else cg_erase p (set_mark p true g))
    (parents g b) g.

(** The loop of [merge] that walks the ring of [b] from [b->get_next()]
    and points every term on it to the root [a].  The result is [None] if
    the walk has not come back to [b] within [fuel] steps. *)
Fixpoint set_root_ring (fuel : nat) (a b it : ptr) (g : term_graph)
  : option term_graph :=
  if it =? b then Some g
  else match fuel with
       | O => None
       | S fuel' => set_root_ring fuel' a b (get_next g it) (set_root it a g)
       end.

(** The last loop of [merge], over the parents of [a] as they are when the
    loop is entered: a marked parent is put back into the congruence table,
    unmarked, added to the parents of [a], and queued for merging with the
    entry found in the table if their roots differ. *)
Definition reinsert_parent (a : ptr) (g : term_graph) (p : ptr) : term_graph :=
  if is_marked g p then
    let '(p_old, g) := cg_insert_if_not_there p g in
    let g := set_mark p false g in
    let g := add_parent a p g in
    if (get_id (get g (get_root g p)) =? get_id (get g (get_root g p_old)))%Z
    then g
    else with_merge ((p, p_old) :: m_merge g) g
  else g.

Definition reinsert_parents (a : ptr) (g : term_graph) : term_graph :=
  fold_left (reinsert_parent a) (parents g a) g.

(** The body of [merge] once the roots [a] and [b] are known to differ and
    have been ordered: [a] becomes the root of the class of [b].  A ring
    with [n] terms is walked in fewer than [n] steps, so the walk gets
    [num_terms g] steps. *)
Definition merge_roots (a b : ptr) (g : term_graph) : option term_graph :=
  let g := erase_parents b g in
  let g := set_root b a g in
  match set_root_ring (num_terms g) a b (get_next g b) g with
  | None => None
  | Some g => Some (reinsert_parents a (merge_eq_class a b g))
  end.

(** [term_graph::merge].  [m_merge] is used as a stack: its head is
    [m_merge.back()]. *)
Definition merge (t1 t2 : ptr) (g : term_graph) : option term_graph :=
  let g := reset_caches g in
  let a := get_root g t1 in
  let b := get_root g t2 in
  if a =? b then Some g
  else if (get_class_size g a >? get_class_size g b)%Z
       then merge_roots b a g
       else merge_roots a b g.

(** [term_graph::merge_flush]: [fuel] bounds the number of iterations. *)
Fixpoint merge_flush (fuel : nat) (g : term_graph) : option term_graph :=
  match m_merge g with
  | [] => Some g
  | (t1, t2) :: rest =>
      match fuel with
      | O => None
      | S fuel' =>
          match merge t1 t2 (with_merge rest g) with
          | Some g' => merge_flush fuel' g'
          | None => None
          end
      end
  end.

Definition get_term (g : term_graph) (a : expr) : option ptr :=
  m_app2term g !! expr_id a.

Definition is_internalized (g : term_graph) (a : expr) : bool :=
  bool_decide (is_Some (m_app2term g !! expr_id a)).

(** The constructor of [term] followed by the rest of [mk_term].  The new
    term lives at the end of [m_terms], where its slot is taken first so
    that [this] can be stored in the term and in the parents of the roots
    of its children; the result is [None] if an argument of the expression
    has no term. *)
Definition mk_term (m : ast_manager) (a : expr) (g : term_graph)
  : option (ptr * term_graph) :=
  let this := num_terms g in
  match mapM (fun e => m_app2term g !! expr_id e) (expr_args a) with
  | None => None
  | Some kids =>
      let t := mk_term_record a this this 1 false false false [] kids in
      let g := with_terms (m_terms g ++ [t]) g in
      let g := fold_left (fun g c => add_parent (get_root g c) this g) kids g in
      let g :=
        if (get_num_args t =? 0)%Z && is_unique_value m a
        then mark_as_interpreted this g else g in
      Some (this, with_app2term (<[expr_id a := this]> (m_app2term g)) g)
  end.

(** [term_graph::internalize_term]: the work list visits the arguments
    that have no term yet, last argument first; when the expression is back
    on top of the list it is looked up once more, and its term is made if
    it still has none. *)
Fixpoint internalize_term (m : ast_manager) (t : expr) (g : term_graph)
  {struct t} : option (ptr * term_graph) :=
  match get_term g t with
  | Some res => Some (res, g)
  | None =>
      let args_done :=
        match t with
        | e_app _ _ args =>
            fold_right
              (fun arg og =>
                 match og with
                 | None => None
                 | Some g => snd <$> internalize_term m arg g
                 end)
              (Some g) args
        | _ => Some g
        end in
      match args_done with
      | None => None
      | Some g =>
          match get_term g t with
          | Some res => Some (res, g)
          | None => mk_term m t g
          end
      end
  end.

(** [term_graph::internalize_eq]. *)
Definition internalize_eq (fuel : nat) (m : ast_manager) (a1 a2 : expr)
  (g : term_graph) : option term_graph :=
  match internalize_term m a1 g with
  | None => None
  | Some (t1, g) =>
      match internalize_term m a2 g with
      | None => None
      | Some (t2, g) =>
          match merge t1 t2 g with
          | None => None
          | Some g => merge_flush fuel g
          end
      end
  end.

Definition reset_marks (g : term_graph) : term_graph :=
  with_terms (with_mark false <$> m_terms g) g.

Section Roots.

Variable m : ast_manager.

(** [get_num_exprs], the size of an expression, is defined in
    [ast/ast_util]. *)
Variable get_num_exprs : expr -> Z.

(** [term_graph::term_lt]. *)
Definition term_lt (t1 t2 : term) : bool :=
  if (get_num_args t1 =? 0)%Z || (get_num_args t2 =? 0)%Z then
    if (get_num_args t1 =? get_num_args t2)%Z then
      if eqb (is_value m (m_expr t1)) (is_value m (m_expr t2))
      then (get_id t1 <? get_id t2)%Z
      else is_value m (m_expr t2)
    else (get_num_args t1 <? get_num_args t2)%Z
  else
    let sz1 := get_num_exprs (m_expr t1) in
    let sz2 := get_num_exprs (m_expr t1) in
    (sz1 <? sz2)%Z.

(** [term::mk_root]: the do-while loop around the ring of [this]. *)
Fixpoint mk_root_loop (fuel : nat) (this curr : ptr) (g : term_graph)
  : option term_graph :=
  match fuel with
  | O => None
  | S fuel' =>
      let g :=
        if is_root g curr
        then set_class_size curr 0%Z
               (set_class_size this (get_class_size g curr) g)
        else g in
      let g := set_root curr this g in
      let curr := get_next g curr in
      if curr =? this then Some g else mk_root_loop fuel' this curr g
  end.

Definition mk_root (this : ptr) (g : term_graph) : option term_graph :=
  if is_root g this then Some g
  else mk_root_loop (num_terms g) this this g.

(** The loop of [term_graph::pick_root]: mark the members of the ring of
    [t] and keep in [r] the least member seen so far. *)
Fixpoint pick_root_loop (fuel : nat) (t it r : ptr) (g : term_graph)
  : option (ptr * term_graph) :=
  if it =? t then Some (r, g)
  else match fuel with
       | O => None
       | S fuel' =>
           let g := set_mark it true g in
           let r := if term_lt (get g it) (get g r) then it else r in
           pick_root_loop fuel' t (get_next g it) r g
       end.

Definition pick_root (t : ptr) (g : term_graph) : option term_graph :=
  match pick_root_loop (num_terms g) t (get_next g t) t g with
  | None => None
  | Some (r, g) => if r =? t then Some g else mk_root r g
  end.

(** [term_graph::pick_roots]. *)
Definition pick_roots (g : term_graph) : option term_graph :=
  reset_marks <$>
    fold_left
      (fun og t =>
         match og with
         | None => None
         | Some g =>
             if negb (is_marked g t) && is_root g t then pick_root t g
             else Some g
         end)
      (seq 0 (num_terms g)) (Some g).

End Roots.

(** The part of the graph that the equivalence classes live in: the number
    of terms and the [m_root], [m_next] and [m_class_size] fields. *)
Definition uf_eq (g g' : term_graph) : Prop :=
  num_terms g' = num_terms g /\
  forall p, get_root g' p = get_root g p /\
            get_next g' p = get_next g p /\
            get_class_size g' p = get_class_size g p.

(** The rest of the graph, as far as pointers are stored in it. *)
Definition aux_eq (g g' : term_graph) : Prop :=
  (forall p, parents g' p = parents g p) /\
  m_cg_table g' = m_cg_table g /\
  m_merge g' = m_merge g /\
  m_app2term g' = m_app2term g.


(** *** Rings and classes *)

(** [path g it l b]: a walk along [m_next] that starts at [it], visits the
    terms of [l] in order and then stands at [b]. *)
Fixpoint path (g : term_graph) (it : ptr) (l : list ptr) (b : ptr) : Prop :=
  match l with
  | [] => it = b
  | z :: l' => it = z /\ path g (get_next g z) l' b
  end.

(** The ring of [r] is [r] followed by the terms of [l]. *)
Definition ring (g : term_graph) (r : ptr) (l : list ptr) : Prop :=
  path g (get_next g r) l r.

(** [r :: l] is the equivalence class whose root is [r]: it is the ring of
    [r], it holds exactly the terms that point to [r] as their root, and
    the class size stored in [r] is its length. *)
Record class_of (g : term_graph) (r : ptr) (l : list ptr) : Prop := {
  class_ring : ring g r l;
  class_nodup : NoDup (r :: l);
  class_members :
    forall p, p ∈ r :: l <-> p < num_terms g /\ get_root g p = r;
  class_size_eq : get_class_size g r = Z.of_nat (S (length l))
}.

(** The invariant of the equivalence classes. *)
Definition wf_classes (g : term_graph) : Prop :=
  (Z.of_nat (num_terms g) <= UINT_MAX)%Z /\
  (forall p, p < num_terms g ->
     get_root g p < num_terms g /\
     get_root g (get_root g p) = get_root g p) /\
  (forall r, r < num_terms g -> get_root g r = r -> exists l, class_of g r l).

(** Every pointer stored in the graph points into [m_terms]. *)
Definition wf_pointers (g : term_graph) : Prop :=
  (forall p x, x ∈ parents g p -> x < num_terms g) /\
  (forall x, x ∈ m_cg_table g -> x < num_terms g) /\
  (forall x y, (x, y) ∈ m_merge g -> x < num_terms g /\ y < num_terms g) /\
  (forall k p, m_app2term g !! k = Some p -> p < num_terms g).

Definition wf (g : term_graph) : Prop := wf_classes g /\ wf_pointers g.

(** Two terms that share a root in [g] share a root in [g']. *)
Definition coarser (g g' : term_graph) : Prop :=
  num_terms g' = num_terms g /\
  forall p q, p < num_terms g -> q < num_terms g ->
    get_root g p = get_root g q -> get_root g' p = get_root g' q.

(** The number of equivalence classes. *)
Definition num_roots (g : term_graph) : nat :=
  length (filter (fun p => get_root g p = p) (seq 0 (num_terms g))).

(** The effect of merging the classes of the distinct roots [a] and [b] on
    roots, rings and class sizes, [a] being the root that survives. *)
Record merged (g : term_graph) (a b : ptr) (g' : term_graph) : Prop := {
  merged_num_terms : num_terms g' = num_terms g;
  merged_root :
    forall p, get_root g' p
              = if decide (p < num_terms g /\ get_root g p = b) then a
                else get_root g p;
  merged_next :
    forall p, get_next g' p
              = if decide (p = a) then get_next g b
                else if decide (p = b) then get_next g a
                else get_next g p;
  merged_class_size :
    forall p, get_class_size g' p
              = if decide (p = a)
                then wrap (get_class_size g a + get_class_size g b)
                else if decide (p = b) then 0%Z
                else get_class_size g p
}.

(** *** [merge], [merge_flush] and [internalize_eq] *)

(** The root that survives when the classes of the roots [ra] and [rb] are
    merged, and the root that is absorbed: [merge] swaps the two when the
    class of the first is the larger one. *)
Definition surviving_root (g : term_graph) (ra rb : ptr) : ptr :=
  if (get_class_size g ra >? get_class_size g rb)%Z then rb else ra.

Definition absorbed_root (g : term_graph) (ra rb : ptr) : ptr :=
  if (get_class_size g ra >? get_class_size g rb)%Z then ra else rb.

(** *** The graphs that [internalize_term] builds are well formed *)

(** Induction on expressions, with the arguments of an application as
    induction hypotheses. *)
Fixpoint expr_nested_ind (P : expr -> Prop)
  (Happ : forall id d args, Forall P args -> P (e_app id d args))
  (Hvar : forall id idx, P (e_var id idx))
  (Hquant : forall id body, P body -> P (e_quantifier id body))
  (e : expr) : P e :=
  match e with
  | e_app id d args =>
      Happ id d args
        ((fix go (l : list expr) : Forall P l :=
            match l with
            | [] => @List.Forall_nil expr P
            | x :: l' =>
                @List.Forall_cons expr P x l'
                  (expr_nested_ind P Happ Hvar Hquant x) (go l')
            end) args)
  | e_var id idx => Hvar id idx
  | e_quantifier id body =>
      Hquant id body (expr_nested_ind P Happ Hvar Hquant body)
  end.

(** The pass of [internalize_term] over the arguments of an application. *)
Definition internalize_args (m : ast_manager) (args : list expr)
  (g : term_graph) : option term_graph :=
  fold_right
    (fun arg og =>
       match og with
       | None => None
       | Some g => snd <$> internalize_term m arg g
       end)
    (Some g) args.


(** *** A graph with two constants *)

Definition no_values : ast_manager :=
  mk_ast_manager (fun _ => false) (fun _ => false).

Definition const_x : expr := e_app 1 (mk_func_decl 10 (-1)) [].
Definition const_y : expr := e_app 2 (mk_func_decl 11 (-1)) [].

Definition two_constants : term_graph :=
  match mk_term no_values const_x empty_graph with
  | Some (_, g1) =>
      match mk_term no_values const_y g1 with
      | Some (_, g2) => g2
      | None => empty_graph
      end
  | None => empty_graph
  end.


(** *** Applications of merged constants *)

Definition app_f_x : expr := e_app 6 (mk_func_decl 30 (-1)) [const_x].
Definition app_f_y : expr := e_app 7 (mk_func_decl 30 (-1)) [const_y].

(** The graph with the terms of [f(x)] and [f(y)], and the same graph
    after [add_eq(x, y)]. *)
Definition graph_fx_fy : option term_graph :=
  match internalize_term no_values app_f_x empty_graph with
  | Some (_, g) => snd <$> internalize_term no_values app_f_y g
  | None => None
  end.

Definition graph_fx_fy_merged : option term_graph :=
  match graph_fx_fy with
  | Some g => internalize_eq 4 no_values const_x const_y g
  | None => None
  end.

(** *** Two applications of different size in one class *)

(** The number of nodes of an expression: [get_num_exprs] on expressions
    without shared subterms. *)
Fixpoint tree_size (e : expr) : Z :=
  match e with
  | e_app _ _ args => (1 + fold_right (fun a n => tree_size a + n) 0 args)%Z
  | e_var _ _ => 1%Z
  | e_quantifier _ body => (1 + tree_size body)%Z
  end.

Definition const_a : expr := e_app 1 (mk_func_decl 10 (-1)) [].
Definition const_b : expr := e_app 2 (mk_func_decl 11 (-1)) [].
Definition const_c : expr := e_app 3 (mk_func_decl 12 (-1)) [].
Definition app_f_a : expr := e_app 4 (mk_func_decl 20 (-1)) [const_a].
Definition app_g_abc : expr :=
  e_app 5 (mk_func_decl 21 (-1)) [const_a; const_b; const_c].

(** The graph after [add_eq(g(a,b,c), f(a))], and the same graph after
    [pick_roots]. *)
Definition graph_g_eq_f : option term_graph :=
  internalize_eq 4 no_values app_g_abc app_f_a empty_graph.

Definition graph_g_eq_f_picked : option term_graph :=
  match graph_g_eq_f with
  | Some g => pick_roots no_values tree_size g
  | None => None
  end.

Definition term_of (og : option term_graph) (e : expr) : option ptr :=
  match og with Some g => get_term g e | None => None end.

Definition root_of (og : option term_graph) (e : expr) : option ptr :=
  match og with Some g => get_root g <$> get_term g e | None => None end.

(** *** The hash of the congruence table *)

Section Hash.

(** [mix], the mixing step of the hash, is a macro of [util/hash.h] that
    updates its three arguments in place. *)
Variable mix : Z * Z * Z -> Z * Z * Z.

(** [term::get_hash]. *)
Definition get_hash (g : term_graph) (t : ptr) : Z :=
  let d := get_decl_id (get g t) in
  (fold_left
     (fun abc ch => mix (get_id (get g (get_root g ch)), abc.1.2, abc.2))
     (children g t) (d, d, d)).2.

End Hash.

(** *** The test for the variables to eliminate *)

(** [null_family_id], the family of the uninterpreted symbols
    ([ast/ast.h]). *)
Definition null_family_id : Z := (-1)%Z.

(** [term::is_theory]. *)
Definition is_theory (t : term) : bool :=
  match m_expr t with
  | e_app _ d _ => negb (decl_family_id d =? null_family_id)%Z
  | _ => true
  end.

(** [term_graph::is_variable_proc]; the two tables are keyed by the
    identifiers of the declarations. *)
Record is_variable_proc : Type := mk_is_variable_proc {
  m_exclude : bool;
  m_decls : gset Z;
  m_solved : gset Z
}.

(** [is_variable_proc::operator()] on expressions. *)
Definition is_variable_expr (v : is_variable_proc) (e : expr) : bool :=
  match e with
  | e_app _ d _ =>
      if negb (decl_family_id d =? null_family_id)%Z then false
      else if bool_decide (decl_id d ∈ m_solved v) then false
      else eqb (m_exclude v) (bool_decide (decl_id d ∈ m_decls v))
  | _ => false
  end.

(** [is_variable_proc::operator()] on terms. *)
Definition is_variable_term (v : is_variable_proc) (t : term) : bool :=
  negb (is_theory t)
  && eqb (m_exclude v) (bool_decide (get_decl_id t ∈ m_decls v)).

(** [is_variable_proc::reset] and [reset_solved]. *)
Definition is_variable_reset (v : is_variable_proc) : is_variable_proc :=
  mk_is_variable_proc true ∅ ∅.

Definition reset_solved (v : is_variable_proc) : is_variable_proc :=
  mk_is_variable_proc (m_exclude v) (m_decls v) ∅.

(** [is_variable_proc::set_decls]. *)
Definition set_decls (decls : list func_decl) (exclude : bool)
  (v : is_variable_proc) : is_variable_proc :=
  let v := is_variable_reset v in
  let v := mk_is_variable_proc exclude (m_decls v) (m_solved v) in
  fold_left
    (fun v d =>
       mk_is_variable_proc (m_exclude v) ({[decl_id d]} ∪ m_decls v) (m_solved v))
    decls v.

(** [is_variable_proc::mark_solved]. *)
Definition mark_solved (e : expr) (v : is_variable_proc) : is_variable_proc :=
  if is_variable_expr v e then
    match e with
    | e_app _ d _ =>
        mk_is_variable_proc (m_exclude v) (m_decls v) ({[decl_id d]} ∪ m_solved v)
    | _ => v
    end
  else v.

(** *** Classes before and after an operation *)

(** [g'] has the terms of [g], and two of them share a root in [g'] exactly
    when they share one in [g]. *)
Definition same_classes (g g' : term_graph) : Prop :=
  num_terms g' = num_terms g /\
  forall p q, p < num_terms g -> q < num_terms g ->
    (get_root g' p = get_root g' q <-> get_root g p = get_root g q).

(** The expressions of the terms are the same in [g'] as in [g]. *)
Definition same_exprs (g g' : term_graph) : Prop :=
  forall p, m_expr (get g' p) = m_expr (get g p).

(** The body of the loop of [term::mk_root], at the term [curr]. *)
Definition mk_root_step (this curr : ptr) (g : term_graph) : term_graph :=
  let g :=
    if is_root g curr
    then set_class_size curr 0%Z
           (set_class_size this (get_class_size g curr) g)
    else g in
  set_root curr this g.

(** The kind of a term in the order of preference for roots: a constant
    that is not a value, a constant that is a value, an application. *)
Definition kind (m : ast_manager) (t : term) : Z :=
  if (get_num_args t =? 0)%Z
  then if is_value m (m_expr t) then 1%Z else 0%Z
  else 2%Z.


(** The terms of a graph keep their place in their class, and the terms
    that were added are classes of their own. *)
Definition extends_classes (g g' : term_graph) : Prop :=
  num_terms g <= num_terms g' /\
  (forall q, q < num_terms g ->
     get_root g' q = get_root g q /\ get_next g' q = get_next g q /\
     get_class_size g' q = get_class_size g q) /\
  (forall q, num_terms g <= q < num_terms g' ->
     get_root g' q = q /\ get_next g' q = q /\ get_class_size g' q = 1%Z).


(** *** The keys of the congruence table *)

(** The identifier of the root of a child. *)
Definition root_id (g : term_graph) (c : ptr) : Z :=
  get_id (get g (get_root g c)).


(** The constants [x] and [y] in one class, with the term of [x] as its
    root. *)
Definition two_constants_merged_graph : term_graph :=
  default empty_graph (merge 0 1 two_constants).

(** The term that the loop of [pick_root] selects on a walk over [l] that
    starts with the selection [r]. *)
Definition select_root (lt : ptr -> ptr -> bool) (l : list ptr) (r : ptr) : ptr :=
  fold_left (fun r it => if lt it r then it else r) l r.


(** The graph with the terms of [a] and [f(a)], and the same graph after
    the two were merged: [f(a)] is the root of their class. *)
Definition graph_fa : term_graph :=
  (default (0, empty_graph)
     (internalize_term no_values app_f_a empty_graph)).2.

Definition graph_fa_eq_a : term_graph :=
  default empty_graph (merge 1 0 graph_fa).


End TermGraph.

(** ** The order in which obligations leave the queue *)

Module ObligationQueue.
Import Unsigned SpacerContext.

Section Order.

Context {expr : Type}.
Implicit Types (n x y : pob expr) (q : list (pob expr)).

(** Modelled from the spec: the body of [pob_lt::operator()], which is in
    [spacer_context.cpp]; the queue is "ordered first by ascending level,
    then by ascending depth". *)
Definition pob_lt (n1 n2 : pob expr) : bool :=
  (pob_level n1 <? pob_level n2)
  || ((pob_level n1 =? pob_level n2) && (pob_depth n1 <? pob_depth n2)).

(** Modelled from the spec: [pob_queue::top], which is in
    [spacer_context.cpp]; it delivers "the lowest (level, depth) pob". *)
Definition top (q : pob_queue expr) : option (pob expr) :=
  pq_top (m_obligations q).

(** Modelled from the spec: [pob_queue::push], which is in
    [spacer_context.cpp]; it puts the obligation into the priority
    structure. *)
Definition push (n : pob expr) (q : pob_queue expr) : pob_queue expr :=
  mk_pob_queue (m_root q) (m_max_level q) (m_min_depth q)
    (pq_push pob_lt n (m_obligations q)).

(** The lexicographic order on (level, depth) pairs. *)
Definition key_le (x y : pob expr) : Prop :=
  pob_level x < pob_level y
  \/ (pob_level x = pob_level y /\ pob_depth x <= pob_depth y).

(** A run of the queue: obligations are pushed, and [top] followed by
    [pop] dequeues one; [pop] on an empty queue dequeues nothing. *)
Inductive queue_op : Type :=
| op_push (n : pob expr)
| op_pop.

Definition run_op (st : pob_queue expr * list (pob expr)) (o : queue_op)
  : pob_queue expr * list (pob expr) :=
  match o with
  | op_push n => (push n st.1, st.2)
  | op_pop =>
      match top st.1 with
      | Some n => (pop st.1, st.2 ++ [n])
      | None => st
      end
  end.

(** The queue after the run and the obligations it dequeued, in order. *)
Definition run (ops : list queue_op) : pob_queue expr * list (pob expr) :=
  fold_left run_op ops (pob_queue_init, []).

(** Each dequeued obligation is at or above its predecessor. *)
Fixpoint non_decreasing (l : list (pob expr)) : Prop :=
  match l with
  | x :: ((y :: _) as l') => key_le x y /\ non_decreasing l'
  | _ => True
  end.

(** The head of the container is below all its other elements, and so on
    down the container. *)
Fixpoint sorted (q : list (pob expr)) : Prop :=
  match q with
  | [] => True
  | x :: q' => (forall y, In y q' -> key_le x y) /\ sorted q'
  end.

End Order.

(** A parent obligation at level 2 and its child, one level lower and one
    step deeper. *)
Definition parent_pob : pob unit := mk_pob tt 2 0 true 0.
Definition child_pob : pob unit := mk_pob tt 1 1 true 0.

Definition push_pop_push_pop : list (@queue_op unit) :=
  [op_push parent_pob; op_pop; op_push child_pob; op_pop].

End ObligationQueue.

(** ** The solve loop *)

Module SolveLoop.
Import Unsigned SpacerContext ObligationQueue.

(** The answers of the satisfiability oracle ([lbool]). *)
Inductive lbool : Type := l_false | l_undef | l_true.

(** The verdicts of the result interface. *)
Inductive verdict : Type := sat | unsat | unknown.

(** How the root obligation stands. *)
Inductive root_status : Type := root_open | root_blocked | root_reachable.

#[local] Instance pob_eq_dec {expr : Type} `{EqDecision expr} :
  EqDecision (pob expr).
Proof. solve_decision. Defined.

(** The collaborators of the loop: the state of the relations (frames,
    reachability facts), the reachability query, the learning of a lemma
    from an unsatisfiable query, the derivation of the children of an
    obligation from a model, and the propagation of the lemmas up to a
    level, which reports whether no lemma failed to propagate. *)
Record collaborators {expr : Type} : Type := mk_collaborators {
  rels : Type;
  is_reachable : rels -> pob expr -> lbool;
  learn_lemma : rels -> pob expr -> rels;
  create_children : rels -> pob expr -> list (pob expr);
  propagate : rels -> Z -> bool * rels
}.

Arguments collaborators : clear implicits.

(** The context: the obligation queue, the relations, the status of the
    root, and the answers the oracle has given so far, oldest first. *)
Record context {expr : Type} {K : collaborators expr} : Type := mk_context {
  m_pob_queue : pob_queue expr;
  m_rels : rels K;
  m_root_status : root_status;
  m_answers : list lbool
}.

Arguments context {expr} K.
Arguments mk_context {expr} K.

Inductive outcome {expr : Type} {K : collaborators expr} : Type :=
| finished (v : verdict) (c : context K)
| continue (c : context K).

Arguments outcome {expr} K.

(** [pob_queue::is_root]: the obligation is the one [m_root] refers to. *)
Definition is_root {expr : Type} `{EqDecision expr} (q : pob_queue expr)
  (n : pob expr) : bool :=
  bool_decide (m_root q = Some n).

(** One more answer of the oracle is on record. *)
Definition record_answer {expr : Type} {K : collaborators expr} (a : lbool)
  (c : context K) : context K :=
  mk_context K (m_pob_queue c) (m_rels c) (m_root_status c) (m_answers c ++ [a]).

(** Modelled from the spec: [context::expand_pob], which is in
    [spacer_context.cpp].  The obligation has been popped; the oracle is
    queried; on UNSAT a lemma is learned and the obligation is closed, that
    is, not enqueued again; on SAT the derivation produces the children and
    the obligation is re-enqueued behind them, or, when no child is needed,
    the obligation is reachable; an unknown answer ends the search with
    [unknown]. *)
Definition expand_pob {expr : Type} `{EqDecision expr} (K : collaborators expr)
  (n : pob expr) (c : context K) : outcome K :=
  let q := pop (m_pob_queue c) in
  let answer := is_reachable K (m_rels c) n in
  let c := record_answer answer c in
  match answer with
  | l_undef => finished unknown c
  | l_false =>
      continue
        (mk_context K q (learn_lemma K (m_rels c) n)
           (if is_root q n then root_blocked else m_root_status c)
           (m_answers c))
  | l_true =>
      match create_children K (m_rels c) n with
      | [] =>
          if is_root q n
          then finished sat
                 (mk_context K q (m_rels c) root_reachable (m_answers c))
          else continue
                 (mk_context K q (m_rels c) (m_root_status c) (m_answers c))
      | kids =>
          continue
            (mk_context K (fold_right push (push n q) kids) (m_rels c)
               (m_root_status c) (m_answers c))
      end
  end.

(** Modelled from the spec: one iteration of [context::solve_core] and
    [context::check_reachability], which are in [spacer_context.cpp].
    While the root is open and the queue is not empty the lowest obligation
    is popped and expanded; otherwise the lemmas are propagated, the search
    ends with [unsat] if no lemma failed to propagate, and else the level is
    raised. *)
Definition step {expr : Type} `{EqDecision expr} (K : collaborators expr)
  (c : context K) : outcome K :=
  match m_root_status c, top (m_pob_queue c) with
  | root_open, Some n => expand_pob K n c
  | root_reachable, _ => finished sat c
  | _, _ =>
      let '(fixpoint, r) :=
        propagate K (m_rels c) (max_level (m_pob_queue c)) in
      if fixpoint
      then finished unsat
             (mk_context K (m_pob_queue c) r (m_root_status c) (m_answers c))
      else continue
             (mk_context K (inc_level pob_lt (m_pob_queue c)) r root_open
                (m_answers c))
  end.

(** Modelled from the spec: [context::solve], which is in
    [spacer_context.cpp].  The cooperative checkpoint is polled once per
    iteration; [fuel] is the number of iterations before the search is
    cancelled, and a cancelled search ends with [unknown]. *)
Fixpoint solve {expr : Type} `{EqDecision expr} (K : collaborators expr)
  (fuel : nat) (c : context K) : verdict * context K :=
  match fuel with
  | O => (unknown, c)
  | S fuel' =>
      match step K c with
      | finished v c' => (v, c')
      | continue c' => solve K fuel' c'
      end
  end.

(** The context in which the search starts: the root obligation is in the
    queue and the oracle has not been asked yet. *)
Definition initial_context {expr : Type} (K : collaborators expr)
  (root : pob expr) (r : rels K) : context K :=
  mk_context K (push root (mk_pob_queue (Some root) (pob_level root) 0 []))
    r root_open [].

(** The answers that the oracle gave during the run of [solve]. *)
Definition answers_of {expr : Type} `{EqDecision expr} (K : collaborators expr)
  (fuel : nat) (c : context K) : list lbool :=
  drop (length (m_answers c)) (m_answers (solve K fuel c).2).

(** An oracle that cannot decide any query, and a loop around it. *)
Definition undecided : collaborators unit :=
  mk_collaborators unit unit (fun _ _ => l_undef) (fun r _ => r)
    (fun _ _ => []) (fun r _ => (true, r)).

Definition undecided_context : context undecided :=
  initial_context undecided (mk_pob tt 0 0 true 0) tt.

End SolveLoop.

(** ** Soundness of the lemmas in the frames *)

Module FrameSoundness.
Import Unsigned SpacerUtil SpacerContext.

Section Soundness.

Context {expr : Type}.

(** The states of the relation, the states in which a formula holds, the
    initial condition and the transition relation of the relation. *)
Variable state : Type.
Variable holds : expr -> state -> Prop.
Variable init : state -> Prop.
Variable trans : state -> state -> Prop.

(** The oracle query behind [pred_transformer::is_invariant]: the lemma is
    invariant at the level, that is, relative to the frame one level
    below. *)
Variable is_invariant : frames expr -> Z -> lemma expr -> bool.

(** The test for "an equal-or-stronger lemma". *)
Variable stronger_eq : expr -> expr -> bool.

Implicit Types (f : frames expr) (l : lemma expr) (s : state).

(** frame(R, lvl): the conjunction of the formulas that
    [get_frame_geq_lemmas] returns for [lvl]. *)
Definition frame f (lvl : Z) s : Prop :=
  forall e, In e (get_frame_geq_lemmas f lvl []) -> holds e s.

(** The lemma is sound at its level: at level 0, the initial condition
    together with the negation of the lemma is unsatisfiable; above level
    0, the frame one level below and the transition imply the lemma in
    the next state. *)
Definition sound_at f l : Prop :=
  if level l =? 0
  then forall s, ~ (init s /\ ~ holds (get_expr l) s)
  else forall s s',
         frame f (prev_level (level l)) s -> trans s s' -> holds (get_expr l) s'.

(** The soundness invariant of a frame set. *)
Definition sound f : Prop := forall l, In l (m_lemmas f) -> sound_at f l.

Definition set_level (lvl : Z) l : lemma expr :=
  mk_lemma (m_body l) (m_cube l) lvl (m_init_lvl l) (m_external l).

Definition set_level_at (i : nat) (lvl : Z) f : frames expr :=
  mk_frames (alter (set_level lvl) i (m_lemmas f)) (m_size f) false.

(** Modelled from the spec: [pred_transformer::add_lemma], which is in
    [spacer_context.cpp]; it "inserts a lemma, returns whether it changed
    the frame set (no-op if an equal-or-stronger lemma already holds at ≥
    level)". *)
Definition add_lemma f (fml : expr) (lvl : Z) : bool * frames expr :=
  if existsb
       (fun old => stronger_eq (get_expr old) fml && (lvl <=? level old))
       (m_lemmas f)
  then (false, f)
  else (true,
        mk_frames (m_lemmas f ++ [mk_lemma fml [] lvl lvl false])
          (m_size f) false).

(** Modelled from the spec: [frames::propagate_to_next_level], which is in
    [spacer_context.cpp]; it "attempts, for every lemma at [level], to
    re-prove inductiveness at [level+1] via the oracle; on success the
    lemma's level is bumped; returns true iff some lemma failed to
    propagate". *)
Definition propagate_lemma (lvl : Z) (acc : bool * frames expr) (i : nat)
  : bool * frames expr :=
  match m_lemmas acc.2 !! i with
  | Some l =>
      if level l =? lvl then
        if is_invariant acc.2 (next_level lvl) l
        then (acc.1, set_level_at i (next_level lvl) acc.2)
        else (true, acc.2)
      else acc
  | None => acc
  end.

Definition propagate_to_next_level f (lvl : Z) : bool * frames expr :=
  fold_left (propagate_lemma lvl) (seq 0 (length (m_lemmas f))) (false, f).

(** The level of every lemma of [f'] is at or above its level in [f]. *)
Definition levels_raised f f' : Prop :=
  Forall2 (fun l l' => get_expr l' = get_expr l /\ level l <= level l')
    (m_lemmas f) (m_lemmas f').

(** The answers of the reachability query: UNSAT with the unsat core, SAT
    with a model, or unknown. *)
Inductive reach_answer : Type :=
  | r_unsat (core : expr)
  | r_sat
  | r_unknown.

(** The oracle query behind [pred_transformer::is_reachable], for the
    formula of an obligation at a level; the negation of a formula; and the
    generalizer chain, in the order of registration. *)
Variable is_reachable : frames expr -> expr -> Z -> reach_answer.
Variable mk_not : expr -> expr.
Variable generalizers : list (frames expr -> Z -> expr -> expr).

(** The query for the core has no model: at level 0 no initial state
    satisfies the core, above level 0 no state of the frame one level below
    has a transition into a state that satisfies it. *)
Definition blocked_at f (lvl : Z) (core : expr) : Prop :=
  if lvl =? 0
  then forall s, ~ (init s /\ holds core s)
  else forall s s',
         frame f (prev_level lvl) s -> trans s s' -> ~ holds core s'.

(** Modelled from the spec: the generalizer chain; "the candidate is passed
    through the ordered generalizer chain". *)
Definition generalize f (lvl : Z) (e : expr) : expr :=
  fold_left (fun e g => g f lvl e) generalizers e.

(** Modelled from the spec: the learning of a lemma, which is in
    [spacer_context.cpp]; "on UNSAT of an [is_reachable] query, the
    returned unsat core yields a candidate blocking formula", which is
    generalized and "committed as a lemma at the target level". *)
Definition learn f (post : expr) (lvl : Z) : frames expr :=
  match is_reachable f post lvl with
  | r_unsat core => (add_lemma f (generalize f lvl (mk_not core)) lvl).2
  | _ => f
  end.

(** The operations that add a lemma or raise the level of one. *)
Inductive operation : Type :=
  | op_learn (post : expr) (lvl : Z)
  | op_propagate (lvl : Z).

Definition op_level (o : operation) : Z :=
  match o with
  | op_learn _ lvl => lvl
  | op_propagate lvl => lvl
  end.

Definition apply_operation f (o : operation) : frames expr :=
  match o with
  | op_learn post lvl => learn f post lvl
  | op_propagate lvl => (propagate_to_next_level f lvl).2
  end.

(** The frame set as [frames::frames] constructs it, and the frame set
    after a sequence of operations on it. *)
Definition empty_frames : frames expr := mk_frames [] 0 true.

Definition run (ops : list operation) : frames expr :=
  fold_left apply_operation ops empty_frames.

End Soundness.

Arguments frame {expr state} holds f lvl s.
Arguments sound_at {expr state} holds init trans f l.
Arguments sound {expr state} holds init trans f.
Arguments blocked_at {expr state} holds init trans f lvl core.
Arguments r_unsat {expr} core.
Arguments r_sat {expr}.
Arguments r_unknown {expr}.
Arguments op_learn {expr} post lvl.
Arguments op_propagate {expr} lvl.

(** *** A relation with two states *)

(** The states are the booleans, a formula is a predicate on them, the
    initial state is [false] and a transition keeps the state. *)
Definition holds2 (e : bool -> bool) (s : bool) : Prop := e s = true.
Definition init2 (s : bool) : Prop := s = false.
Definition trans2 (s s' : bool) : Prop := s' = s.

Definition frame2 (f : frames (bool -> bool)) (lvl : Z) (s : bool) : bool :=
  forallb (fun e => e s) (get_frame_geq_lemmas f lvl []).

(** The oracle tries every pair of states. *)
Definition is_invariant2 (f : frames (bool -> bool)) (lvl : Z)
  (l : lemma (bool -> bool)) : bool :=
  forallb
    (fun s => implb (frame2 f (prev_level lvl) s) (get_expr l s))
    [false; true].

Definition stronger_eq2 (e1 e2 : bool -> bool) : bool :=
  forallb (fun s => implb (e1 s) (e2 s)) [false; true].

(** The frame set with the lemma "the state is [false]" at level 0. *)
Definition stays_false : frames (bool -> bool) :=
  mk_frames [mk_lemma negb [] 0 0 false] 1 true.

(** The reachability oracle tries every state, and answers UNSAT with the
    whole formula as the core. *)
Definition is_reachable2 (f : frames (bool -> bool)) (post : bool -> bool)
  (lvl : Z) : reach_answer :=
  if existsb
       (fun s =>
          (if lvl =? 0 then negb s else frame2 f (prev_level lvl) s) && post s)
       [false; true]
  then r_sat
  else r_unsat post.

Definition mk_not2 (e : bool -> bool) : bool -> bool := fun s => negb (e s).

(** A generalizer that weakens a formula to [true] when the formula holds
    in every state, and leaves it alone otherwise. *)
Definition generalizers2
  : list (frames (bool -> bool) -> Z -> (bool -> bool) -> bool -> bool) :=
  [fun _ _ e => if e false && e true then fun _ => true else e].

(** The state [true] is blocked at level 0, and the lemma is pushed to
    level 1. *)
Definition block_true : list (operation (expr := bool -> bool)) :=
  [op_learn (fun s => s) 0; op_propagate 0].

End FrameSoundness.

(** ** Utilities on proofs ([spacer_proof_utils.cpp]) *)

Module ProofUtils.

(** The kind of a proof step: a theory lemma, or any other kind. *)
Inductive decl_kind : Type :=
| PR_TH_LEMMA
| PR_OTHER (k : Z).

(** A parameter of a declaration: a symbol, or a parameter of another
    sort. *)
Inductive parameter : Type :=
| PARAM_SYMBOL (s : string)
| PARAM_OTHER.

(** [parameter::is_symbol]: the symbol, when the parameter is one. *)
Definition is_symbol (p : parameter) : option string :=
  match p with
  | PARAM_SYMBOL s => Some s
  | PARAM_OTHER => None
  end.

(** What the recognizers read of a proof step: the kind and the parameters
    of its declaration. *)
Record proof_step : Type := mk_proof_step {
  get_decl_kind : decl_kind;
  get_parameters : list parameter
}.

Definition get_num_parameters (pr : proof_step) : Z :=
  Z.of_nat (length (get_parameters pr)).

(** The test [d->get_parameter(i).is_symbol(sym) && sym == name]. *)
Definition parameter_is (pr : proof_step) (i : nat) (name : string) : bool :=
  match get_parameters pr !! i with
  | Some p =>
      match is_symbol p with
      | Some sym => String.eqb sym name
      | None => false
      end
  | None => false
  end.

(** [is_arith_lemma]. *)
Definition is_arith_lemma (pr : proof_step) : bool :=
  match get_decl_kind pr with
  | PR_TH_LEMMA =>
      (get_num_parameters pr >=? 1) && parameter_is pr 0 "arith"
  | PR_OTHER _ => false
  end.

(** [is_farkas_lemma]. *)
Definition is_farkas_lemma (pr : proof_step) : bool :=
  match get_decl_kind pr with
  | PR_TH_LEMMA =>
      (get_num_parameters pr >=? 2) && parameter_is pr 0 "arith"
      && parameter_is pr 1 "farkas"
  | PR_OTHER _ => false
  end.

(** The proof steps of the manager, each with the steps it has as parents
    ([get_num_parents], [get_parent]); a pointer to a step is its index, and
    a step outside the vector has no parents. *)
Abbreviation proof_dag := (list (list nat)) (only parsing).

Definition get_parents (m : proof_dag) (p : nat) : list nat :=
  default [] (m !! p).

(** The loop of [hypothesis_reducer::is_ancestor]: [todo] is a stack whose
    top, [todo.back()], is the head of the list; the parents of a step are
    pushed first to last, so the last parent ends up on top.  The result is
    [None] if the loop has not ended within [fuel] rounds. *)
Fixpoint is_ancestor_loop (fuel : nat) (m : proof_dag) (p : nat)
  (todo : list nat) (visited : gset nat) : option bool :=
  match todo with
  | [] => Some false
  | cur :: todo =>
      match fuel with
      | O => None
      | S fuel' =>
          if bool_decide (cur ∈ visited)
          then is_ancestor_loop fuel' m p todo visited
          else if (cur =? p)%nat then Some true
          else is_ancestor_loop fuel' m p (reverse (get_parents m cur) ++ todo)
                 ({[cur]} ∪ visited)
      end
  end.

(** [hypothesis_reducer::is_ancestor]. *)
Definition is_ancestor (fuel : nat) (m : proof_dag) (p q : nat) : option bool :=
  if (p =? q)%nat then Some true
  else is_ancestor_loop fuel m p [q] ∅.

(** [y] is a parent of [x]. *)
Definition parent_of (m : proof_dag) (x y : nat) : Prop := y ∈ get_parents m x.

(** The parents that the steps outside [visited] have, all told. *)
Definition unvisited_parents (m : proof_dag) (visited : gset nat) : nat :=
  sum_list_with
    (fun i => if decide (i ∈ visited) then O else length (get_parents m i))
    (seq 0 (length m)).

(** A proof with a shared step: step 0 has parents 1 and 2, and both have
    parent 3. *)
Definition diamond : proof_dag := [[1; 2]; [3]; [3]; []]%nat.

End ProofUtils.

(** ** The orders by which sums and conjunctions are sorted
    ([qe_term_graph.cpp], second unit) *)

Module NormalizeOrder.

Section Orders.

(** Expressions; [==] on pointers to them is equality. *)
Context {expr : Type} `{EqDecision expr}.

(** [ast_lt_proc], the order on expressions by identifier ([ast/ast.h]). *)
Variable ast_lt : expr -> expr -> bool.

(** [arith_util::is_mul] with three arguments: the two factors of a binary
    product. *)
Variable is_mul : expr -> option (expr * expr).

(** The coefficient and the term that [arith_add_less_proc] compares: the
    factors of a product, and no coefficient and the expression itself
    otherwise. *)
Definition add_key (e : expr) : option expr * expr :=
  match is_mul e with
  | Some (k, t) => (Some k, t)
  | None => (None, e)
  end.

(** [arith_add_less_proc::operator()]. *)
Definition arith_add_less_proc (e1 e2 : expr) : bool :=
  let '(k1, t1) := add_key e1 in
  let '(k2, t2) := add_key e2 in
  if decide (t1 = t2) then
    match k1 with
    | None => match k2 with None => false | Some _ => true end
    | Some k1 =>
        match k2 with
        | None => false
        | Some k2 => ast_lt k1 k2
        end
    end
  else ast_lt t1 t2.

(** [ast_manager::is_not] with two arguments: the argument of a
    negation. *)
Variable is_not : expr -> option expr.

(** [arith_util::is_le], [is_lt], [is_ge] and [is_gt] with three arguments:
    the two sides of a comparison. *)
Variable is_le : expr -> option (expr * expr).
Variable is_lt : expr -> option (expr * expr).
Variable is_ge : expr -> option (expr * expr).
Variable is_gt : expr -> option (expr * expr).

(** [is_app], the depth of an application, [is_uninterp_const],
    [arith_util::is_add] with one argument, and the arguments of an
    application ([ast/ast.h], [ast/arith_decl_plugin.h]). *)
Variable is_app : expr -> bool.
Variable get_depth : expr -> Z.
Variable is_uninterp_const : expr -> bool.
Variable is_add : expr -> bool.
Variable get_num_args : expr -> nat.
Variable get_arg : expr -> nat -> expr.

(** [bool_and_less_proc::get_first_uc]; the recursion of the code goes down
    the leftmost branch of the expression, here for at most [fuel] calls.
    The outer [None] is a run that needs more calls, the inner one is
    [nullptr]. *)
Fixpoint get_first_uc (fuel : nat) (e : expr) : option (option expr) :=
  match fuel with
  | O => None
  | S fuel =>
      if is_uninterp_const e then Some (Some e)
      else if is_add e then
        if (get_num_args e =? 0)%nat then Some None
        else get_first_uc fuel (get_arg e 0)
      else
        match is_mul e with
        | Some (k, t) => get_first_uc fuel t
        | None => Some None
        end
  end.

(** The two sides [t] and [k] that [arith_lt] takes from an atom: those of
    the first of the four recognisers that matches, and the atom itself and
    [nullptr] when none does. *)
Definition sides (e : expr) : expr * option expr :=
  match is_le e with
  | Some (t, k) => (t, Some k)
  | None =>
      match is_lt e with
      | Some (t, k) => (t, Some k)
      | None =>
          match is_ge e with
          | Some (t, k) => (t, Some k)
          | None =>
              match is_gt e with
              | Some (t, k) => (t, Some k)
              | None => (e, None)
              end
          end
      end
  end.

(** [p < q] on two pointers of which one is [nullptr], and on two values
    of [bool]: the null pointer and [false] come first. *)
Definition null_lt {A B : Type} (p : option A) (q : option B) : bool :=
  match p, q with
  | None, Some _ => true
  | _, _ => false
  end.

Definition bool_lt (b1 b2 : bool) : bool := negb b1 && b2.

(** [bool_and_less_proc::arith_lt], the order on atoms. *)
Definition arith_lt (fuel : nat) (e1 e2 : expr) : option bool :=
  if decide (e1 = e2) then Some false
  else
    let '(t1, k1) := sides e1 in
    let '(t2, k2) := sides e2 in
    match k1, k2 with
    | Some k1, Some k2 =>
        if decide (t1 = t2) then Some (ast_lt k1 k2)
        else if negb (is_app t1 && is_app t2) then
          if Bool.eqb (is_app t1) (is_app t2) then Some (ast_lt t1 t2)
          else Some (bool_lt (is_app t1) (is_app t2))
        else
          let d1 := get_depth t1 in
          let d2 := get_depth t2 in
          if negb (d1 =? d2) then Some (d1 <? d2)
          else
            u1 ← get_first_uc fuel t1;
            u2 ← get_first_uc fuel t2;
            match u1, u2 with
            | Some u1, Some u2 =>
                Some (if decide (u1 = u2) then ast_lt t1 t2 else ast_lt u1 u2)
            | None, None => Some (ast_lt t1 t2)
            | _, _ => Some (null_lt u1 u2)
            end
    | None, None => Some (ast_lt t1 t2)
    | _, _ => Some (null_lt k1 k2)
    end.

(** The sign and the atom of a literal. *)
Definition literal (e : expr) : bool * expr :=
  match is_not e with
  | Some a => (true, a)
  | None => (false, e)
  end.

(** [bool_and_less_proc::operator()]. *)
Definition bool_and_less_proc (fuel : nat) (e1 e2 : expr) : option bool :=
  let '(is_not1, a1) := literal e1 in
  let '(is_not2, a2) := literal e2 in
  if decide (a1 = a2) then Some (bool_lt is_not1 is_not2)
  else arith_lt fuel a1 a2.

End Orders.

(** Expressions as numbers: an even number [2 * n] is the product of the
    coefficient 1 and the term [2 * n + 1], and the negation of the atom
    [2 * n + 1]. *)
Definition halves (e : Z) : option Z :=
  if Z.even e then Some (e + 1) else None.

Definition unit_product (e : Z) : option (Z * Z) :=
  if Z.even e then Some (1, e + 1) else None.

(** A table of expressions by identifier, as the manager keeps them;
    [ast_lt_proc] is the order of the identifiers. *)
Inductive node : Type :=
  | n_var
  | n_const
  | n_num
  | n_le (t k : nat)
  | n_ge (t k : nat)
  | n_not (a : nat)
  | n_mul (k t : nat)
  | n_add (args : list nat).

Section Table.

Variable tbl : list node.

Definition tbl_is_le (e : nat) : option (nat * nat) :=
  match tbl !! e with Some (n_le t k) => Some (t, k) | _ => None end.

Definition tbl_is_ge (e : nat) : option (nat * nat) :=
  match tbl !! e with Some (n_ge t k) => Some (t, k) | _ => None end.

Definition tbl_is_not (e : nat) : option nat :=
  match tbl !! e with Some (n_not a) => Some a | _ => None end.

Definition tbl_is_mul (e : nat) : option (nat * nat) :=
  match tbl !! e with Some (n_mul k t) => Some (k, t) | _ => None end.

Definition tbl_is_app (e : nat) : bool :=
  match tbl !! e with Some n_var | None => false | _ => true end.

Definition tbl_is_uninterp_const (e : nat) : bool :=
  match tbl !! e with Some n_const => true | _ => false end.

Definition tbl_is_add (e : nat) : bool :=
  match tbl !! e with Some (n_add _) => true | _ => false end.

Definition tbl_args (e : nat) : list nat :=
  match tbl !! e with
  | Some (n_le t k) | Some (n_ge t k) | Some (n_mul t k) => [t; k]
  | Some (n_not a) => [a]
  | Some (n_add args) => args
  | _ => []
  end.

Definition tbl_get_num_args (e : nat) : nat := length (tbl_args e).

Definition tbl_get_arg (e : nat) (i : nat) : nat := default e (tbl_args e !! i).

(** The depth of an expression of the table, every argument of which
    comes before it. *)
Definition tbl_depths : list Z :=
  foldl (fun ds n =>
           ds ++ [match n with
                  | n_le t k | n_ge t k | n_mul t k =>
                      1 + Z.max (default 0 (ds !! t)) (default 0 (ds !! k))
                  | n_not a => 1 + default 0 (ds !! a)
                  | n_add args =>
                      1 + foldr (fun a d => Z.max (default 0 (ds !! a)) d) 0 args
                  | _ => 1
                  end]) [] tbl.

Definition tbl_get_depth (e : nat) : Z := default 0 (tbl_depths !! e).

Definition tbl_get_first_uc : nat -> nat -> option (option nat) :=
  get_first_uc tbl_is_mul tbl_is_uninterp_const tbl_is_add tbl_get_num_args
    tbl_get_arg.

Definition tbl_arith_lt : nat -> nat -> nat -> option bool :=
  arith_lt Nat.ltb tbl_is_mul tbl_is_le (fun _ => None) tbl_is_ge
    (fun _ => None) tbl_is_app tbl_get_depth tbl_is_uninterp_const tbl_is_add
    tbl_get_num_args tbl_get_arg.

Definition tbl_bool_and_less_proc : nat -> nat -> nat -> option bool :=
  bool_and_less_proc Nat.ltb tbl_is_mul tbl_is_not tbl_is_le (fun _ => None)
    tbl_is_ge (fun _ => None) tbl_is_app tbl_get_depth tbl_is_uninterp_const
    tbl_is_add tbl_get_num_args tbl_get_arg.

End Table.

(** The expressions [x], [5], [x <= 5], [x >= 5], [not (x <= 5)], [5 * x],
    [5 * x + x] and [y]. *)
Definition sample : list node :=
  [n_const; n_num; n_le 0 1; n_ge 0 1; n_not 2; n_mul 1 0; n_add [5; 0];
   n_const]%nat.

End NormalizeOrder.

(** * The theorems *)

Module UnsignedFacts.
Import Unsigned.

Lemma modulus_eq : modulus = 4294967296.
Proof. reflexivity. Qed.

Lemma UINT_MAX_eq : UINT_MAX = 4294967295.
Proof. reflexivity. Qed.

Lemma wrap_small z : 0 <= z <= UINT_MAX -> wrap z = z.
Proof.
  intros H. unfold wrap. apply Z.mod_small.
  rewrite modulus_eq. rewrite UINT_MAX_eq in H. lia.
Qed.

Lemma wrap_range z : in_range (wrap z).
Proof.
  unfold in_range, wrap, UINT_MAX.
  pose proof (Z.mod_pos_bound z modulus) as H.
  rewrite modulus_eq in *. lia.
Qed.

Lemma wrap_wrap z : wrap (wrap z) = wrap z.
Proof. unfold wrap. apply Zmod_mod. Qed.

Lemma wrap_succ_max : wrap (UINT_MAX + 1) = 0.
Proof. reflexivity. Qed.

End UnsignedFacts.

Module SpacerUtilFacts.
Import Unsigned UnsignedFacts SpacerUtil.

Lemma infty_level_eq : infty_level = 4294967295.
Proof. reflexivity. Qed.

Lemma is_infty_level_true lvl : is_infty_level lvl = true <-> lvl = infty_level.
Proof. unfold is_infty_level. apply Z.eqb_eq. Qed.

Lemma is_infty_level_finite l : finite_level l -> is_infty_level l = false.
Proof. unfold finite_level, is_infty_level. intros H. apply Z.eqb_neq. lia. Qed.

Lemma next_level_finite l : finite_level l -> next_level l = l + 1.
Proof.
  intros H. unfold next_level. rewrite is_infty_level_finite by assumption.
  apply wrap_small. unfold finite_level in H. rewrite infty_level_eq in H.
  rewrite UINT_MAX_eq. lia.
Qed.

Lemma prev_level_finite l : finite_level l -> 0 < l -> prev_level l = l - 1.
Proof.
  intros H Hpos. unfold prev_level. rewrite is_infty_level_finite by assumption.
  destruct (Z.eqb_spec l 0) as [->|_]; [lia|].
  apply wrap_small. unfold finite_level in H. rewrite infty_level_eq in H.
  rewrite UINT_MAX_eq. lia.
Qed.

Lemma next_level_is_level l : is_level l -> is_level (next_level l).
Proof.
  intros H. unfold next_level. destruct (is_infty_level l); [assumption|].
  apply wrap_range.
Qed.

Lemma prev_level_is_level l : is_level l -> is_level (prev_level l).
Proof.
  intros H. unfold prev_level.
  destruct (is_infty_level l).
  - unfold is_level, in_range, infty_level. rewrite UINT_MAX_eq. lia.
  - destruct (l =? 0).
    + unfold is_level, in_range. rewrite UINT_MAX_eq. lia.
    + apply wrap_range.
Qed.

Lemma prev_level_le l : is_level l -> prev_level l <= l.
Proof.
  intros H. unfold prev_level.
  destruct (is_infty_level l) eqn:E.
  - apply is_infty_level_true in E. lia.
  - destruct (Z.eqb_spec l 0); [lia|].
    rewrite wrap_small; unfold is_level, in_range in H; lia.
Qed.

Lemma next_level_ge l : is_level l -> l <= next_level l.
Proof.
  intros H. unfold next_level.
  destruct (is_infty_level l) eqn:E; [lia|].
  unfold is_infty_level in E. apply Z.eqb_neq in E.
  unfold infty_level in E.
  rewrite wrap_small; unfold is_level, in_range in H; lia.
Qed.

(** C6. Levels are totally ordered with [infty_level] as greatest element;
    [next_level infty_level = infty_level], [prev_level 0 = 0],
    [prev_level infty_level = infty_level], and on every finite level [l]
    [next_level l = l + 1] and, when [0 < l], [prev_level l = l - 1]. *)
Theorem level_arithmetic :
  (forall a b, is_level a -> is_level b -> level_le a b \/ level_le b a) /\
  (forall a b, level_le a b -> level_le b a -> a = b) /\
  (forall a b c, level_le a b -> level_le b c -> level_le a c) /\
  (forall a, is_level a -> level_le a infty_level) /\
  next_level infty_level = infty_level /\
  prev_level 0 = 0 /\
  prev_level infty_level = infty_level /\
  (forall l, finite_level l -> next_level l = l + 1) /\
  (forall l, finite_level l -> 0 < l -> prev_level l = l - 1).
Proof.
  unfold level_le.
  repeat split; try reflexivity; try (intros; lia).
  - intros a Ha. unfold is_level, in_range in Ha. unfold infty_level. lia.
  - apply next_level_finite.
  - apply prev_level_finite.
Qed.

Lemma level_arithmetic_witness : next_level 7 = 7 + 1 /\ prev_level 7 = 7 - 1.
Proof.
  destruct level_arithmetic as (_ & _ & _ & _ & _ & _ & _ & Hnext & Hprev).
  assert (finite_level 7) as H7 by (unfold finite_level; rewrite infty_level_eq; lia).
  split; [apply Hnext; exact H7|apply Hprev; [exact H7|lia]].
Defined.

(** X1. On the values of [unsigned], [next_level] and [prev_level] stay
    within the levels, [prev_level l <= l <= next_level l], both are
    monotone, and each undoes the other except at the ends of the finite
    levels: [prev_level (next_level l) = l] unless [l] is the largest finite
    level [UINT_MAX - 1], whose successor is the infinity level, and
    [next_level (prev_level l) = l] unless [l = 0]. *)
Theorem level_round_trip l :
  is_level l ->
  is_level (next_level l) /\ is_level (prev_level l) /\
  prev_level l <= l <= next_level l /\
  (forall l', is_level l' -> l <= l' ->
     next_level l <= next_level l' /\ prev_level l <= prev_level l') /\
  (prev_level (next_level l) = l <-> l <> UINT_MAX - 1) /\
  (next_level (prev_level l) = l <-> l <> 0).
Proof.
  intros H.
  split; [now apply next_level_is_level|].
  split; [now apply prev_level_is_level|].
  split; [split; [now apply prev_level_le|now apply next_level_ge]|].
  unfold is_level, in_range in *.
  assert (Hnext : forall x, 0 <= x <= UINT_MAX ->
            next_level x = if x =? UINT_MAX then x else x + 1).
  { intros x Hx. unfold next_level, is_infty_level, infty_level.
    destruct (Z.eqb_spec x UINT_MAX); [reflexivity|].
    apply wrap_small. lia. }
  assert (Hprev : forall x, 0 <= x <= UINT_MAX ->
            prev_level x
            = if x =? UINT_MAX then UINT_MAX else if x =? 0 then 0 else x - 1).
  { intros x Hx. unfold prev_level, is_infty_level, infty_level.
    destruct (Z.eqb_spec x UINT_MAX); [reflexivity|].
    destruct (Z.eqb_spec x 0); [reflexivity|].
    apply wrap_small. lia. }
  split; [|split].
  - intros l' H' Hle. rewrite !Hnext, !Hprev by assumption.
    rewrite UINT_MAX_eq in *.
    destruct (Z.eqb_spec l 4294967295), (Z.eqb_spec l' 4294967295),
      (Z.eqb_spec l 0), (Z.eqb_spec l' 0); lia.
  - rewrite Hnext by assumption.
    destruct (Z.eqb_spec l UINT_MAX) as [->|Hne].
    + rewrite Hprev by assumption. rewrite Z.eqb_refl. lia.
    + rewrite Hprev by lia. rewrite UINT_MAX_eq in *.
      destruct (Z.eqb_spec (l + 1) 4294967295), (Z.eqb_spec (l + 1) 0); lia.
  - rewrite Hprev by assumption.
    destruct (Z.eqb_spec l UINT_MAX) as [->|Hne].
    + rewrite Hnext by assumption. rewrite Z.eqb_refl.
      rewrite UINT_MAX_eq. lia.
    + destruct (Z.eqb_spec l 0) as [->|Hnz].
      * rewrite Hnext by (rewrite UINT_MAX_eq; lia). simpl. lia.
      * rewrite Hnext by lia. rewrite UINT_MAX_eq in *.
        destruct (Z.eqb_spec (l - 1) 4294967295); lia.
Qed.

Lemma level_round_trip_witness :
  prev_level (next_level 7) = 7 /\ next_level (prev_level 7) = 7.
Proof.
  assert (is_level 7) as H7
    by (unfold is_level, in_range; rewrite UINT_MAX_eq; lia).
  destruct (level_round_trip 7 H7) as (_ & _ & _ & _ & Hpn & Hnp).
  split; [apply Hpn|apply Hnp]; rewrite ?UINT_MAX_eq; lia.
Defined.


End SpacerUtilFacts.

Module SpacerContextFacts.
Import Unsigned UnsignedFacts SpacerUtil SpacerUtilFacts SpacerContext.

Section FrameFacts.

Context {expr : Type}.
Implicit Types (f : frames expr) (l : lemma expr) (out : list expr).

Lemma get_frame_geq_lemmas_loop (ls : list (lemma expr)) lvl out :
  fold_left
    (fun out l => if level l >=? lvl then out ++ [get_expr l] else out) ls out
  = out ++ map get_expr (filter (fun l => lvl <= level l) ls).
Proof.
  revert out. induction ls as [|l ls IH]; intros out; simpl.
  - now rewrite app_nil_r.
  - rewrite IH. rewrite filter_cons.
    destruct (decide (lvl <= level l)) as [Hle|Hnle].
    + replace (level l >=? lvl) with true by (symmetry; apply Z.geb_le; lia).
      simpl. now rewrite <- app_assoc.
    + replace (level l >=? lvl) with false
        by (symmetry; rewrite Z.geb_leb; apply Z.leb_gt; lia).
      reflexivity.
Qed.

Lemma get_frame_lemmas_loop (ls : list (lemma expr)) lvl out :
  fold_left
    (fun out l => if level l =? lvl then out ++ [get_expr l] else out) ls out
  = out ++ map get_expr (filter (fun l => level l = lvl) ls).
Proof.
  revert out. induction ls as [|l ls IH]; intros out; simpl.
  - now rewrite app_nil_r.
  - rewrite IH. rewrite filter_cons.
    destruct (decide (level l = lvl)) as [Heq|Hne].
    + rewrite (proj2 (Z.eqb_eq _ _) Heq). simpl. now rewrite <- app_assoc.
    + rewrite (proj2 (Z.eqb_neq _ _) Hne). reflexivity.
Qed.

Lemma get_frame_lemmas_spec f lvl out :
  get_frame_lemmas f lvl out
  = out ++ map get_expr (filter (fun l => level l = lvl) (m_lemmas f)).
Proof. apply get_frame_lemmas_loop. Qed.

(** C4. The query for the frame at level [lvl] appends to [out] the
    formulas of exactly the stored lemmas whose recorded level is at least
    [lvl], in the order in which they are stored; started on an empty
    vector, a formula is returned iff it is the formula of a stored lemma of
    level [>= lvl]. *)
Theorem get_frame_geq_lemmas_spec f lvl :
  (forall out,
     get_frame_geq_lemmas f lvl out
     = out ++ map get_expr (filter (fun l => lvl <= level l) (m_lemmas f))) /\
  (forall e,
     In e (get_frame_geq_lemmas f lvl [])
     <-> exists l, In l (m_lemmas f) /\ lvl <= level l /\ get_expr l = e).
Proof.
  split.
  - intros out. apply get_frame_geq_lemmas_loop.
  - intros e. unfold get_frame_geq_lemmas.
    rewrite get_frame_geq_lemmas_loop. simpl.
    rewrite in_map_iff. split.
    + intros (l & <- & Hin). exists l.
      apply list_elem_of_In, list_elem_of_filter in Hin.
      destruct Hin as [Hle Hin]. apply list_elem_of_In in Hin. auto.
    + intros (l & Hin & Hle & <-). exists l. split; [reflexivity|].
      apply list_elem_of_In, list_elem_of_filter. split; [assumption|].
      now apply list_elem_of_In.
Qed.

(** C10. The infinity level is the largest [unsigned] value; the successor
    of the largest finite level [UINT_MAX - 1] is the infinity level; a
    lemma is inductive exactly when its recorded level is the infinity
    level. *)
Theorem infty_level_representation :
  infty_level = UINT_MAX /\
  next_level (UINT_MAX - 1) = infty_level /\
  (forall l : lemma expr, is_inductive l = true <-> level l = infty_level).
Proof.
  split; [reflexivity|]. split; [reflexivity|].
  intros l. unfold is_inductive, level. apply is_infty_level_true.
Qed.

End FrameFacts.

Section FrameNesting.

Context {expr : Type}.
Implicit Types (f : frames expr) (l : lemma expr).

Lemma filter_map_sublist (P Q : lemma expr -> Prop)
  `{!forall l, Decision (P l)} `{!forall l, Decision (Q l)}
  (ls : list (lemma expr)) :
  (forall l, P l -> Q l) ->
  sublist (map get_expr (filter P ls)) (map get_expr (filter Q ls)).
Proof.
  intros HPQ. induction ls as [|l ls IH]; [constructor|].
  rewrite !filter_cons.
  destruct (decide (P l)) as [HP|HnP].
  - destruct (decide (Q l)) as [_|HnQ]; [|now destruct HnQ; apply HPQ].
    simpl. now constructor.
  - destruct (decide (Q l)); [simpl; now constructor|exact IH].
Qed.

(** X2. The frames are nested: the lemmas that the query at a level
    returns are, in the same order, among those that it returns at any
    lower level, and the lemmas that sit exactly at a level are among those
    of the frame at that level. *)
Theorem frames_nested f lvl lvl' :
  lvl <= lvl' ->
  sublist (get_frame_geq_lemmas f lvl' []) (get_frame_geq_lemmas f lvl []) /\
  sublist (get_frame_lemmas f lvl' []) (get_frame_geq_lemmas f lvl []).
Proof.
  intros Hle. unfold get_frame_geq_lemmas, get_frame_lemmas.
  rewrite !get_frame_geq_lemmas_loop, get_frame_lemmas_loop. simpl.
  split; apply filter_map_sublist; intros l; lia.
Qed.

(** X3. When the level of every stored lemma is an [unsigned] value, the
    frame at level 0 holds every stored lemma, and the frame at the
    infinity level holds exactly the inductive lemmas, which are the lemmas
    that sit exactly at the infinity level. *)
Theorem frame_boundaries f :
  Forall (fun l => is_level (level l)) (m_lemmas f) ->
  get_frame_geq_lemmas f 0 [] = map get_expr (m_lemmas f) /\
  get_frame_geq_lemmas f infty_level [] = get_frame_lemmas f infty_level [] /\
  get_frame_geq_lemmas f infty_level []
  = map get_expr (filter (fun l => is_inductive l = true) (m_lemmas f)).
Proof.
  intros Hlv. unfold get_frame_geq_lemmas, get_frame_lemmas.
  rewrite !get_frame_geq_lemmas_loop, get_frame_lemmas_loop. simpl.
  revert Hlv. generalize (m_lemmas f). intros ls Hlv.
  induction Hlv as [|l ls Hl _ IH]; [auto|].
  destruct IH as (IH0 & IH1 & IH2).
  unfold is_level, in_range in Hl. rewrite !filter_cons.
  assert (is_inductive l = true <-> level l = infty_level) as Hind
    by (unfold is_inductive, level; apply is_infty_level_true).
  unfold infty_level in *.
  split; [|split].
  - destruct (decide (0 <= level l)); [|lia]. simpl. now f_equal.
  - destruct (decide (UINT_MAX <= level l)), (decide (level l = UINT_MAX));
      try lia; [simpl; now f_equal|assumption].
  - destruct (decide (UINT_MAX <= level l)) as [Hge|Hlt],
      (decide (is_inductive l = true)) as [Hi|Hni].
    + simpl. now f_equal.
    + destruct Hni. apply Hind. lia.
    + apply Hind in Hi. lia.
    + assumption.
Qed.

End FrameNesting.

Lemma frames_nested_witness :
  sublist (get_frame_geq_lemmas (mk_frames [mk_lemma tt [] 2 2 false] 3 true) 2 [])
          (get_frame_geq_lemmas (mk_frames [mk_lemma tt [] 2 2 false] 3 true) 1 []).
Proof.
  apply (frames_nested (mk_frames [mk_lemma tt [] 2 2 false] 3 true) 1 2). lia.
Defined.

Lemma frame_boundaries_witness :
  get_frame_geq_lemmas (mk_frames [mk_lemma tt [] 2 2 false] 3 true) 0 [] = [tt].
Proof.
  apply (frame_boundaries (mk_frames [mk_lemma tt [] 2 2 false] 3 true)).
  repeat constructor; simpl; rewrite ?UINT_MAX_eq; lia.
Defined.

Section LemmaLtFacts.

Context {expr : Type}.
Variable ast_lt_proc : expr -> expr -> bool.
Implicit Types (a b c : lemma expr).

Local Abbreviation lemma_lt := (lemma_lt_proc ast_lt_proc).

Lemma lemma_lt_proc_true a b :
  lemma_lt a b = true
  <-> level a < level b
      \/ (level a = level b /\ ast_lt_proc (get_expr a) (get_expr b) = true).
Proof.
  unfold lemma_lt_proc.
  rewrite orb_true_iff, andb_true_iff, Z.ltb_lt, Z.eqb_eq. reflexivity.
Qed.

(** X4. [lemma_lt_proc] orders lemmas by level first: it never puts a
    lemma before one of a lower level.  When the order on expressions is a
    strict weak order, so is [lemma_lt_proc], as sorting with it requires:
    it is irreflexive and transitive, and a lemma that comes before another
    comes before any third one or has the third one before the other. *)
Theorem lemma_lt_proc_strict_weak_order :
  (forall e, ast_lt_proc e e = false) ->
  (forall x y z, ast_lt_proc x y = true -> ast_lt_proc y z = true ->
     ast_lt_proc x z = true) ->
  (forall x y z, ast_lt_proc x z = true ->
     ast_lt_proc x y = true \/ ast_lt_proc y z = true) ->
  (forall a b, lemma_lt a b = true -> level a <= level b) /\
  (forall a, lemma_lt a a = false) /\
  (forall a b c, lemma_lt a b = true -> lemma_lt b c = true ->
     lemma_lt a c = true) /\
  (forall a b c, lemma_lt a c = true ->
     lemma_lt a b = true \/ lemma_lt b c = true).
Proof.
  intros Hirr Htrans Hneg. split; [|split; [|split]].
  - intros a b H. apply lemma_lt_proc_true in H. lia.
  - intros a. apply not_true_iff_false. rewrite lemma_lt_proc_true.
    intros [H|[_ H]]; [lia|]. now rewrite Hirr in H.
  - intros a b c. rewrite !lemma_lt_proc_true.
    intros [H1|[H1 E1]] [H2|[H2 E2]]; try (left; lia).
    right. split; [lia|]. eapply Htrans; eauto.
  - intros a b c. rewrite !lemma_lt_proc_true.
    intros [H|[H E]].
    + destruct (Z.lt_trichotomy (level a) (level b)) as [?|[?|?]];
        [left; left; lia| |right; left; lia].
      right. left. lia.
    + destruct (Z.lt_trichotomy (level a) (level b)) as [?|[?|?]];
        [left; left; lia| |right; left; lia].
      destruct (Hneg _ (get_expr b) _ E) as [E1|E2];
        [left; right; split; [lia|exact E1]|right; right; split; [lia|exact E2]].
Qed.

End LemmaLtFacts.

Lemma lemma_lt_proc_strict_weak_order_witness :
  lemma_lt_proc Z.ltb (mk_lemma 3 [] 1 1 false) (mk_lemma 1 [] 2 2 false) = true.
Proof.
  assert (Hirr : forall e, (e <? e) = false) by (intros; apply Z.ltb_irrefl).
  assert (Htr : forall x y z, (x <? y) = true -> (y <? z) = true -> (x <? z) = true)
    by (intros x y z; rewrite !Z.ltb_lt; lia).
  assert (Hneg : forall x y z, (x <? z) = true -> (x <? y) = true \/ (y <? z) = true)
    by (intros x y z; rewrite !Z.ltb_lt; lia).
  destruct (lemma_lt_proc_strict_weak_order Z.ltb Hirr Htr Hneg)
    as (_ & _ & Htrans & _).
  apply (Htrans _ (mk_lemma 4 [] 1 1 false)); reflexivity.
Defined.

Section QueueFacts.

Context {expr : Type}.
Variable pob_lt : pob expr -> pob expr -> bool.
Implicit Types (q : pob_queue expr) (n r : pob expr).

Local Abbreviation enqueued_by_inc_level := (enqueued_by_inc_level pob_lt).

Lemma inc_level_max_level q :
  m_max_level (inc_level pob_lt q) = wrap (m_max_level q + 1).
Proof.
  unfold inc_level.
  destruct (m_root q), (pq_empty (m_obligations q)); reflexivity.
Qed.

Lemma inc_level_min_depth q :
  m_min_depth (inc_level pob_lt q) = wrap (m_min_depth q + 1).
Proof.
  unfold inc_level.
  destruct (m_root q), (pq_empty (m_obligations q)); reflexivity.
Qed.

Lemma inc_level_root q : m_root (inc_level pob_lt q) = m_root q.
Proof.
  unfold inc_level.
  destruct (m_root q), (pq_empty (m_obligations q)); reflexivity.
Qed.

Lemma inc_level_obligations q :
  m_obligations (inc_level pob_lt q)
  = match m_root q, m_obligations q with
    | Some r, [] => [r]
    | _, obs => obs
    end.
Proof.
  unfold inc_level. destruct (m_root q) as [r|]; [|now destruct (m_obligations q)].
  destruct (m_obligations q); reflexivity.
Qed.

(** C5 (as amended). [inc_level] increments the level ceiling as an
    [unsigned] (by exactly one below [UINT_MAX]); it leaves the root
    reference alone; it enqueues the root exactly when the queue is empty and
    a root is set, whether that root is open or closed; it adds nothing to a
    queue that is not empty. *)
Theorem inc_level_spec q :
  m_max_level (inc_level pob_lt q) = wrap (m_max_level q + 1) /\
  (0 <= m_max_level q < UINT_MAX ->
   m_max_level (inc_level pob_lt q) = m_max_level q + 1) /\
  m_root (inc_level pob_lt q) = m_root q /\
  m_obligations (inc_level pob_lt q)
  = match m_root q, m_obligations q with
    | Some r, [] => [r]
    | _, obs => obs
    end /\
  (enqueued_by_inc_level q
   <-> m_obligations q = [] /\ exists r, m_root q = Some r) /\
  (m_obligations q <> [] ->
   m_obligations (inc_level pob_lt q) = m_obligations q).
Proof.
  split; [apply inc_level_max_level|].
  split.
  { intros H. rewrite inc_level_max_level. apply wrap_small. lia. }
  split; [apply inc_level_root|].
  split; [apply inc_level_obligations|].
  split.
  - unfold enqueued_by_inc_level. rewrite inc_level_obligations.
    destruct (m_root q) as [r|], (m_obligations q) as [|n obs]; simpl.
    + split; [eauto|reflexivity].
    + split; [lia|intros [? _]; discriminate].
    + split; [lia|intros [_ [? ?]]; discriminate].
    + split; [lia|intros [? _]; discriminate].
  - intros Hne. rewrite inc_level_obligations.
    destruct (m_root q), (m_obligations q); congruence.
Qed.

(** X5. [inc_level] raises the depth floor together with the level
    ceiling, so that their difference as [unsigned] values stays the same;
    and when its assertion holds, that is, the queue is not empty or a root
    is set, the queue is not empty afterwards: a drained queue has the root
    on top. *)
Theorem inc_level_lockstep q :
  m_obligations q <> [] \/ m_root q <> None ->
  m_min_depth (inc_level pob_lt q) = wrap (m_min_depth q + 1) /\
  wrap (m_max_level (inc_level pob_lt q) - m_min_depth (inc_level pob_lt q))
  = wrap (m_max_level q - m_min_depth q) /\
  m_obligations (inc_level pob_lt q) <> [] /\
  (m_obligations q = [] ->
   pq_top (m_obligations (inc_level pob_lt q)) = m_root q).
Proof.
  intros Hassert. rewrite inc_level_max_level, inc_level_min_depth.
  rewrite inc_level_obligations.
  split; [reflexivity|]. split.
  { unfold wrap. rewrite <- Zminus_mod. f_equal. lia. }
  destruct (m_root q) as [r|], (m_obligations q) as [|n obs];
    split; try discriminate; try reflexivity; try (intros; discriminate).
  destruct Hassert as [H|H]; now destruct H.
Qed.


End QueueFacts.

Lemma inc_level_spec_witness :
  m_max_level (inc_level (fun _ _ => false) drained_closed_queue) = 3 + 1.
Proof.
  apply (inc_level_spec (fun _ _ => false) drained_closed_queue).
  simpl. rewrite UINT_MAX_eq. lia.
Defined.

(** C5 as stated fails: on a drained queue whose root is closed,
    [inc_level] still enqueues the root, so "enqueued exactly when the queue
    has drained and the root is still open" does not hold there. *)
Lemma inc_level_enqueues_closed_root :
  ~ (enqueued_by_inc_level (fun _ _ => false) drained_closed_queue
     <-> m_obligations drained_closed_queue = [] /\
         root_open drained_closed_queue).
Proof.
  intros [Hto _].
  destruct Hto as [_ (r & Hr & Hopen)]; [reflexivity|].
  injection Hr as <-. discriminate Hopen.
Qed.

Lemma inc_level_lockstep_witness :
  pq_top (m_obligations (inc_level (fun _ _ => false) drained_closed_queue))
  = Some closed_root.
Proof.
  apply (inc_level_lockstep (fun _ _ => false) drained_closed_queue).
  - right. discriminate.
  - reflexivity.
Defined.


End SpacerContextFacts.

Module SmtContextManagerFacts.
Import Unsigned UnsignedFacts SmtContextManager.

Lemma state_after_succ n c :
  0 <= c -> state_after n (c + 1) = snd (mk_fresh (state_after n c)).
Proof.
  intros Hc. unfold state_after.
  replace (Z.to_N (c + 1)) with (N.succ (Z.to_N c)) by lia.
  apply N.iter_succ.
Qed.

Lemma wrap_wrap_succ z : wrap (wrap z + 1) = wrap (z + 1).
Proof. unfold wrap. apply Zplus_mod_idemp_l. Qed.

Lemma wrap_wrap_succ_pred z : wrap (wrap (z + 1) - 1) = wrap z.
Proof.
  unfold wrap. rewrite Zminus_mod_idemp_l. f_equal. lia.
Qed.

(** Closed form of the state: the counter is the number of calls modulo
    [2^32] and the pool holds the first [min c n] factories. *)
Lemma state_after_closed n c :
  0 < n <= UINT_MAX -> 0 <= c ->
  state_after n c
  = mk_manager n (wrap c) (mk_factory <$> seq 0 (Z.to_nat (Z.min c n))).
Proof.
  intros Hn Hc. revert c Hc.
  apply (natlike_ind (fun c => state_after n c = _)).
  - replace (Z.min 0 n) with 0 by lia. reflexivity.
  - intros c Hc IH. unfold Z.succ. rewrite state_after_succ by assumption.
    rewrite IH. unfold mk_fresh. cbn [m_max_num_contexts m_num_contexts m_solvers].
    rewrite length_fmap, length_seq.
    replace (n =? 0) with false by (symmetry; apply Z.eqb_neq; lia).
    cbn [orb]. rewrite Z2Nat.id by lia.
    destruct (Z.ltb_spec (Z.min c n) n) as [Hlt|Hge]; cbn [snd].
    + rewrite wrap_wrap_succ. f_equal.
      replace (Z.to_nat (Z.min (c + 1) n)) with (S (Z.to_nat (Z.min c n))) by lia.
      rewrite seq_S, fmap_app. reflexivity.
    + rewrite wrap_wrap_succ. f_equal.
      replace (Z.min (c + 1) n) with (Z.min c n) by lia. reflexivity.
Qed.

Lemma pool_lookup (n i : nat) :
  (i < n)%nat -> (mk_factory <$> seq 0 n) !! i = Some (mk_factory i).
Proof.
  intros Hi. rewrite list_lookup_fmap, lookup_seq_lt by assumption. reflexivity.
Qed.

Lemma call_closed n c :
  0 < n <= UINT_MAX -> 1 <= c ->
  call n c
  = if c <=? n then Some (mk_solver (mk_factory (Z.to_nat (c - 1))))
    else Some (mk_solver (mk_factory (Z.to_nat (wrap (c - 1) mod n)))).
Proof.
  intros Hn Hc. unfold call. rewrite state_after_closed by lia.
  unfold mk_fresh. cbn [m_max_num_contexts m_num_contexts m_solvers].
  rewrite length_fmap, length_seq.
  replace (n =? 0) with false by (symmetry; apply Z.eqb_neq; lia).
  cbn [orb]. rewrite Z2Nat.id by lia.
  destruct (Z.leb_spec c n) as [Hle|Hgt].
  - replace (Z.min (c - 1) n <? n) with true by (symmetry; apply Z.ltb_lt; lia).
    cbn [fst]. do 3 f_equal. lia.
  - replace (Z.min (c - 1) n <? n) with false by (symmetry; apply Z.ltb_ge; lia).
    cbn [fst]. rewrite wrap_wrap_succ_pred, wrap_wrap.
    pose proof (Z.mod_pos_bound (wrap (c - 1)) n ltac:(lia)) as Hb.
    rewrite pool_lookup by lia. reflexivity.
Qed.

(** C7 (as amended). With [max_num_contexts = n > 0] the pool never holds
    more than [n] factories; each of the first [n] calls allocates a fresh
    factory; every later call allocates nothing and reuses the factory at
    index [((c - 1) mod 2^32) mod n], which is [(c - 1) mod n] as long as the
    call counter has not wrapped around ([c <= 2^32]). *)
Theorem mk_fresh_pool (n c : Z) :
  0 < n <= UINT_MAX -> 1 <= c ->
  Z.of_nat (length (m_solvers (state_after n c))) <= n /\
  (c <= n ->
   let f := mk_factory (Z.to_nat (c - 1)) in
   call n c = Some (mk_solver f) /\
   ~ In f (m_solvers (state_after n (c - 1))) /\
   m_solvers (state_after n c) = m_solvers (state_after n (c - 1)) ++ [f]) /\
  (n < c ->
   m_solvers (state_after n c) = m_solvers (state_after n (c - 1)) /\
   call n c
   = mk_solver <$>
       m_solvers (state_after n (c - 1)) !! Z.to_nat (wrap (c - 1) mod n)) /\
  (n < c <= modulus -> round_robin_reuse n c).
Proof.
  intros Hn Hc.
  assert (Hreuse : n < c ->
    m_solvers (state_after n c) = m_solvers (state_after n (c - 1)) /\
    call n c
    = mk_solver <$>
        m_solvers (state_after n (c - 1)) !! Z.to_nat (wrap (c - 1) mod n)).
  { intros Hlt. rewrite call_closed by lia.
    rewrite !state_after_closed by lia. cbn [m_solvers].
    replace (Z.min c n) with n by lia. replace (Z.min (c - 1) n) with n by lia.
    split; [reflexivity|].
    replace (c <=? n) with false by (symmetry; apply Z.leb_gt; lia).
    pose proof (Z.mod_pos_bound (wrap (c - 1)) n ltac:(lia)) as Hb.
    rewrite pool_lookup by lia. reflexivity. }
  split; [|split; [|split]].
  - rewrite state_after_closed by lia. cbn [m_solvers].
    rewrite length_fmap, length_seq. lia.
  - intros Hle f. rewrite call_closed by lia.
    replace (c <=? n) with true by (symmetry; apply Z.leb_le; lia).
    rewrite !state_after_closed by lia. cbn [m_solvers].
    split; [reflexivity|]. split.
    + rewrite <- list_elem_of_In, list_elem_of_fmap.
      intros (i & Hi & Hin). apply elem_of_seq in Hin.
      unfold f in Hi. injection Hi as Hi. lia.
    + replace (Z.to_nat (Z.min c n)) with (S (Z.to_nat (Z.min (c - 1) n))) by lia.
      rewrite seq_S, fmap_app. cbn. unfold f. do 3 f_equal. lia.
  - exact Hreuse.
  - intros [Hlt Hle]. unfold round_robin_reuse.
    destruct (Hreuse Hlt) as [_ ->].
    rewrite (wrap_small (c - 1)); [reflexivity|].
    rewrite modulus_eq in Hle. rewrite UINT_MAX_eq. lia.
Qed.

Lemma mk_fresh_pool_witness :
  Z.of_nat (length (m_solvers (state_after 3 5))) <= 3 /\
  round_robin_reuse 3 5.
Proof.
  assert (H3 : 0 < 3 <= UINT_MAX) by (rewrite UINT_MAX_eq; lia).
  assert (H5 : 1 <= 5) by lia.
  destruct (mk_fresh_pool 3 5 H3 H5) as (Hsize & _ & _ & Hrr).
  split; [exact Hsize|].
  apply Hrr. rewrite modulus_eq. lia.
Defined.

(** C7 as stated fails once the [unsigned] call counter has wrapped around:
    with a pool of three factories, call number [2^32 + 1] uses the factory
    at index 0, not the one at index [(2^32 + 1 - 1) mod 3 = 1]. *)
Lemma round_robin_breaks_on_wrap : ~ round_robin_reuse 3 (modulus + 1).
Proof.
  assert (H3 : 0 < 3 <= UINT_MAX) by (rewrite UINT_MAX_eq; lia).
  unfold round_robin_reuse.
  rewrite call_closed by (rewrite ?modulus_eq; lia).
  rewrite state_after_closed by (rewrite ?modulus_eq; lia).
  rewrite modulus_eq. vm_compute. discriminate.
Qed.

(** With [max_num_contexts = 0] the pool holds one factory per call. *)
Lemma state_after_unbounded c :
  0 <= c ->
  state_after 0 c
  = mk_manager 0 (wrap c) (mk_factory <$> seq 0 (Z.to_nat c)).
Proof.
  revert c. apply (natlike_ind (fun c => state_after 0 c = _)); [reflexivity|].
  intros c Hc IH. unfold Z.succ. rewrite state_after_succ by assumption.
  rewrite IH. unfold mk_fresh. cbn [m_max_num_contexts m_num_contexts m_solvers].
  rewrite length_fmap, length_seq. cbn [Z.eqb orb snd].
  rewrite wrap_wrap_succ. f_equal.
  replace (Z.to_nat (c + 1)) with (S (Z.to_nat c)) by lia.
  now rewrite seq_S, fmap_app.
Qed.

Lemma call_unbounded c :
  1 <= c -> call 0 c = Some (mk_solver (mk_factory (Z.to_nat (c - 1)))).
Proof.
  intros Hc. unfold call. rewrite state_after_unbounded by lia.
  unfold mk_fresh. cbn [m_max_num_contexts m_num_contexts m_solvers].
  now rewrite length_fmap, length_seq.
Qed.

(** X6. A manager constructed with [max_num_contexts = 0] has no bound on
    its pool: every call of [mk_fresh] allocates a factory that was not in
    the pool and returns its solver, so after [c] calls the pool holds [c]
    factories. *)
Theorem mk_fresh_unbounded (c : Z) :
  1 <= c ->
  let f := mk_factory (Z.to_nat (c - 1)) in
  call 0 c = Some (mk_solver f) /\
  ~ In f (m_solvers (state_after 0 (c - 1))) /\
  m_solvers (state_after 0 c) = m_solvers (state_after 0 (c - 1)) ++ [f] /\
  Z.of_nat (length (m_solvers (state_after 0 c))) = c.
Proof.
  intros Hc f. unfold call. rewrite !state_after_unbounded by lia.
  unfold mk_fresh. cbn [m_max_num_contexts m_num_contexts m_solvers].
  rewrite !length_fmap, !length_seq. cbn [Z.eqb orb fst].
  split; [reflexivity|]. split; [|split].
  - rewrite <- list_elem_of_In, list_elem_of_fmap.
    intros (i & Hi & Hin). apply elem_of_seq in Hin.
    unfold f in Hi. injection Hi as Hi. lia.
  - replace (Z.to_nat c) with (S (Z.to_nat (c - 1))) by lia.
    now rewrite seq_S, fmap_app.
  - lia.
Qed.

Lemma mk_fresh_unbounded_witness :
  call 0 5 = Some (mk_solver (mk_factory 4)).
Proof. apply (mk_fresh_unbounded 5). lia. Defined.

(** X7. Whatever the bound of the pool and however many calls were made
    before, [mk_fresh] indexes [m_solvers] within its bounds: it returns the
    solver of a factory that is in the pool after the call. *)
Theorem mk_fresh_in_bounds (n c : Z) :
  0 <= n <= UINT_MAX -> 1 <= c ->
  exists f, call n c = Some (mk_solver f) /\ In f (m_solvers (state_after n c)).
Proof.
  intros Hn Hc. destruct (Z.eq_dec n 0) as [->|Hnz].
  - eexists. split; [now apply call_unbounded|].
    rewrite state_after_unbounded by lia. cbn [m_solvers].
    rewrite <- list_elem_of_In, list_elem_of_fmap. eexists.
    split; [reflexivity|]. apply elem_of_seq. lia.
  - rewrite call_closed by lia. rewrite state_after_closed by lia.
    cbn [m_solvers].
    pose proof (Z.mod_pos_bound (wrap (c - 1)) n ltac:(lia)) as Hb.
    destruct (Z.leb_spec c n) as [Hle|Hgt]; eexists; (split; [reflexivity|]);
      rewrite <- list_elem_of_In, list_elem_of_fmap; eexists;
      (split; [reflexivity|]); apply elem_of_seq; lia.
Qed.

Lemma mk_fresh_in_bounds_witness :
  exists f, call 3 (modulus + 1) = Some (mk_solver f) /\
            In f (m_solvers (state_after 3 (modulus + 1))).
Proof.
  apply (mk_fresh_in_bounds 3 (modulus + 1)); rewrite ?UINT_MAX_eq, ?modulus_eq; lia.
Defined.


End SmtContextManagerFacts.

Module TermGraphFacts.
Import Unsigned UnsignedFacts TermGraph.
Local Open Scope nat_scope.

(** *** Dereferencing after an update *)

Section Frame.

Implicit Types (g : term_graph) (p q r : ptr) (f : term -> term).

Lemma get_update_term p f g q :
  get (update_term p f g) q
  = if decide (p = q /\ p < num_terms g) then f (get g q) else get g q.
Proof.
  unfold get, update_term, num_terms; simpl.
  rewrite list_lookup_total_alter.
  repeat case_decide; try reflexivity; try tauto.
  destruct H as [-> _]. reflexivity.
Qed.

Lemma get_update_term_eq p f g :
  p < num_terms g -> get (update_term p f g) p = f (get g p).
Proof.
  intros Hp. rewrite get_update_term.
  destruct (decide _) as [_|Hn]; [reflexivity|]. exfalso. apply Hn. auto.
Qed.

Lemma get_update_term_ne p f g q :
  p <> q -> get (update_term p f g) q = get g q.
Proof.
  intros Hp. rewrite get_update_term.
  destruct (decide _) as [[? _]|_]; [contradiction|reflexivity].
Qed.

Lemma num_terms_update_term p f g : num_terms (update_term p f g) = num_terms g.
Proof. unfold num_terms, update_term; simpl. apply length_alter. Qed.

(** An update that keeps a field of the term keeps it everywhere. *)
Lemma get_update_term_field {A} (proj : term -> A) p f g q :
  (forall t, proj (f t) = proj t) ->
  proj (get (update_term p f g) q) = proj (get g q).
Proof.
  intros Hf. rewrite get_update_term. destruct (decide _); [apply Hf|reflexivity].
Qed.

Lemma get_root_set_root p r g q :
  get_root (set_root p r g) q
  = if decide (p = q /\ p < num_terms g) then r else get_root g q.
Proof.
  unfold get_root, set_root. rewrite get_update_term.
  destruct (decide _); reflexivity.
Qed.

Lemma get_next_set_next p r g q :
  get_next (set_next p r g) q
  = if decide (p = q /\ p < num_terms g) then r else get_next g q.
Proof.
  unfold get_next, set_next. rewrite get_update_term.
  destruct (decide _); reflexivity.
Qed.

Lemma get_class_size_set_class_size p sz g q :
  get_class_size (set_class_size p sz g) q
  = if decide (p = q /\ p < num_terms g) then sz else get_class_size g q.
Proof.
  unfold get_class_size, set_class_size. rewrite get_update_term.
  destruct (decide _); reflexivity.
Qed.

Lemma parents_add_parent a p g q :
  parents (add_parent a p g) q
  = if decide (a = q /\ a < num_terms g) then parents g q ++ [p] else parents g q.
Proof.
  unfold parents, add_parent. rewrite get_update_term.
  destruct (decide _); reflexivity.
Qed.

End Frame.

Lemma uf_eq_refl g : uf_eq g g.
Proof. split; [reflexivity|]. intros p. repeat split. Qed.

Lemma uf_eq_trans g1 g2 g3 : uf_eq g1 g2 -> uf_eq g2 g3 -> uf_eq g1 g3.
Proof.
  intros [Hn1 H1] [Hn2 H2]. split; [congruence|].
  intros p. destruct (H1 p) as (? & ? & ?), (H2 p) as (? & ? & ?).
  repeat split; congruence.
Qed.

Lemma aux_eq_refl g : aux_eq g g.
Proof. repeat split. Qed.

Lemma aux_eq_trans g1 g2 g3 : aux_eq g1 g2 -> aux_eq g2 g3 -> aux_eq g1 g3.
Proof.
  intros (Hp1 & ? & ? & ?) (Hp2 & ? & ? & ?).
  split; [intros p; rewrite Hp2; apply Hp1|].
  repeat split; congruence.
Qed.

Lemma uf_eq_update_term p f g :
  (forall t, m_root (f t) = m_root t) ->
  (forall t, m_next (f t) = m_next t) ->
  (forall t, m_class_size (f t) = m_class_size t) ->
  uf_eq g (update_term p f g).
Proof.
  intros Hr Hn Hs. split; [apply num_terms_update_term|].
  intros q. unfold get_root, get_next, get_class_size.
  repeat split; apply get_update_term_field; assumption.
Qed.

Lemma aux_eq_update_term p f g :
  (forall t, m_parents (f t) = m_parents t) ->
  aux_eq g (update_term p f g).
Proof.
  intros Hp. repeat split. intros q. unfold parents.
  apply get_update_term_field. assumption.
Qed.

Lemma uf_eq_set_mark p v g : uf_eq g (set_mark p v g).
Proof. apply uf_eq_update_term; reflexivity. Qed.

Lemma uf_eq_add_parent a p g : uf_eq g (add_parent a p g).
Proof. apply uf_eq_update_term; reflexivity. Qed.

Lemma uf_eq_with_cg_table tb g : uf_eq g (with_cg_table tb g).
Proof. split; [reflexivity|]. intros ?. repeat split. Qed.

Lemma uf_eq_with_merge q g : uf_eq g (with_merge q g).
Proof. split; [reflexivity|]. intros ?. repeat split. Qed.

Lemma uf_eq_reset_caches g : uf_eq g (reset_caches g).
Proof. split; [reflexivity|]. intros ?. repeat split. Qed.

Lemma uf_eq_cg_erase p g : uf_eq g (cg_erase p g).
Proof. split; [reflexivity|]. intros ?. repeat split. Qed.

Lemma uf_eq_cg_insert p g : uf_eq g (cg_insert_if_not_there p g).2.
Proof.
  unfold cg_insert_if_not_there.
  destruct (find _ _); [apply uf_eq_refl|apply uf_eq_with_cg_table].
Qed.

Lemma uf_eq_fold {A} (step : term_graph -> A -> term_graph) (l : list A) g :
  (forall g x, uf_eq g (step g x)) -> uf_eq g (fold_left step l g).
Proof.
  intros Hstep. revert g. induction l as [|x l IH]; intros g; simpl.
  - apply uf_eq_refl.
  - eapply uf_eq_trans; [apply Hstep|apply IH].
Qed.

Lemma uf_eq_erase_parents b g : uf_eq g (erase_parents b g).
Proof.
  unfold erase_parents. apply uf_eq_fold. intros g' p.
  destruct (is_marked g' p); [apply uf_eq_refl|].
  eapply uf_eq_trans; [apply uf_eq_set_mark|apply uf_eq_cg_erase].
Qed.

Lemma uf_eq_reinsert_parent a g p : uf_eq g (reinsert_parent a g p).
Proof.
  unfold reinsert_parent. destruct (is_marked g p); [|apply uf_eq_refl].
  pose proof (uf_eq_cg_insert p g) as H.
  destruct (cg_insert_if_not_there p g) as [p_old g1]. simpl in H.
  assert (uf_eq g (add_parent a p (set_mark p false g1))) as H'.
  { eapply uf_eq_trans; [exact H|].
    eapply uf_eq_trans; [apply uf_eq_set_mark|apply uf_eq_add_parent]. }
  destruct (_ =? _)%Z; [exact H'|].
  eapply uf_eq_trans; [exact H'|apply uf_eq_with_merge].
Qed.

Lemma uf_eq_reinsert_parents a g : uf_eq g (reinsert_parents a g).
Proof.
  unfold reinsert_parents. apply uf_eq_fold. intros. apply uf_eq_reinsert_parent.
Qed.

Lemma path_ext g g' it l b :
  (forall z, z ∈ l -> get_next g' z = get_next g z) ->
  path g it l b -> path g' it l b.
Proof.
  revert it. induction l as [|z l IH]; intros it Hnext; simpl; [auto|].
  intros [-> Hp]. split; [reflexivity|].
  rewrite Hnext by apply list_elem_of_here.
  apply IH; [|exact Hp]. intros z' Hz'. apply Hnext. now apply list_elem_of_further.
Qed.

Lemma path_app g it l1 z l2 b :
  path g it (l1 ++ z :: l2) b <-> path g it l1 z /\ path g (get_next g z) l2 b.
Proof.
  revert it. induction l1 as [|x l1 IH]; intros it; simpl.
  - tauto.
  - rewrite IH. tauto.
Qed.

Lemma path_uf_eq g g' it l b : uf_eq g g' -> path g it l b -> path g' it l b.
Proof. intros [_ H]. apply path_ext. intros z _. apply H. Qed.

Lemma nodup_bounded_length (l : list ptr) n :
  NoDup l -> (forall x, x ∈ l -> x < n) -> length l <= n.
Proof.
  intros Hnd Hb.
  assert (l ⊆+ seq 0 n) as Hsub.
  { apply NoDup_submseteq; [assumption|].
    intros x Hx. apply elem_of_seq. specialize (Hb x Hx). lia. }
  apply submseteq_length in Hsub. now rewrite length_seq in Hsub.
Qed.

Lemma class_of_valid g r l p : class_of g r l -> p ∈ r :: l -> p < num_terms g.
Proof. intros Hc Hp. now apply (class_members _ _ _ Hc). Qed.

Lemma class_of_length g r l : class_of g r l -> S (length l) <= num_terms g.
Proof.
  intros Hc. change (S (length l)) with (length (r :: l)).
  apply nodup_bounded_length; [apply (class_nodup _ _ _ Hc)|].
  intros x. apply (class_of_valid _ _ _ _ Hc).
Qed.

(** The walk of [merge] over the ring of [b]. *)
Lemma set_root_ring_spec a b l :
  forall it g fuel,
    path g it l b -> b ∉ l -> (forall z, z ∈ l -> z < num_terms g) ->
    length l <= fuel ->
    exists g',
      set_root_ring fuel a b it g = Some g' /\
      num_terms g' = num_terms g /\
      (forall p, get_root g' p = if decide (p ∈ l) then a else get_root g p) /\
      (forall p, get_next g' p = get_next g p) /\
      (forall p, get_class_size g' p = get_class_size g p) /\
      aux_eq g g'.
Proof.
  induction l as [|z l IH]; intros it g fuel Hpath Hb Hval Hfuel.
  - simpl in Hpath. subst it. exists g.
    split; [destruct fuel; simpl; now rewrite Nat.eqb_refl|].
    split; [reflexivity|]. split.
    { intros p. destruct (decide (p ∈ [])) as [H|_]; [|reflexivity].
      now apply elem_of_nil in H. }
    repeat split.
  - destruct Hpath as [-> Hpath]. apply not_elem_of_cons in Hb as [Hbz Hb].
    destruct fuel as [|fuel]; [simpl in Hfuel; lia|].
    simpl. destruct (Nat.eqb_spec z b) as [->|_]; [contradiction|].
    assert (z < num_terms g) as Hz by (apply Hval, list_elem_of_here).
    destruct (IH (get_next g z) (set_root z a g) fuel) as (g' & Hrun & Hn & Hr & Hnx & Hsz & Haux).
    + eapply path_ext; [|exact Hpath]. intros x _.
      unfold get_next, set_root. now apply get_update_term_field.
    + exact Hb.
    + intros x Hx. unfold set_root. rewrite num_terms_update_term.
      apply Hval. now apply list_elem_of_further.
    + simpl in Hfuel. lia.
    + exists g'. split; [exact Hrun|].
      split; [rewrite Hn; apply num_terms_update_term|].
      split.
      { intros p. rewrite Hr, get_root_set_root.
        destruct (decide (p ∈ l)) as [Hin|Hnin].
        - destruct (decide (p ∈ z :: l)) as [_|Hn']; [reflexivity|].
          exfalso. apply Hn'. now apply list_elem_of_further.
        - destruct (decide (z = p /\ z < num_terms g)) as [[-> _]|Hne].
          + destruct (decide (p ∈ p :: l)) as [_|Hn']; [reflexivity|].
            exfalso. apply Hn'. apply list_elem_of_here.
          + destruct (decide (p ∈ z :: l)) as [Hin|_]; [|reflexivity].
            apply elem_of_cons in Hin as [->|Hin]; [|contradiction].
            exfalso. apply Hne. auto. }
      split.
      { intros p. rewrite Hnx. unfold get_next, set_root.
        now apply get_update_term_field. }
      split.
      { intros p. rewrite Hsz. unfold get_class_size, set_root.
        now apply get_update_term_field. }
      eapply aux_eq_trans; [|exact Haux].
      unfold set_root. now apply aux_eq_update_term.
Qed.


(** *** The effect of [merge] on the classes *)

(** Case analysis on the [decide]s of a goal; the cases that remain are
    closed by reflexivity or by a contradiction among the hypotheses. *)
Ltac solve_cases :=
  repeat case_decide; try reflexivity;
  try (exfalso; intuition (subst; auto; try congruence; lia)).

Lemma merge_eq_class_spec a b g :
  a <> b -> a < num_terms g -> b < num_terms g ->
  let g' := merge_eq_class a b g in
  num_terms g' = num_terms g /\
  (forall p, get_root g' p = get_root g p) /\
  (forall p, get_next g' p
             = if decide (p = a) then get_next g b
               else if decide (p = b) then get_next g a
               else get_next g p) /\
  (forall p, get_class_size g' p
             = if decide (p = a)
               then wrap (get_class_size g a + get_class_size g b)
               else if decide (p = b) then 0%Z
               else get_class_size g p) /\
  aux_eq g g'.
Proof.
  intros Hab Ha Hb g'. subst g'. unfold merge_eq_class.
  set (g1 := set_next a (get_next g b) g).
  set (g2 := set_next b (get_next g a) g1).
  assert (num_terms g1 = num_terms g) as Hn1 by apply num_terms_update_term.
  assert (num_terms g2 = num_terms g) as Hn2
    by (unfold g2, set_next; now rewrite num_terms_update_term).
  assert (forall p, get_class_size g2 p = get_class_size g p) as Hsz2.
  { intros p. unfold g2, g1, get_class_size, set_next.
    now rewrite !(get_update_term_field m_class_size). }
  set (g3 := set_class_size a _ g2).
  assert (num_terms g3 = num_terms g) as Hn3
    by (unfold g3, set_class_size; now rewrite num_terms_update_term).
  split; [unfold set_class_size; now rewrite num_terms_update_term|].
  split.
  { intros p. unfold g3, g2, g1, get_root, set_class_size, set_next.
    now rewrite !(get_update_term_field m_root). }
  split.
  { intros p. unfold get_next at 1. unfold g3, set_class_size.
    rewrite !(get_update_term_field m_next) by reflexivity.
    change (m_next (get g2 p)) with (get_next g2 p).
    unfold g2. rewrite get_next_set_next, Hn1. unfold g1.
    rewrite get_next_set_next.
    solve_cases. }
  split.
  { intros p. rewrite get_class_size_set_class_size, Hn3.
    unfold g3. rewrite get_class_size_set_class_size, Hn2, !Hsz2.
    solve_cases. }
  unfold g3, g2, g1, set_class_size, set_next.
  repeat (eapply aux_eq_trans; [|apply aux_eq_update_term; reflexivity]).
  apply aux_eq_refl.
Qed.

Lemma merge_roots_spec a b g :
  wf_classes g ->
  a < num_terms g -> b < num_terms g ->
  get_root g a = a -> get_root g b = b -> a <> b ->
  exists g', merge_roots a b g = Some g' /\ merged g a b g'.
Proof.
  intros (Hbound & Hroots & Hcls) Ha Hb Hra Hrb Hab.
  destruct (Hcls b Hb Hrb) as [lb Cb].
  unfold merge_roots.
  pose proof (uf_eq_erase_parents b g) as [Hn1 H1].
  set (g1 := erase_parents b g) in *.
  set (g2 := set_root b a g1).
  assert (num_terms g2 = num_terms g) as Hn2
    by (unfold g2, set_root; now rewrite num_terms_update_term).
  assert (forall p, get_next g2 p = get_next g p) as Hnx2.
  { intros p. unfold g2, get_next, set_root.
    rewrite (get_update_term_field m_next) by reflexivity. apply H1. }
  assert (forall p, get_class_size g2 p = get_class_size g p) as Hsz2.
  { intros p. unfold g2, get_class_size, set_root.
    rewrite (get_update_term_field m_class_size) by reflexivity. apply H1. }
  assert (forall p, get_root g2 p = if decide (p = b) then a else get_root g p) as Hr2.
  { intros p. unfold g2. rewrite get_root_set_root, Hn1.
    repeat case_decide; try apply H1; try reflexivity;
      exfalso; intuition (subst; auto; try congruence; lia). }
  pose proof (class_nodup _ _ _ Cb) as Hnd. apply NoDup_cons in Hnd as [Hbl Hndl].
  destruct (set_root_ring_spec a b lb (get_next g2 b) g2 (num_terms g2))
    as (g3 & Hrun & Hn3 & Hr3 & Hnx3 & Hsz3 & _).
  { rewrite Hnx2. eapply path_ext; [|apply (class_ring _ _ _ Cb)].
    intros z _. apply Hnx2. }
  { exact Hbl. }
  { intros z Hz. rewrite Hn2. apply (class_of_valid _ _ _ _ Cb).
    now apply list_elem_of_further. }
  { rewrite Hn2. pose proof (class_of_length _ _ _ Cb). lia. }
  rewrite Hrun.
  destruct (merge_eq_class_spec a b g3 Hab) as (Hn4 & Hr4 & Hnx4 & Hsz4 & _);
    [lia|lia|].
  set (g4 := merge_eq_class a b g3) in *.
  pose proof (uf_eq_reinsert_parents a g4) as [Hn5 H5].
  eexists. split; [reflexivity|].
  constructor.
  - lia.
  - intros p. destruct (H5 p) as (-> & _ & _). rewrite Hr4, Hr3, Hr2.
    destruct (decide (p ∈ lb)) as [Hin|Hnin].
    + assert (p ∈ b :: lb) as Hin' by now apply list_elem_of_further.
      apply (class_members _ _ _ Cb) in Hin'.
      destruct (decide _) as [_|Hn]; [reflexivity|]. tauto.
    + destruct (decide (p = b)) as [->|Hpb].
      * destruct (decide _) as [_|Hn]; [reflexivity|]. tauto.
      * destruct (decide _) as [Hy|_]; [|reflexivity].
        apply (class_members _ _ _ Cb) in Hy.
        apply elem_of_cons in Hy as [?|?]; contradiction.
  - intros p. destruct (H5 p) as (_ & -> & _). rewrite Hnx4, !Hnx3, !Hnx2.
    reflexivity.
  - intros p. destruct (H5 p) as (_ & _ & ->). rewrite Hsz4, !Hsz3, !Hsz2.
    reflexivity.
Qed.


(** *** Merging keeps the invariant of the classes *)

Lemma filter_length_lt {A} (P Q : A -> Prop)
  `{!forall x, Decision (P x)} `{!forall x, Decision (Q x)} (l : list A) b :
  (forall x, x ∈ l -> Q x -> P x) -> b ∈ l -> P b -> ~ Q b ->
  length (filter Q l) < length (filter P l).
Proof.
  intros HQP Hin HPb HQb.
  assert (forall l', (forall x, x ∈ l' -> Q x -> P x) ->
            length (filter Q l') <= length (filter P l')) as Hle.
  { induction l' as [|x l' IH]; intros Hl'; [reflexivity|].
    assert (length (filter Q l') <= length (filter P l')) as IH'.
    { apply IH. intros y Hy. apply Hl'. now apply list_elem_of_further. }
    rewrite !filter_cons. destruct (decide (Q x)) as [HQ|HQ].
    - destruct (decide (P x)) as [_|HP]; [simpl; lia|].
      exfalso. apply HP, Hl'; [apply list_elem_of_here|assumption].
    - destruct (decide (P x)); simpl; lia. }
  induction l as [|x l IH]; [now apply elem_of_nil in Hin|].
  assert (forall y, y ∈ l -> Q y -> P y) as HQP'.
  { intros y Hy. apply HQP. now apply list_elem_of_further. }
  rewrite !filter_cons.
  apply elem_of_cons in Hin as [<-|Hin].
  - destruct (decide (Q b)) as [?|_]; [contradiction|].
    destruct (decide (P b)) as [_|?]; [|contradiction].
    simpl. specialize (Hle l HQP'). lia.
  - specialize (IH HQP' Hin). destruct (decide (Q x)) as [HQ|HQ].
    + destruct (decide (P x)) as [_|HP]; [simpl; lia|].
      exfalso. apply HP, HQP; [apply list_elem_of_here|assumption].
    + destruct (decide (P x)); simpl; lia.
Qed.

Section Merged.

Variables (g g' : term_graph) (a b : ptr).
Hypothesis Hwf : wf_classes g.
Hypothesis Ha : a < num_terms g.
Hypothesis Hb : b < num_terms g.
Hypothesis Hra : get_root g a = a.
Hypothesis Hrb : get_root g b = b.
Hypothesis Hab : a <> b.
Hypothesis Hm : merged g a b g'.

Lemma merged_root_of_b p :
  p < num_terms g -> get_root g p = b -> get_root g' p = a.
Proof.
  intros Hp Hr. rewrite (merged_root _ _ _ _ Hm).
  destruct (decide _) as [_|Hn]; [reflexivity|]. tauto.
Qed.

Lemma merged_root_other p : get_root g p <> b -> get_root g' p = get_root g p.
Proof.
  intros Hr. rewrite (merged_root _ _ _ _ Hm).
  destruct (decide _) as [[_ ?]|_]; [contradiction|reflexivity].
Qed.

Lemma merged_root_a : get_root g' a = a.
Proof. rewrite merged_root_other; congruence. Qed.

Lemma merged_next_other p : p <> a -> p <> b -> get_next g' p = get_next g p.
Proof. intros. rewrite (merged_next _ _ _ _ Hm). solve_cases. Qed.

Lemma merged_coarser : coarser g g'.
Proof.
  split; [apply (merged_num_terms _ _ _ _ Hm)|].
  intros p q Hp Hq Heq. rewrite !(merged_root _ _ _ _ Hm), Heq.
  repeat case_decide; try reflexivity; exfalso; intuition congruence.
Qed.

Lemma merged_class_a la lb :
  class_of g a la -> class_of g b lb -> class_of g' a (lb ++ b :: la).
Proof.
  intros Ca Cb.
  pose proof (class_nodup _ _ _ Ca) as Hnda.
  pose proof (class_nodup _ _ _ Cb) as Hndb.
  apply NoDup_cons in Hnda as [Hala Hndla].
  apply NoDup_cons in Hndb as [Hblb Hndlb].
  assert (forall x, x ∈ la -> x < num_terms g /\ get_root g x = a) as Hla.
  { intros x Hx. apply (class_members _ _ _ Ca). now apply list_elem_of_further. }
  assert (forall x, x ∈ lb -> x < num_terms g /\ get_root g x = b) as Hlb.
  { intros x Hx. apply (class_members _ _ _ Cb). now apply list_elem_of_further. }
  assert (NoDup (a :: lb ++ b :: la)) as Hnd.
  { apply NoDup_cons. split.
    - rewrite not_elem_of_app, not_elem_of_cons. repeat split; [|assumption..].
      intros Hx. apply Hlb in Hx. destruct Hx. congruence.
    - apply NoDup_app. split; [assumption|]. split.
      + intros x Hx. apply not_elem_of_cons. split.
        * intros ->. contradiction.
        * intros Hx'. apply Hla in Hx'. apply Hlb in Hx.
          destruct Hx, Hx'. congruence.
      + apply NoDup_cons. split; [|assumption].
        intros Hx. apply Hla in Hx. destruct Hx. congruence. }
  constructor.
  - unfold ring. rewrite (merged_next _ _ _ _ Hm).
    destruct (decide (a = a)) as [_|?]; [|contradiction].
    apply path_app. split.
    + eapply path_ext; [|apply (class_ring _ _ _ Cb)].
      intros z Hz. apply merged_next_other.
      * intros ->. apply Hlb in Hz. destruct Hz. congruence.
      * intros ->. contradiction.
    + rewrite (merged_next _ _ _ _ Hm).
      destruct (decide (b = a)) as [?|_]; [congruence|].
      destruct (decide (b = b)) as [_|?]; [|contradiction].
      eapply path_ext; [|apply (class_ring _ _ _ Ca)].
      intros z Hz. apply merged_next_other.
      * intros ->. contradiction.
      * intros ->. apply Hla in Hz. destruct Hz. congruence.
  - exact Hnd.
  - intros p. rewrite (merged_num_terms _ _ _ _ Hm).
    rewrite elem_of_cons, elem_of_app, elem_of_cons. split.
    + intros [->|[Hp|[->|Hp]]].
      * split; [assumption|apply merged_root_a].
      * apply Hlb in Hp as [? ?]. split; [assumption|now apply merged_root_of_b].
      * split; [assumption|now apply merged_root_of_b].
      * apply Hla in Hp as [? Hr]. split; [assumption|].
        rewrite merged_root_other; congruence.
    + intros [Hp Hr]. rewrite (merged_root _ _ _ _ Hm) in Hr.
      destruct (decide _) as [[_ Hpb]|_].
      * assert (p ∈ b :: lb) as Hin by (apply (class_members _ _ _ Cb); auto).
        apply elem_of_cons in Hin. tauto.
      * assert (p ∈ a :: la) as Hin by (apply (class_members _ _ _ Ca); auto).
        apply elem_of_cons in Hin. tauto.
  - rewrite (merged_class_size _ _ _ _ Hm).
    destruct (decide (a = a)) as [_|?]; [|contradiction].
    rewrite (class_size_eq _ _ _ Ca), (class_size_eq _ _ _ Cb).
    assert (length (a :: lb ++ b :: la) <= num_terms g) as Hlen.
    { apply nodup_bounded_length; [exact Hnd|].
      intros x. rewrite elem_of_cons, elem_of_app, elem_of_cons.
      intros [->|[Hx|[->|Hx]]]; try assumption.
      - now apply Hlb in Hx.
      - now apply Hla in Hx. }
    simpl in Hlen. rewrite length_app in *. simpl in *.
    destruct Hwf as (Hbound & _). rewrite wrap_small; lia.
Qed.

Lemma merged_class_other r l :
  r <> a -> r <> b -> get_root g r = r -> class_of g r l -> class_of g' r l.
Proof.
  intros Hrna Hrnb Hrr C.
  assert (forall x, x ∈ l -> x < num_terms g /\ get_root g x = r) as Hl.
  { intros x Hx. apply (class_members _ _ _ C). now apply list_elem_of_further. }
  constructor.
  - unfold ring. rewrite merged_next_other by assumption.
    eapply path_ext; [|apply (class_ring _ _ _ C)].
    intros z Hz. apply Hl in Hz as [_ Hz]. apply merged_next_other; congruence.
  - apply (class_nodup _ _ _ C).
  - intros p. rewrite (merged_num_terms _ _ _ _ Hm).
    rewrite (class_members _ _ _ C), (merged_root _ _ _ _ Hm).
    destruct (decide _) as [[_ Hpb]|_]; intuition congruence.
  - rewrite (merged_class_size _ _ _ _ Hm).
    destruct (decide (r = a)) as [?|_]; [contradiction|].
    destruct (decide (r = b)) as [?|_]; [contradiction|].
    apply (class_size_eq _ _ _ C).
Qed.

Lemma merged_wf_classes : wf_classes g'.
Proof.
  destruct Hwf as (Hbound & Hroots & Hcls).
  pose proof (merged_num_terms _ _ _ _ Hm) as Hn.
  split; [rewrite Hn; exact Hbound|]. split.
  - intros p Hp. rewrite Hn in Hp. destruct (Hroots p Hp) as [Hv Hidem].
    rewrite Hn. destruct (decide (get_root g p = b)) as [Hpb|Hpb].
    + rewrite (merged_root_of_b p Hp Hpb). split; [assumption|apply merged_root_a].
    + rewrite (merged_root_other p Hpb). split; [assumption|].
      rewrite merged_root_other; congruence.
  - intros r Hr Hrr. rewrite Hn in Hr.
    assert (get_root g r = r /\ r <> b) as [Hrr0 Hrb'].
    { rewrite (merged_root _ _ _ _ Hm) in Hrr.
      destruct (decide _) as [[_ Hx]|Hx].
      - subst r. congruence.
      - split; [assumption|]. intros ->. tauto. }
    destruct (decide (r = a)) as [->|Hrna].
    + destruct (Hcls a Ha Hra) as [la Ca], (Hcls b Hb Hrb) as [lb Cb].
      exists (lb ++ b :: la). now apply merged_class_a.
    + destruct (Hcls r Hr Hrr0) as [l C]. exists l.
      now apply merged_class_other.
Qed.

Lemma merged_roots_iff p :
  p < num_terms g -> (get_root g' p = p <-> get_root g p = p /\ p <> b).
Proof.
  intros Hp. rewrite (merged_root _ _ _ _ Hm).
  destruct (decide _) as [[_ Hx]|Hx].
  - split; [intros <-; congruence|]. intros [? ?]. congruence.
  - split; [|tauto]. intros Hr. split; [assumption|]. intros ->. tauto.
Qed.

Lemma merged_num_roots : num_roots g' < num_roots g.
Proof.
  unfold num_roots. rewrite (merged_num_terms _ _ _ _ Hm).
  apply (filter_length_lt _ _ _ b).
  - intros x Hx. apply elem_of_seq in Hx.
    intros Hr. apply merged_roots_iff in Hr; [tauto|lia].
  - apply elem_of_seq. lia.
  - exact Hrb.
  - intros Hr. apply merged_roots_iff in Hr; [tauto|assumption].
Qed.

End Merged.


(** *** The pointers stored in the graph stay valid *)

Lemma wf_pointers_aux_eq g g' :
  num_terms g' = num_terms g -> aux_eq g g' -> wf_pointers g -> wf_pointers g'.
Proof.
  intros Hn (Hp & Ht & Hq & Ha) (Wp & Wt & Wq & Wa).
  unfold wf_pointers. rewrite Hn, Ht, Hq, Ha.
  split; [|split; [|split]]; try assumption.
  intros p x. rewrite Hp. apply Wp.
Qed.

Lemma remove_first_subset f l x : x ∈ remove_first f l -> x ∈ l.
Proof.
  induction l as [|y l IH]; simpl; [auto|].
  destruct (f y).
  - apply list_elem_of_further.
  - rewrite !elem_of_cons. tauto.
Qed.

Lemma wf_pointers_cg_erase p g : wf_pointers g -> wf_pointers (cg_erase p g).
Proof.
  intros (Wp & Wt & Wq & Wa). split; [|split; [|split]]; try assumption.
  intros x Hx. apply Wt. simpl in Hx. eapply remove_first_subset, Hx.
Qed.

Lemma wf_pointers_set_mark p v g : wf_pointers g -> wf_pointers (set_mark p v g).
Proof.
  apply wf_pointers_aux_eq; [apply num_terms_update_term|].
  now apply aux_eq_update_term.
Qed.

Lemma wf_pointers_fold {A} (step : term_graph -> A -> term_graph)
  (ok : A -> Prop) (l : list A) g :
  (forall g x, ok x -> num_terms (step g x) = num_terms g) ->
  (forall g x, ok x -> wf_pointers g -> wf_pointers (step g x)) ->
  Forall ok l -> wf_pointers g -> wf_pointers (fold_left step l g).
Proof.
  intros Hn Hstep Hl. revert g.
  induction Hl as [|x l Hx _ IH]; intros g Hg; simpl; [exact Hg|].
  apply IH. now apply Hstep.
Qed.

Lemma wf_pointers_erase_parents b g :
  wf_pointers g -> wf_pointers (erase_parents b g).
Proof.
  unfold erase_parents.
  apply (wf_pointers_fold _ (fun _ => True)).
  - intros g' p _. destruct (is_marked g' p); [reflexivity|].
    apply num_terms_update_term.
  - intros g' p _ Hg'. destruct (is_marked g' p); [exact Hg'|].
    now apply wf_pointers_cg_erase, wf_pointers_set_mark.
  - apply Forall_forall. auto.
Qed.

Lemma find_elem_of (f : ptr -> bool) l x : find f l = Some x -> x ∈ l.
Proof.
  intros H. apply find_some in H as [H _]. now apply list_elem_of_In.
Qed.

Lemma cg_insert_if_not_there_spec p g :
  wf_pointers g -> p < num_terms g ->
  let r := cg_insert_if_not_there p g in
  r.1 < num_terms g /\ num_terms r.2 = num_terms g /\ wf_pointers r.2.
Proof.
  intros W Hp. unfold cg_insert_if_not_there.
  destruct (find _ _) as [e|] eqn:E; simpl.
  - split; [|split; [reflexivity|exact W]].
    destruct W as (_ & Wt & _). apply Wt. eapply find_elem_of, E.
  - split; [exact Hp|]. split; [reflexivity|].
    destruct W as (Wp & Wt & Wq & Wa).
    split; [|split; [|split]]; try assumption.
    intros x Hx. simpl in Hx. apply elem_of_app in Hx as [Hx|Hx]; [now apply Wt|].
    apply list_elem_of_singleton in Hx. now subst.
Qed.

Lemma wf_pointers_add_parent a p g :
  p < num_terms g -> wf_pointers g -> wf_pointers (add_parent a p g).
Proof.
  intros Hp (Wp & Wt & Wq & Wa).
  unfold wf_pointers, add_parent. rewrite num_terms_update_term.
  split; [|split; [|split]]; try assumption.
  intros q x. fold (add_parent a p g). rewrite parents_add_parent.
  destruct (decide _); [|apply Wp].
  rewrite elem_of_app, list_elem_of_singleton. intros [Hx| ->]; [|exact Hp].
  eapply Wp, Hx.
Qed.

Lemma wf_pointers_push_merge x y g :
  x < num_terms g -> y < num_terms g ->
  wf_pointers g -> wf_pointers (with_merge ((x, y) :: m_merge g) g).
Proof.
  intros Hx Hy (Wp & Wt & Wq & Wa). split; [|split; [|split]]; try assumption.
  intros x' y' H. simpl in H.
  apply elem_of_cons in H as [[= -> ->]|H]; [auto|now apply Wq].
Qed.

Lemma wf_pointers_pop_merge x rest g :
  m_merge g = x :: rest -> wf_pointers g -> wf_pointers (with_merge rest g).
Proof.
  intros Hq (Wp & Wt & Wq & Wa). split; [|split; [|split]]; try assumption.
  intros x' y' H. simpl in H.
  apply Wq. rewrite Hq. now apply list_elem_of_further.
Qed.

Lemma num_terms_reinsert_parent a g p :
  num_terms (reinsert_parent a g p) = num_terms g.
Proof. apply (uf_eq_reinsert_parent a g p). Qed.

Lemma wf_pointers_reinsert_parent a g p :
  p < num_terms g -> wf_pointers g -> wf_pointers (reinsert_parent a g p).
Proof.
  intros Hp W. unfold reinsert_parent. destruct (is_marked g p); [|exact W].
  pose proof (cg_insert_if_not_there_spec p g W Hp) as (Hold & Hn1 & W1).
  destruct (cg_insert_if_not_there p g) as [p_old g1]. simpl in *.
  assert (wf_pointers (add_parent a p (set_mark p false g1))) as W2.
  { apply wf_pointers_add_parent.
    - unfold set_mark. rewrite num_terms_update_term. lia.
    - now apply wf_pointers_set_mark. }
  destruct (_ =? _)%Z; [exact W2|].
  apply (wf_pointers_push_merge p p_old (add_parent a p (set_mark p false g1)));
    [| |exact W2];
    unfold add_parent, set_mark; rewrite !num_terms_update_term; lia.
Qed.

Lemma wf_pointers_reinsert_parents a g :
  wf_pointers g -> wf_pointers (reinsert_parents a g).
Proof.
  intros W. unfold reinsert_parents.
  assert (Forall (fun p => p < num_terms g) (parents g a)) as Hall.
  { apply Forall_forall. intros x Hx. destruct W as (Wp & _). eapply Wp, Hx. }
  revert Hall W. generalize (parents g a) as l. intros l. revert g.
  induction l as [|p l IH]; intros g Hall W; simpl; [exact W|].
  apply Forall_cons in Hall as [Hp Hall].
  apply IH.
  - rewrite num_terms_reinsert_parent. exact Hall.
  - now apply wf_pointers_reinsert_parent.
Qed.

Lemma set_root_ring_aux a b fuel :
  forall it g g',
    set_root_ring fuel a b it g = Some g' ->
    num_terms g' = num_terms g /\ aux_eq g g'.
Proof.
  induction fuel as [|fuel IH]; intros it g g'; simpl.
  - destruct (it =? b); [|discriminate]. intros [= <-].
    split; [reflexivity|apply aux_eq_refl].
  - destruct (it =? b).
    + intros [= <-]. split; [reflexivity|apply aux_eq_refl].
    + intros H. apply IH in H as [Hn Haux]. split.
      * rewrite Hn. apply num_terms_update_term.
      * eapply aux_eq_trans; [|exact Haux]. now apply aux_eq_update_term.
Qed.

Lemma merge_eq_class_aux a b g :
  num_terms (merge_eq_class a b g) = num_terms g /\
  aux_eq g (merge_eq_class a b g).
Proof.
  unfold merge_eq_class, set_class_size, set_next. split.
  - now rewrite !num_terms_update_term.
  - repeat (eapply aux_eq_trans; [|apply aux_eq_update_term; reflexivity]).
    apply aux_eq_refl.
Qed.

Lemma wf_pointers_merge_roots a b g g' :
  merge_roots a b g = Some g' -> wf_pointers g -> wf_pointers g'.
Proof.
  unfold merge_roots. intros H W.
  destruct (set_root_ring _ _ _ _ _) as [g3|] eqn:E; [|discriminate].
  injection H as <-.
  apply set_root_ring_aux in E as [Hn3 Haux3].
  destruct (merge_eq_class_aux a b g3) as [Hn4 Haux4].
  apply wf_pointers_reinsert_parents.
  eapply wf_pointers_aux_eq; [exact Hn4|exact Haux4|].
  eapply wf_pointers_aux_eq; [exact Hn3|exact Haux3|].
  eapply wf_pointers_aux_eq;
    [apply num_terms_update_term|apply aux_eq_update_term; reflexivity|].
  now apply wf_pointers_erase_parents.
Qed.

Lemma wf_pointers_reset_caches g : wf_pointers g -> wf_pointers (reset_caches g).
Proof. intros W. exact W. Qed.


(** *** Transport along [uf_eq] *)

Lemma class_of_uf_eq g g' r l : uf_eq g g' -> class_of g r l -> class_of g' r l.
Proof.
  intros Heq C. pose proof Heq as [Hn H]. constructor.
  - unfold ring. destruct (H r) as (_ & -> & _).
    eapply path_uf_eq; [exact Heq|apply (class_ring _ _ _ C)].
  - apply (class_nodup _ _ _ C).
  - intros p. rewrite Hn. destruct (H p) as (-> & _).
    apply (class_members _ _ _ C).
  - destruct (H r) as (_ & _ & ->). apply (class_size_eq _ _ _ C).
Qed.

Lemma wf_classes_uf_eq g g' : uf_eq g g' -> wf_classes g -> wf_classes g'.
Proof.
  intros Heq (Hbound & Hroots & Hcls). pose proof Heq as [Hn H].
  split; [rewrite Hn; exact Hbound|]. split.
  - intros p Hp. rewrite Hn in *.
    destruct (H p) as (Hr & _). rewrite !Hr.
    destruct (H (get_root g p)) as (-> & _). now apply Hroots.
  - intros r Hr Hrr. rewrite Hn in Hr. destruct (H r) as (Hr' & _).
    rewrite Hr' in Hrr. destruct (Hcls r Hr Hrr) as [l C].
    exists l. eapply class_of_uf_eq; eauto.
Qed.

Lemma merged_uf_eq g0 g a b g' : uf_eq g0 g -> merged g0 a b g' -> merged g a b g'.
Proof.
  intros [Hn H] Hm. constructor.
  - rewrite (merged_num_terms _ _ _ _ Hm). now rewrite Hn.
  - intros p. rewrite (merged_root _ _ _ _ Hm), Hn.
    destruct (H p) as (-> & _). reflexivity.
  - intros p. rewrite (merged_next _ _ _ _ Hm).
    destruct (H p) as (_ & -> & _), (H a) as (_ & -> & _), (H b) as (_ & -> & _).
    reflexivity.
  - intros p. rewrite (merged_class_size _ _ _ _ Hm).
    destruct (H p) as (_ & _ & ->), (H a) as (_ & _ & ->), (H b) as (_ & _ & ->).
    reflexivity.
Qed.

Lemma uf_eq_sym g g' : uf_eq g g' -> uf_eq g' g.
Proof.
  intros [Hn H]. split; [congruence|]. intros p.
  destruct (H p) as (? & ? & ?). repeat split; congruence.
Qed.

Lemma num_roots_uf_eq g g' : uf_eq g g' -> num_roots g' = num_roots g.
Proof.
  intros [Hn H]. unfold num_roots. rewrite Hn. f_equal.
  apply list_filter_iff. intros x. destruct (H x) as (-> & _). reflexivity.
Qed.

Lemma wf_reset_caches g : wf g -> wf (reset_caches g).
Proof.
  intros [Wc Wp]. split; [|exact Wp].
  eapply wf_classes_uf_eq; [apply uf_eq_reset_caches|exact Wc].
Qed.

Lemma wf_pop_merge x rest g :
  m_merge g = x :: rest -> wf g -> wf (with_merge rest g).
Proof.
  intros Hq [Wc Wp]. split.
  - eapply wf_classes_uf_eq; [apply uf_eq_with_merge|exact Wc].
  - eapply wf_pointers_pop_merge; eauto.
Qed.

Lemma merge_same_root t1 t2 g :
  get_root g t1 = get_root g t2 -> merge t1 t2 g = Some (reset_caches g).
Proof.
  intros H. unfold merge.
  change (get_root (reset_caches g) t1) with (get_root g t1).
  change (get_root (reset_caches g) t2) with (get_root g t2).
  rewrite H, Nat.eqb_refl. reflexivity.
Qed.

Lemma merge_distinct_roots t1 t2 g :
  wf g -> t1 < num_terms g -> t2 < num_terms g ->
  get_root g t1 <> get_root g t2 ->
  exists g',
    merge t1 t2 g = Some g' /\
    merged g (surviving_root g (get_root g t1) (get_root g t2))
             (absorbed_root g (get_root g t1) (get_root g t2)) g' /\
    wf g'.
Proof.
  intros W H1 H2 Hne.
  pose proof (wf_reset_caches g W) as [Wc0 Wp0].
  destruct W as [Wc Wp].
  pose proof Wc as (Hbound & Hroots & Hcls).
  destruct (Hroots t1 H1) as [Hv1 Hi1], (Hroots t2 H2) as [Hv2 Hi2].
  unfold merge, surviving_root, absorbed_root.
  change (get_root (reset_caches g) t1) with (get_root g t1).
  change (get_root (reset_caches g) t2) with (get_root g t2).
  change (get_class_size (reset_caches g) (get_root g t1))
    with (get_class_size g (get_root g t1)).
  change (get_class_size (reset_caches g) (get_root g t2))
    with (get_class_size g (get_root g t2)).
  destruct (Nat.eqb_spec (get_root g t1) (get_root g t2)) as [?|_];
    [contradiction|].
  destruct (_ >? _)%Z.
  - destruct (merge_roots_spec (get_root g t2) (get_root g t1) (reset_caches g))
      as (g' & Hrun & Hm); auto.
    apply (merged_uf_eq _ g) in Hm; [|apply uf_eq_sym, uf_eq_reset_caches].
    exists g'. split; [exact Hrun|]. split; [exact Hm|]. split.
    + apply (merged_wf_classes g g' (get_root g t2) (get_root g t1)); auto.
    + eapply wf_pointers_merge_roots; [exact Hrun|exact Wp0].
  - destruct (merge_roots_spec (get_root g t1) (get_root g t2) (reset_caches g))
      as (g' & Hrun & Hm); auto.
    apply (merged_uf_eq _ g) in Hm; [|apply uf_eq_sym, uf_eq_reset_caches].
    exists g'. split; [exact Hrun|]. split; [exact Hm|]. split.
    + apply (merged_wf_classes g g' (get_root g t1) (get_root g t2)); auto.
    + eapply wf_pointers_merge_roots; [exact Hrun|exact Wp0].
Qed.

Lemma surviving_absorbed g ra rb :
  ra <> rb ->
  (surviving_root g ra rb = ra /\ absorbed_root g ra rb = rb) \/
  (surviving_root g ra rb = rb /\ absorbed_root g ra rb = ra).
Proof.
  intros _. unfold surviving_root, absorbed_root. destruct (_ >? _)%Z; auto.
Qed.

Lemma coarser_refl g : coarser g g.
Proof. split; [reflexivity|auto]. Qed.

Lemma coarser_trans g1 g2 g3 : coarser g1 g2 -> coarser g2 g3 -> coarser g1 g3.
Proof.
  intros [Hn1 H1] [Hn2 H2]. split; [congruence|].
  intros p q Hp Hq Heq. apply H2; [lia|lia|]. now apply H1.
Qed.

Lemma coarser_uf_eq g g' : uf_eq g g' -> coarser g g'.
Proof.
  intros [Hn H]. split; [exact Hn|]. intros p q _ _ Heq.
  destruct (H p) as (-> & _), (H q) as (-> & _). exact Heq.
Qed.

(** What one call of [merge] achieves on a well-formed graph. *)
Lemma merge_wf t1 t2 g :
  wf g -> t1 < num_terms g -> t2 < num_terms g ->
  exists g',
    merge t1 t2 g = Some g' /\ wf g' /\ coarser g g' /\
    get_root g' t1 = get_root g' t2 /\
    (num_roots g' < num_roots g \/
     (num_roots g' = num_roots g /\ m_merge g' = m_merge g)).
Proof.
  intros W H1 H2.
  destruct (decide (get_root g t1 = get_root g t2)) as [Heq|Hne].
  - exists (reset_caches g). split; [now apply merge_same_root|].
    split; [now apply wf_reset_caches|].
    split; [apply coarser_uf_eq, uf_eq_reset_caches|]. split; [exact Heq|].
    right. split; [|reflexivity].
    apply num_roots_uf_eq, uf_eq_reset_caches.
  - destruct (merge_distinct_roots t1 t2 g W H1 H2 Hne) as (g' & Hrun & Hm & W').
    exists g'. split; [exact Hrun|]. split; [exact W'|].
    destruct W as [Wc Wp].
    pose proof Wc as (_ & Hroots & _).
    destruct (Hroots t1 H1) as [Hv1 Hi1], (Hroots t2 H2) as [Hv2 Hi2].
    set (a := surviving_root g (get_root g t1) (get_root g t2)) in *.
    set (b := absorbed_root g (get_root g t1) (get_root g t2)) in *.
    assert (a < num_terms g /\ b < num_terms g /\ get_root g a = a /\
            get_root g b = b /\ a <> b /\
            (get_root g t1 = a \/ get_root g t1 = b) /\
            (get_root g t2 = a \/ get_root g t2 = b)) as (Ha & Hb & Hra & Hrb & Hab & Ht1 & Ht2).
    { destruct (surviving_absorbed g _ _ Hne) as [[Hs Hb]|[Hs Hb]];
        fold a in Hs; fold b in Hb; rewrite Hs, Hb; repeat split; auto. }
    split; [apply (merged_coarser g g' a b Hm)|]. split.
    + assert (forall t, t < num_terms g ->
                get_root g t = a \/ get_root g t = b -> get_root g' t = a) as Hto.
      { intros t Ht [Hr|Hr].
        - rewrite (merged_root_other g g' a b Hm); congruence.
        - now apply (merged_root_of_b g g' a b Hm). }
      rewrite (Hto t1), (Hto t2); auto.
    + left. apply (merged_num_roots g g' a b); auto.
Qed.

Lemma merge_flush_fuel_mono fuel :
  forall g g' fuel', merge_flush fuel g = Some g' -> fuel <= fuel' ->
    merge_flush fuel' g = Some g'.
Proof.
  induction fuel as [|fuel IH]; intros g g' fuel' H Hle.
  - destruct fuel'; simpl in *; destruct (m_merge g) as [|[t1 t2] rest];
      congruence.
  - destruct fuel' as [|fuel']; [lia|]. simpl in *.
    destruct (m_merge g) as [|[t1 t2] rest]; [exact H|].
    destruct (merge t1 t2 (with_merge rest g)) as [g1|]; [|discriminate].
    apply IH; [exact H|lia].
Qed.

(** [merge_flush] terminates on a well-formed graph: a merge either joins
    two classes or leaves the classes alone and the queue one entry
    shorter. *)
Lemma merge_flush_total k :
  forall g, wf g -> num_roots g <= k ->
    exists fuel g',
      merge_flush fuel g = Some g' /\ wf g' /\ m_merge g' = [] /\ coarser g g'.
Proof.
  induction k as [k IHk] using lt_wf_ind. intros g.
  remember (length (m_merge g)) as len eqn:Hlen.
  revert g Hlen. induction len as [|len IHlen]; intros g Hlen W Hk.
  - exists 0, g. simpl. destruct (m_merge g); [|discriminate].
    split; [reflexivity|]. split; [exact W|]. split; [reflexivity|].
    apply coarser_refl.
  - destruct (m_merge g) as [|[t1 t2] rest] eqn:Hq; [discriminate|].
    assert (wf (with_merge rest g)) as Wpop
      by (eapply wf_pop_merge; eauto).
    assert (t1 < num_terms g /\ t2 < num_terms g) as [H1 H2].
    { destruct W as [_ (_ & _ & Wq & _)]. apply Wq. rewrite Hq.
      apply list_elem_of_here. }
    destruct (merge_wf t1 t2 (with_merge rest g) Wpop H1 H2)
      as (g1 & Hrun & W1 & Hc1 & _ & Hmeasure).
    assert (exists fuel g',
              merge_flush fuel g1 = Some g' /\ wf g' /\ m_merge g' = [] /\
              coarser g1 g') as (fuel & g' & Hflush & W' & Hq' & Hc').
    { destruct Hmeasure as [Hlt|[Heq Hqeq]].
      - apply (IHk (num_roots g1)); [|exact W1|lia].
        change (num_roots (with_merge rest g)) with (num_roots g) in Hlt. lia.
      - apply IHlen; [|exact W1|].
        + rewrite Hqeq. simpl in *. lia.
        + rewrite Heq. exact Hk. }
    exists (S fuel), g'. simpl. rewrite Hq, Hrun.
    split; [exact Hflush|]. split; [exact W'|]. split; [exact Hq'|].
    eapply coarser_trans; [|exact Hc'].
    destruct Hc1 as [Hn Hc1]. split; [exact Hn|exact Hc1].
Qed.


Lemma class_sizes_bound g a b :
  wf_classes g -> a < num_terms g -> b < num_terms g ->
  get_root g a = a -> get_root g b = b -> a <> b ->
  (0 <= get_class_size g a + get_class_size g b <= UINT_MAX)%Z.
Proof.
  intros (Hbound & _ & Hcls) Ha Hb Hra Hrb Hab.
  destruct (Hcls a Ha Hra) as [la Ca], (Hcls b Hb Hrb) as [lb Cb].
  rewrite (class_size_eq _ _ _ Ca), (class_size_eq _ _ _ Cb).
  assert (length ((a :: la) ++ (b :: lb)) <= num_terms g) as Hlen.
  { apply nodup_bounded_length.
    - apply NoDup_app. split; [apply (class_nodup _ _ _ Ca)|].
      split; [|apply (class_nodup _ _ _ Cb)].
      intros x Hxa Hxb.
      apply (class_members _ _ _ Ca) in Hxa. apply (class_members _ _ _ Cb) in Hxb.
      destruct Hxa, Hxb. congruence.
    - intros x Hx. apply elem_of_app in Hx as [Hx|Hx].
      + now apply (class_members _ _ _ Ca) in Hx.
      + now apply (class_members _ _ _ Cb) in Hx. }
  rewrite length_app in Hlen. cbn [length] in Hlen.
  rewrite UINT_MAX_eq in *. lia.
Qed.

Lemma internalize_term_internalized m t g p :
  get_term g t = Some p -> internalize_term m t g = Some (p, g).
Proof. intros H. destruct t; simpl; rewrite H; reflexivity. Qed.

Lemma wf_get_term g a p : wf g -> get_term g a = Some p -> p < num_terms g.
Proof. intros [_ (_ & _ & _ & Wa)] H. eapply Wa, H. Qed.

(** [internalize_eq] on two internalized terms runs to completion and
    leaves them in one class. *)
Lemma internalize_eq_same_root m g a1 a2 ta tb :
  wf g -> get_term g a1 = Some ta -> get_term g a2 = Some tb ->
  exists fuel g',
    internalize_eq fuel m a1 a2 g = Some g' /\
    get_root g' ta = get_root g' tb /\ wf g' /\ m_merge g' = [] /\
    coarser g g'.
Proof.
  intros W Ha Hb.
  pose proof (wf_get_term _ _ _ W Ha) as Hta.
  pose proof (wf_get_term _ _ _ W Hb) as Htb.
  destruct (merge_wf ta tb g W Hta Htb) as (g1 & Hrun & W1 & Hc1 & Hsame & _).
  destruct (merge_flush_total (num_roots g1) g1 W1 (le_n _))
    as (fuel & g' & Hflush & W' & Hq & Hc').
  exists fuel, g'. unfold internalize_eq.
  rewrite (internalize_term_internalized m a1 g ta Ha).
  rewrite (internalize_term_internalized m a2 g tb Hb).
  rewrite Hrun. split; [exact Hflush|]. split.
  - destruct Hc1 as [Hn1 _]. destruct Hc' as [_ Hc'].
    apply Hc'; [lia|lia|exact Hsame].
  - split; [exact W'|]. split; [exact Hq|]. eapply coarser_trans; eauto.
Qed.

(** C9. On a well-formed graph and two internalized terms:
    [internalize_eq] terminates and afterwards the two terms have the same
    root; [merge] of two terms with the same root leaves every term as it
    is; [merge] of two terms with different roots gives the surviving root
    the sum of the two class sizes and points every member of the absorbed
    class to the surviving root, the other terms keeping their roots. *)
Theorem merge_is_union (m : ast_manager) (g : term_graph) (a1 a2 : expr)
  (ta tb : ptr) :
  wf g -> get_term g a1 = Some ta -> get_term g a2 = Some tb ->
  (exists fuel g',
     internalize_eq fuel m a1 a2 g = Some g' /\
     (forall fuel', fuel <= fuel' -> internalize_eq fuel' m a1 a2 g = Some g') /\
     get_root g' ta = get_root g' tb /\ wf g') /\
  (get_root g ta = get_root g tb ->
   exists g', merge ta tb g = Some g' /\ m_terms g' = m_terms g) /\
  (get_root g ta <> get_root g tb ->
   let a := surviving_root g (get_root g ta) (get_root g tb) in
   let b := absorbed_root g (get_root g ta) (get_root g tb) in
   exists g',
     merge ta tb g = Some g' /\ wf g' /\
     get_root g' a = a /\
     get_class_size g' a
     = (get_class_size g (get_root g ta) + get_class_size g (get_root g tb))%Z /\
     (forall p, p < num_terms g -> get_root g p = b -> get_root g' p = a) /\
     (forall p, get_root g p <> b -> get_root g' p = get_root g p)).
Proof.
  intros W Ha Hb.
  pose proof (wf_get_term _ _ _ W Ha) as Hta.
  pose proof (wf_get_term _ _ _ W Hb) as Htb.
  split; [|split].
  - destruct (internalize_eq_same_root m g a1 a2 ta tb W Ha Hb)
      as (fuel & g' & Hrun & Hsame & W' & _).
    exists fuel, g'. split; [exact Hrun|]. split; [|split; assumption].
    intros fuel' Hle. revert Hrun. unfold internalize_eq.
    rewrite (internalize_term_internalized m a1 g ta Ha).
    rewrite (internalize_term_internalized m a2 g tb Hb).
    destruct (merge ta tb g) as [g1|]; [|discriminate].
    intros Hrun. eapply merge_flush_fuel_mono; eauto.
  - intros Heq. exists (reset_caches g). split; [|reflexivity].
    now apply merge_same_root.
  - intros Hne a b.
    destruct (merge_distinct_roots ta tb g W Hta Htb Hne) as (g' & Hrun & Hm & W').
    fold a b in Hm. exists g'. split; [exact Hrun|]. split; [exact W'|].
    destruct W as [Wc Wp]. pose proof Wc as (_ & Hroots & _).
    destruct (Hroots ta Hta) as [Hv1 Hi1], (Hroots tb Htb) as [Hv2 Hi2].
    assert (a <> b /\ get_root g a = a /\
            (get_class_size g a + get_class_size g b
             = get_class_size g (get_root g ta) + get_class_size g (get_root g tb))%Z /\
            (0 <= get_class_size g a + get_class_size g b <= UINT_MAX)%Z)
      as (Hab & Hra & Hsum & Hbnd).
    { destruct (surviving_absorbed g _ _ Hne) as [[Hs Hb']|[Hs Hb']];
        fold a in Hs; fold b in Hb'; rewrite Hs, Hb';
        repeat split; auto; try lia;
        apply class_sizes_bound; auto. }
    split; [rewrite (merged_root_other g g' a b Hm); congruence|].
    split.
    { rewrite (merged_class_size _ _ _ _ Hm).
      destruct (decide (a = a)) as [_|?]; [|contradiction].
      rewrite wrap_small by exact Hbnd. exact Hsum. }
    split.
    + intros p Hp Hr. now apply (merged_root_of_b g g' a b Hm).
    + intros p Hr. now apply (merged_root_other g g' a b Hm).
Qed.


(** *** The graphs that [mk_term] builds are well formed *)

Lemma wf_empty_graph : wf empty_graph.
Proof.
  split.
  - split; [rewrite UINT_MAX_eq; unfold num_terms; simpl; lia|].
    split; intros p Hp; unfold num_terms in Hp; simpl in Hp; lia.
  - split; [|split; [|split]].
    + intros p x. unfold parents, get. cbn [m_terms empty_graph].
      rewrite list_lookup_total_alt, lookup_nil. simpl.
      intros H. now apply elem_of_nil in H.
    + intros x H. now apply elem_of_nil in H.
    + intros x y H. now apply elem_of_nil in H.
    + intros k p H. simpl in H. now rewrite lookup_empty in H.
Qed.

Section NewTerm.

Variables (g : term_graph) (t : term).
Hypothesis Hroot : m_root t = num_terms g.
Hypothesis Hnext : m_next t = num_terms g.
Hypothesis Hsize : m_class_size t = 1%Z.
Hypothesis Hparents : m_parents t = [].

Let g1 := with_terms (m_terms g ++ [t]) g.

Lemma num_terms_push : num_terms g1 = S (num_terms g).
Proof. unfold g1, num_terms. simpl. rewrite length_app. simpl. lia. Qed.

Lemma get_push_old p : p < num_terms g -> get g1 p = get g p.
Proof.
  intros Hp. unfold g1, get. simpl. now apply lookup_total_app_l.
Qed.

Lemma get_push_new : get g1 (num_terms g) = t.
Proof.
  unfold g1, get, num_terms. simpl.
  rewrite lookup_total_app_r by lia. now rewrite Nat.sub_diag.
Qed.

Lemma get_root_push p :
  p < S (num_terms g) ->
  get_root g1 p = if decide (p = num_terms g) then num_terms g else get_root g p.
Proof.
  intros Hp. unfold get_root. destruct (decide (p = num_terms g)) as [->|Hne].
  - now rewrite get_push_new.
  - rewrite get_push_old by lia. reflexivity.
Qed.

Lemma wf_classes_push :
  wf_classes g -> (Z.of_nat (S (num_terms g)) <= UINT_MAX)%Z -> wf_classes g1.
Proof.
  intros (_ & Hroots & Hcls) Hbound. rewrite <- num_terms_push in Hbound.
  split; [exact Hbound|]. split.
  - intros p Hp. rewrite num_terms_push in *. rewrite get_root_push by assumption.
    destruct (decide (p = num_terms g)) as [->|Hne].
    + split; [lia|]. rewrite get_root_push by lia.
      destruct (decide _); [reflexivity|contradiction].
    + destruct (Hroots p ltac:(lia)) as [Hv Hi]. split; [lia|].
      rewrite get_root_push by lia.
      destruct (decide _) as [?|_]; [lia|exact Hi].
  - intros r Hr Hrr. rewrite num_terms_push in Hr.
    destruct (decide (r = num_terms g)) as [->|Hne].
    + exists []. constructor.
      * unfold ring, get_next. rewrite get_push_new. simpl. exact Hnext.
      * apply NoDup_singleton.
      * intros p. rewrite list_elem_of_singleton, num_terms_push. split.
        -- intros ->. split; [lia|]. rewrite get_root_push by lia.
           destruct (decide _); [reflexivity|contradiction].
        -- intros [Hp Hpr]. rewrite get_root_push in Hpr by assumption.
           destruct (decide _) as [?|Hne]; [assumption|].
           destruct (Hroots p ltac:(lia)) as [Hv _]. lia.
      * unfold get_class_size. rewrite get_push_new. simpl. exact Hsize.
    + rewrite get_root_push in Hrr by assumption.
      destruct (decide _) as [?|_]; [contradiction|].
      destruct (Hcls r ltac:(lia) Hrr) as [l C]. exists l.
      assert (forall x, x ∈ r :: l -> x < num_terms g) as Hl.
      { intros x Hx. now apply (class_members _ _ _ C) in Hx. }
      constructor.
      * unfold ring, get_next. rewrite get_push_old by lia.
        eapply path_ext; [|apply (class_ring _ _ _ C)].
        intros z Hz. unfold get_next. rewrite get_push_old; [reflexivity|].
        apply Hl. now apply list_elem_of_further.
      * apply (class_nodup _ _ _ C).
      * intros p. rewrite num_terms_push, (class_members _ _ _ C). split.
        -- intros [Hp Hpr]. split; [lia|]. rewrite get_root_push by lia.
           destruct (decide _) as [?|_]; [lia|exact Hpr].
        -- intros [Hp Hpr]. rewrite get_root_push in Hpr by assumption.
           destruct (decide _) as [?|?]; [lia|]. split; [lia|exact Hpr].
      * unfold get_class_size. rewrite get_push_old by lia.
        apply (class_size_eq _ _ _ C).
Qed.

Lemma wf_pointers_push : wf_pointers g -> wf_pointers g1.
Proof.
  intros (Wp & Wt & Wq & Wa). unfold wf_pointers. rewrite num_terms_push.
  split; [|split; [|split]].
  - intros p x. unfold parents.
    destruct (decide (p < num_terms g)) as [Hp|Hp].
    + rewrite get_push_old by assumption. intros Hx. apply Wp in Hx. lia.
    + destruct (decide (p = num_terms g)) as [->|Hne].
      * rewrite get_push_new, Hparents. intros Hx. now apply elem_of_nil in Hx.
      * unfold get, g1. simpl.
        rewrite list_lookup_total_alt, lookup_ge_None_2.
        -- simpl. intros Hx. now apply elem_of_nil in Hx.
        -- rewrite length_app. simpl. unfold num_terms in *. lia.
  - intros x Hx. apply Wt in Hx. lia.
  - intros x y Hx. apply Wq in Hx. lia.
  - intros k p Hk. apply Wa in Hk. lia.
Qed.

End NewTerm.

Lemma wf_pointers_register_parents this kids :
  forall g, this < num_terms g -> wf_pointers g ->
    wf_pointers
      (fold_left (fun g c => add_parent (get_root g c) this g) kids g).
Proof.
  induction kids as [|c kids IH]; intros g Hthis W; simpl; [exact W|].
  apply IH.
  - unfold add_parent. now rewrite num_terms_update_term.
  - now apply wf_pointers_add_parent.
Qed.

Lemma mk_term_spec m a g p g' :
  wf g -> mk_term m a g = Some (p, g') ->
  (Z.of_nat (num_terms g') <= UINT_MAX)%Z ->
  wf g' /\ p = num_terms g /\ num_terms g' = S (num_terms g) /\
  get_term g' a = Some p.
Proof.
  intros [Wc Wp] Hrun Hbound. unfold mk_term in Hrun.
  destruct (mapM _ _) as [kids|]; [|discriminate].
  injection Hrun as <- <-.
  set (t := mk_term_record a (num_terms g) (num_terms g) 1 false false false [] kids) in *.
  set (g1 := with_terms (m_terms g ++ [t]) g) in *.
  set (g2 := fold_left (fun g0 c => add_parent (get_root g0 c) (num_terms g) g0)
               kids g1) in *.
  set (g3 := if (get_num_args t =? 0)%Z && is_unique_value m a
             then mark_as_interpreted (num_terms g) g2 else g2) in *.
  assert (num_terms g1 = S (num_terms g)) as Hn1
    by (apply num_terms_push; reflexivity).
  assert (uf_eq g1 g2) as H12.
  { apply uf_eq_fold. intros. apply uf_eq_add_parent. }
  assert (uf_eq g2 g3) as H23.
  { unfold g3. destruct (_ && _); [|apply uf_eq_refl].
    apply uf_eq_update_term; reflexivity. }
  assert (num_terms g3 = S (num_terms g)) as Hn3.
  { destruct H12 as [Hx _], H23 as [Hy _]. rewrite Hy, Hx. exact Hn1. }
  assert (wf_pointers g2) as Wp2.
  { unfold g2. apply wf_pointers_register_parents; [lia|].
    apply wf_pointers_push; solve [reflexivity|exact Wp]. }
  assert (wf_pointers g3) as Wp3.
  { unfold g3. destruct (_ && _); [|exact Wp2].
    eapply wf_pointers_aux_eq; [apply num_terms_update_term| |exact Wp2].
    now apply aux_eq_update_term. }
  change (num_terms (with_app2term (<[expr_id a:=num_terms g]> (m_app2term g3)) g3))
    with (num_terms g3) in *.
  split; [|split; [reflexivity|split; [exact Hn3|]]].
  - split.
    + apply (wf_classes_uf_eq g3);
        [split; [reflexivity|intros q; repeat split]|].
      apply (wf_classes_uf_eq g1); [eapply uf_eq_trans; eauto|].
      apply wf_classes_push; try reflexivity; [exact Wc|].
      rewrite <- Hn3. exact Hbound.
    + destruct Wp3 as (W1 & W2 & W3 & W4).
      split; [|split; [|split]]; try assumption.
      intros k q. simpl. rewrite lookup_insert.
      destruct (decide (expr_id a = k)) as [_|_].
      * intros [= <-]. change (num_terms g < num_terms g3). lia.
      * apply W4.
  - unfold get_term. simpl. apply lookup_insert_eq.
Qed.

Lemma mk_term_num_terms m a g p g' :
  mk_term m a g = Some (p, g') ->
  p = num_terms g /\ num_terms g' = S (num_terms g).
Proof.
  unfold mk_term. destruct (mapM _ _) as [kids|]; [|discriminate].
  intros [= <- <-]. split; [reflexivity|].
  set (t := mk_term_record a _ _ _ _ _ _ _ kids).
  set (g1 := with_terms (m_terms g ++ [t]) g).
  set (g2 := fold_left _ kids g1).
  assert (num_terms g2 = S (num_terms g)) as Hn2.
  { assert (uf_eq g1 g2) as [-> _].
    { apply uf_eq_fold. intros. apply uf_eq_add_parent. }
    unfold g1, num_terms. simpl. rewrite length_app. simpl. lia. }
  destruct (_ && _); [|exact Hn2].
  unfold mark_as_interpreted.
  change (num_terms (update_term (num_terms g) (with_interpreted true) g2)
          = S (num_terms g)).
  now rewrite num_terms_update_term.
Qed.

Lemma internalize_term_unfold m t g :
  internalize_term m t g
  = match get_term g t with
    | Some res => Some (res, g)
    | None =>
        match internalize_args m (expr_args t) g with
        | None => None
        | Some g =>
            match get_term g t with
            | Some res => Some (res, g)
            | None => mk_term m t g
            end
        end
    end.
Proof. destruct t; reflexivity. Qed.

Lemma internalize_term_num_terms m t :
  forall g p g', internalize_term m t g = Some (p, g') ->
    num_terms g <= num_terms g'.
Proof.
  induction t as [id d args IH|id idx|id body _] using expr_nested_ind;
    intros g p g'; rewrite internalize_term_unfold;
    destruct (get_term g _) as [res|] eqn:Hget;
    try (intros [= <- <-]; lia); simpl.
  - assert (forall g0 g1, internalize_args m args g0 = Some g1 ->
              num_terms g0 <= num_terms g1) as Hargs.
    { clear g p g' Hget. induction IH as [|x l Hx _ IHl]; intros g0 g1; simpl.
      - intros [= <-]. lia.
      - fold (internalize_args m l g0).
        destruct (internalize_args m l g0) as [g2|] eqn:E; [|discriminate].
        destruct (internalize_term m x g2) as [[p g3]|] eqn:E'; [|discriminate].
        simpl. intros [= <-]. specialize (IHl _ _ E).
        apply Hx in E'. lia. }
    destruct (internalize_args m args g) as [g1|] eqn:E; [|discriminate].
    apply Hargs in E.
    destruct (get_term g1 _) as [res|]; [intros [= <- <-]; exact E|].
    intros Hmk. apply mk_term_num_terms in Hmk as [_ Hn]. lia.
  - rewrite Hget. intros Hmk. apply mk_term_num_terms in Hmk as [_ Hn]. lia.
  - rewrite Hget. intros Hmk. apply mk_term_num_terms in Hmk as [_ Hn]. lia.
Qed.

Lemma internalize_term_wf m t :
  forall g p g',
    wf g -> internalize_term m t g = Some (p, g') ->
    (Z.of_nat (num_terms g') <= UINT_MAX)%Z ->
    wf g' /\ get_term g' t = Some p.
Proof.
  induction t as [id d args IH|id idx|id body _] using expr_nested_ind;
    intros g p g' W; rewrite internalize_term_unfold;
    destruct (get_term g _) as [res|] eqn:Hget;
    try (intros [= <- <-] _; split; assumption); simpl.
  - assert (forall g0 g1, wf g0 -> internalize_args m args g0 = Some g1 ->
              (Z.of_nat (num_terms g1) <= UINT_MAX)%Z -> wf g1) as Hargs.
    { clear g p g' W Hget. induction IH as [|x l Hx _ IHl]; intros g0 g1 W0; simpl.
      - intros [= <-] _. exact W0.
      - fold (internalize_args m l g0).
        destruct (internalize_args m l g0) as [g2|] eqn:E; [|discriminate].
        destruct (internalize_term m x g2) as [[p g3]|] eqn:E'; [|discriminate].
        simpl. intros [= <-] Hb.
        pose proof (internalize_term_num_terms _ _ _ _ _ E') as Hmono.
        assert (wf g2) as W2 by (apply (IHl g0); auto; lia).
        now apply (Hx g2 p g3 W2 E'). }
    destruct (internalize_args m args g) as [g1|] eqn:E; [|discriminate].
    destruct (get_term g1 _) as [res|] eqn:Hget1.
    { intros [= <- <-] Hb. split; [now apply (Hargs g)|exact Hget1]. }
    intros Hmk Hb. pose proof (mk_term_num_terms _ _ _ _ _ Hmk) as [_ Hn].
    assert (wf g1) as W1 by (apply (Hargs g); auto; lia).
    now destruct (mk_term_spec _ _ _ _ _ W1 Hmk Hb) as (? & _ & _ & ?).
  - rewrite Hget. intros Hmk Hb.
    now destruct (mk_term_spec _ _ _ _ _ W Hmk Hb) as (? & _ & _ & ?).
  - rewrite Hget. intros Hmk Hb.
    now destruct (mk_term_spec _ _ _ _ _ W Hmk Hb) as (? & _ & _ & ?).
Qed.


(** [internalize_eq] on any two expressions: once their terms are made,
    the merge runs to completion, the graph stays well formed and the two
    terms share a root. *)
Lemma internalize_eq_wf m g a1 a2 t1 g1 t2 g2 :
  wf g ->
  internalize_term m a1 g = Some (t1, g1) ->
  internalize_term m a2 g1 = Some (t2, g2) ->
  (Z.of_nat (num_terms g2) <= UINT_MAX)%Z ->
  exists fuel g',
    internalize_eq fuel m a1 a2 g = Some g' /\ wf g' /\
    get_root g' t1 = get_root g' t2.
Proof.
  intros W H1 H2 Hb.
  pose proof (internalize_term_num_terms _ _ _ _ _ H2) as Hmono.
  destruct (internalize_term_wf _ _ _ _ _ W H1) as [W1 Hg1]; [lia|].
  destruct (internalize_term_wf _ _ _ _ _ W1 H2 Hb) as [W2 Hg2].
  pose proof (wf_get_term _ _ _ W1 Hg1) as Ht1.
  pose proof (wf_get_term _ _ _ W2 Hg2) as Ht2.
  destruct (merge_wf t1 t2 g2 W2 ltac:(lia) Ht2) as (g3 & Hrun & W3 & Hc3 & Hsame & _).
  destruct (merge_flush_total (num_roots g3) g3 W3 (le_n _))
    as (fuel & g' & Hflush & W' & _ & Hc').
  exists fuel, g'. unfold internalize_eq. rewrite H1, H2, Hrun.
  split; [exact Hflush|]. split; [exact W'|].
  destruct Hc3 as [Hn3 _]. destruct Hc' as [_ Hc'].
  apply Hc'; [lia|lia|exact Hsame].
Qed.

Lemma wf_two_constants : wf two_constants.
Proof.
  unfold two_constants.
  destruct (mk_term no_values const_x empty_graph) as [[p1 g1]|] eqn:E1;
    [|apply wf_empty_graph].
  destruct (mk_term_num_terms _ _ _ _ _ E1) as [_ Hn1].
  destruct (mk_term_spec _ _ _ _ _ wf_empty_graph E1) as (W1 & _).
  { rewrite Hn1, UINT_MAX_eq. unfold num_terms. simpl. lia. }
  destruct (mk_term no_values const_y g1) as [[p2 g2]|] eqn:E2;
    [|apply wf_empty_graph].
  destruct (mk_term_num_terms _ _ _ _ _ E2) as [_ Hn2].
  destruct (mk_term_spec _ _ _ _ _ W1 E2) as (W2 & _); [|exact W2].
  rewrite Hn2, Hn1, UINT_MAX_eq. unfold num_terms. simpl. lia.
Qed.

Example two_constants_roots :
  get_root two_constants 0 = 0 /\ get_root two_constants 1 = 1 /\
  get_term two_constants const_x = Some 0 /\
  get_term two_constants const_y = Some 1.
Proof. repeat split. Qed.

Example two_constants_merged :
  (fun g => (get_root g 0, get_root g 1, get_class_size g 0, get_next g 0))
    <$> internalize_eq 0 no_values const_x const_y two_constants
  = Some (0, 0, 2%Z, 1).
Proof. vm_compute. reflexivity. Qed.

Lemma merge_is_union_witness :
  exists fuel g',
    internalize_eq fuel no_values const_x const_y two_constants = Some g' /\
    get_root g' 0 = get_root g' 1.
Proof.
  destruct (merge_is_union no_values two_constants const_x const_y 0 1
              wf_two_constants eq_refl eq_refl)
    as [(fuel & g' & Hrun & _ & Hsame & _) _].
  exists fuel, g'. split; assumption.
Defined.

(** After [add_eq(x, y)] the constants share a root.  The last loop of
    [merge] walks the parents of the surviving root, of which none is
    marked, so the applications [f(x)] and [f(y)] keep their own roots and
    [f(y)], a parent of the absorbed root, is left marked. *)
Example parents_after_merge :
  match graph_fx_fy_merged with
  | Some g =>
      match get_term g const_x, get_term g const_y,
            get_term g app_f_x, get_term g app_f_y with
      | Some tx, Some ty, Some tfx, Some tfy =>
          get_root g tx = get_root g ty /\
          get_root g tfx = tfx /\ get_root g tfy = tfy /\ tfx <> tfy /\
          is_marked g tfy = true /\ m_merge g = [] /\ m_cg_table g = []
      | _, _, _, _ => False
      end
  | None => False
  end.
Proof. vm_compute. repeat split; auto; discriminate. Qed.


(** *** The order of preference for roots *)

Section TermLt.

Variable m : ast_manager.
Variable get_num_exprs : expr -> Z.

Lemma get_num_args_nonneg t : (0 <= get_num_args t)%Z.
Proof. unfold get_num_args. lia. Qed.

(** A constant comes before an application. *)
Lemma term_lt_constant_application t1 t2 :
  get_num_args t1 = 0%Z -> (0 < get_num_args t2)%Z ->
  term_lt m get_num_exprs t1 t2 = true /\
  term_lt m get_num_exprs t2 t1 = false.
Proof.
  intros H1 H2. unfold term_lt. rewrite H1.
  assert ((get_num_args t2 =? 0)%Z = false) as E1 by (apply Z.eqb_neq; lia).
  assert ((0 =? get_num_args t2)%Z = false) as E2 by (apply Z.eqb_neq; lia).
  rewrite E1, E2, Z.eqb_refl. cbn [orb].
  split; [apply Z.ltb_lt; lia|apply Z.ltb_ge; lia].
Qed.

(** Among constants, one that is not a value comes before a value. *)
Lemma term_lt_uninterpreted_value t1 t2 :
  get_num_args t1 = 0%Z -> get_num_args t2 = 0%Z ->
  is_value m (m_expr t1) = false -> is_value m (m_expr t2) = true ->
  term_lt m get_num_exprs t1 t2 = true /\
  term_lt m get_num_exprs t2 t1 = false.
Proof.
  intros H1 H2 V1 V2. unfold term_lt.
  rewrite H1, H2, V1, V2, Z.eqb_refl. cbn [orb eqb]. auto.
Qed.

(** Among constants of the same kind, the smaller identifier comes first. *)
Lemma term_lt_constants_by_id t1 t2 :
  get_num_args t1 = 0%Z -> get_num_args t2 = 0%Z ->
  is_value m (m_expr t1) = is_value m (m_expr t2) ->
  term_lt m get_num_exprs t1 t2 = (get_id t1 <? get_id t2)%Z.
Proof.
  intros H1 H2 V. unfold term_lt. rewrite H1, H2, V, Z.eqb_refl. cbn [orb].
  now rewrite eqb_reflx.
Qed.

(** Between two applications [term_lt] compares the size of the first
    with itself, so neither comes before the other, whatever their sizes
    and identifiers. *)
Lemma term_lt_applications t1 t2 :
  (0 < get_num_args t1)%Z -> (0 < get_num_args t2)%Z ->
  term_lt m get_num_exprs t1 t2 = false.
Proof.
  intros H1 H2. unfold term_lt.
  assert ((get_num_args t1 =? 0)%Z = false) as E1 by (apply Z.eqb_neq; lia).
  assert ((get_num_args t2 =? 0)%Z = false) as E2 by (apply Z.eqb_neq; lia).
  rewrite E1, E2. cbn [orb]. apply Z.ltb_irrefl.
Qed.

End TermLt.

(** C8 at two applications. [f(a)] has two nodes and [g(a,b,c)] has four,
    yet [term_lt] puts neither before the other, and [pick_roots] leaves
    the larger [g(a,b,c)] as the root of the class of the two. *)
Theorem term_lt_ignores_size :
  (tree_size app_f_a < tree_size app_g_abc)%Z /\
  match graph_g_eq_f with
  | Some g =>
      match get_term g app_f_a, get_term g app_g_abc with
      | Some tf, Some tg =>
          term_lt no_values tree_size (get g tf) (get g tg) = false /\
          term_lt no_values tree_size (get g tg) (get g tf) = false /\
          get_root g tf = tg
      | _, _ => False
      end
  | None => False
  end /\
  root_of graph_g_eq_f_picked app_f_a = term_of graph_g_eq_f_picked app_g_abc /\
  root_of graph_g_eq_f_picked app_g_abc = term_of graph_g_eq_f_picked app_g_abc /\
  term_of graph_g_eq_f_picked app_g_abc <> None.
Proof.
  split; [reflexivity|]. split; [vm_compute; auto|].
  split; [reflexivity|]. split; [reflexivity|]. vm_compute. discriminate.
Qed.

(** *** Internalization *)

Lemma mk_term_app2term m a g p g' :
  mk_term m a g = Some (p, g') ->
  p = num_terms g /\ m_app2term g' = <[expr_id a := p]> (m_app2term g).
Proof.
  unfold mk_term. destruct (mapM _ _) as [kids|]; [|discriminate].
  intros [= <- <-]. split; [reflexivity|]. cbn [with_app2term m_app2term].
  f_equal.
  set (t := mk_term_record a _ _ _ _ _ _ _ kids).
  set (g1 := with_terms (m_terms g ++ [t]) g).
  assert (forall l g0, m_app2term
            (fold_left (fun g1 c => add_parent (get_root g1 c) (num_terms g) g1) l g0)
          = m_app2term g0) as Hfold.
  { induction l as [|c l IH]; intros g0; simpl; [reflexivity|]. now rewrite IH. }
  destruct (_ && _); cbn; now rewrite Hfold.
Qed.

Lemma mk_term_is_Some m a g :
  Forall (fun e => is_Some (get_term g e)) (expr_args a) ->
  is_Some (mk_term m a g).
Proof.
  intros H. unfold mk_term.
  destruct (mapM _ _) as [kids|] eqn:E; [eauto|].
  assert (is_Some (mapM (fun e => m_app2term g !! expr_id e) (expr_args a))) as [? Hs]
    by (apply mapM_is_Some; exact H).
  congruence.
Qed.

Lemma get_term_mk_term m a g p g' e :
  mk_term m a g = Some (p, g') ->
  is_Some (get_term g e) -> is_Some (get_term g' e).
Proof.
  intros Hmk He. apply mk_term_app2term in Hmk as [_ Hmap].
  unfold get_term in *. rewrite Hmap.
  destruct (decide (expr_id a = expr_id e)) as [Heq|Hne].
  - rewrite Heq, lookup_insert_eq. eauto.
  - now rewrite lookup_insert_ne.
Qed.

Lemma internalize_term_run m t :
  forall g, exists p g',
    internalize_term m t g = Some (p, g') /\
    get_term g' t = Some p /\
    (forall e, is_Some (get_term g e) -> is_Some (get_term g' e)) /\
    (get_term g t = None ->
     Forall (fun e => is_Some (get_term g' e)) (expr_args t)).
Proof.
  assert (Hnew : forall t g,
            get_term g t = None ->
            (exists g1, internalize_args m (expr_args t) g = Some g1 /\
               (forall e, is_Some (get_term g e) -> is_Some (get_term g1 e)) /\
               Forall (fun e => is_Some (get_term g1 e)) (expr_args t)) ->
            exists p g',
              internalize_term m t g = Some (p, g') /\
              get_term g' t = Some p /\
              (forall e, is_Some (get_term g e) -> is_Some (get_term g' e)) /\
              (get_term g t = None ->
               Forall (fun e => is_Some (get_term g' e)) (expr_args t))).
  { intros t0 g Hget (g1 & Hargs & Hmono & Hall).
    rewrite internalize_term_unfold, Hget, Hargs.
    destruct (get_term g1 t0) as [res|] eqn:Hget1.
    - exists res, g1. auto.
    - destruct (mk_term_is_Some m t0 g1 Hall) as [[p g'] Hmk].
      exists p, g'. split; [exact Hmk|].
      pose proof (mk_term_app2term _ _ _ _ _ Hmk) as [_ Hmap].
      split; [unfold get_term; rewrite Hmap; apply lookup_insert_eq|].
      split.
      + intros e He. eapply get_term_mk_term; eauto.
      + intros _. eapply Forall_impl; [exact Hall|].
        intros e He. eapply get_term_mk_term; eauto. }
  induction t as [id d args IH|id idx|id body _] using expr_nested_ind;
    intros g;
    (destruct (get_term g _) as [res|] eqn:Hget;
     [exists res, g;
      rewrite (internalize_term_internalized _ _ _ _ Hget);
      split; [reflexivity|]; split; [exact Hget|]; split; [auto|congruence]|]).
  - destruct (Hnew (e_app id d args) g Hget) as (p & g' & H1 & H2 & H3 & H4);
      [|exists p, g'; auto].
    cbn [expr_args]. clear Hget.
    induction IH as [|x l Hx _ IHl].
    + exists g. split; [reflexivity|]. split; [auto|constructor].
    + destruct IHl as (g2 & Hl & Hmono2 & Hall2).
      destruct (Hx g2) as (p & g3 & Hrun & Hget3 & Hmono3 & _).
      exists g3. split; [|split].
      * cbn. fold (internalize_args m l g). now rewrite Hl, Hrun.
      * auto.
      * constructor; [rewrite Hget3; eauto|].
        eapply Forall_impl; [exact Hall2|]. auto.
  - destruct (Hnew (e_var id idx) g Hget) as (p & g' & H1 & H2 & H3 & H4);
      [|exists p, g'; auto].
    exists g. split; [reflexivity|]. split; [auto|constructor].
  - destruct (Hnew (e_quantifier id body) g Hget) as (p & g' & H1 & H2 & H3 & H4);
      [|exists p, g'; auto].
    exists g. split; [reflexivity|]. split; [auto|constructor].
Qed.

(** X8. [internalize_term] never looks up the term of an argument that
    has none: on every graph and every expression it returns a term, the
    expression is registered under that term afterwards, so that a second
    call returns the same term and changes nothing; an expression that had a
    term keeps one, and when the expression was new every one of its
    arguments has a term afterwards. *)
Theorem internalize_term_total m t g :
  exists p g',
    internalize_term m t g = Some (p, g') /\
    get_term g' t = Some p /\
    internalize_term m t g' = Some (p, g') /\
    (forall e, is_Some (get_term g e) -> is_Some (get_term g' e)) /\
    (get_term g t = None ->
     Forall (fun e => is_Some (get_term g' e)) (expr_args t)).
Proof.
  destruct (internalize_term_run m t g) as (p & g' & Hrun & Hget & Hmono & Hargs).
  exists p, g'. split; [exact Hrun|]. split; [exact Hget|].
  split; [now apply internalize_term_internalized|]. split; assumption.
Qed.

Lemma internalize_term_total_witness :
  Forall (fun e => is_Some (get_term (snd (default (0, empty_graph)
            (internalize_term no_values app_g_abc empty_graph))) e))
    (expr_args app_g_abc).
Proof.
  destruct (internalize_term_total no_values app_g_abc empty_graph)
    as (p & g' & Hrun & _ & _ & _ & Hargs).
  rewrite Hrun. apply Hargs. reflexivity.
Defined.


Lemma extends_classes_refl g : extends_classes g g.
Proof. split; [lia|]. split; [auto|]. intros q Hq. lia. Qed.

Lemma extends_classes_trans g1 g2 g3 :
  extends_classes g1 g2 -> extends_classes g2 g3 -> extends_classes g1 g3.
Proof.
  intros (Hn1 & Hold1 & Hnew1) (Hn2 & Hold2 & Hnew2).
  split; [lia|]. split.
  - intros q Hq. destruct (Hold2 q ltac:(lia)) as (-> & -> & ->).
    now apply Hold1.
  - intros q Hq. destruct (decide (q < num_terms g2)) as [Hlt|Hge].
    + destruct (Hold2 q Hlt) as (-> & -> & ->). apply Hnew1. lia.
    + apply Hnew2. lia.
Qed.

Lemma mk_term_extends m a g p g' :
  mk_term m a g = Some (p, g') -> extends_classes g g'.
Proof.
  intros Hmk. pose proof (mk_term_num_terms _ _ _ _ _ Hmk) as [_ Hn].
  revert Hmk. unfold mk_term. destruct (mapM _ _) as [kids|]; [|discriminate].
  intros [= _ <-].
  set (t := mk_term_record a (num_terms g) (num_terms g) 1 false false false [] kids) in *.
  set (g1 := with_terms (m_terms g ++ [t]) g) in *.
  set (g2 := fold_left (fun g0 c => add_parent (get_root g0 c) (num_terms g) g0)
               kids g1) in *.
  set (g3 := if (get_num_args t =? 0)%Z && is_unique_value m a
             then mark_as_interpreted (num_terms g) g2 else g2) in *.
  assert (uf_eq g1 g3) as [_ H13].
  { apply (uf_eq_trans _ g2).
    - apply uf_eq_fold. intros. apply uf_eq_add_parent.
    - unfold g3. destruct (_ && _); [|apply uf_eq_refl].
      apply uf_eq_update_term; reflexivity. }
  set (g4 := with_app2term _ g3) in *.
  assert (forall q, get_root g4 q = get_root g1 q /\
                    get_next g4 q = get_next g1 q /\
                    get_class_size g4 q = get_class_size g1 q) as H14
    by (intros q; apply (H13 q)).
  split; [lia|]. split.
  - intros q Hq. destruct (H14 q) as (-> & -> & ->).
    unfold get_root, get_next, get_class_size, g1.
    now rewrite get_push_old.
  - intros q Hq. assert (q = num_terms g) as -> by lia.
    destruct (H14 (num_terms g)) as (-> & -> & ->).
    unfold get_root, get_next, get_class_size, g1.
    rewrite get_push_new; repeat split.
Qed.

Lemma internalize_term_extends m t :
  forall g p g', internalize_term m t g = Some (p, g') -> extends_classes g g'.
Proof.
  induction t as [id d args IH|id idx|id body _] using expr_nested_ind;
    intros g p g'; rewrite internalize_term_unfold;
    destruct (get_term g _) as [res|] eqn:Hget;
    try (intros [= <- <-]; apply extends_classes_refl); cbn [expr_args].
  - assert (forall g0 g1, internalize_args m args g0 = Some g1 ->
              extends_classes g0 g1) as Hargs.
    { clear g p g' Hget. induction IH as [|x l Hx _ IHl]; intros g0 g1; simpl.
      - intros [= <-]. apply extends_classes_refl.
      - fold (internalize_args m l g0).
        destruct (internalize_args m l g0) as [g2|] eqn:E; [|discriminate].
        destruct (internalize_term m x g2) as [[p g3]|] eqn:E'; [|discriminate].
        simpl. intros [= <-]. eapply extends_classes_trans; eauto. }
    destruct (internalize_args m args g) as [g1|] eqn:E; [|discriminate].
    apply Hargs in E.
    destruct (get_term g1 _) as [res|]; [intros [= <- <-]; exact E|].
    intros Hmk. eapply extends_classes_trans; [exact E|].
    eapply mk_term_extends; eauto.
  - simpl. rewrite Hget. apply mk_term_extends.
  - simpl. rewrite Hget. apply mk_term_extends.
Qed.

(** X9. [internalize_term] keeps the invariant of the graph and merges
    nothing: on a well-formed graph that stays within [UINT_MAX] terms, the
    graph it returns is well formed, every term that was there has the
    root, the successor and the class size it had, and every term that was
    added is the root of a class of its own, of size 1. *)
Theorem internalize_term_fresh_classes m t g p g' :
  wf g -> internalize_term m t g = Some (p, g') ->
  (Z.of_nat (num_terms g') <= UINT_MAX)%Z ->
  wf g' /\ p < num_terms g' /\ extends_classes g g'.
Proof.
  intros W Hrun Hb.
  destruct (internalize_term_wf _ _ _ _ _ W Hrun Hb) as [W' Hget].
  split; [exact W'|]. split; [eapply wf_get_term; eauto|].
  eapply internalize_term_extends; eauto.
Qed.

Lemma internalize_term_fresh_classes_witness :
  extends_classes empty_graph
    (snd (default (0, empty_graph)
            (internalize_term no_values app_g_abc empty_graph))).
Proof.
  set (run := default (0, empty_graph)
                (internalize_term no_values app_g_abc empty_graph)).
  assert (internalize_term no_values app_g_abc empty_graph
          = Some (run.1, run.2)) as Hrun by (vm_compute; reflexivity).
  apply (internalize_term_fresh_classes no_values app_g_abc empty_graph
           run.1 run.2 wf_empty_graph Hrun).
  vm_compute. discriminate.
Defined.


(** *** Pending merges *)

Lemma m_merge_update_term p f g : m_merge (update_term p f g) = m_merge g.
Proof. reflexivity. Qed.

Lemma m_merge_erase_parents b g : m_merge (erase_parents b g) = m_merge g.
Proof.
  unfold erase_parents. generalize (parents g b). intros l. revert g.
  induction l as [|p l IH]; intros g; simpl; [reflexivity|].
  rewrite IH. now destruct (is_marked g p).
Qed.

Lemma m_merge_reinsert_parent a g p :
  m_merge g `suffix_of` m_merge (reinsert_parent a g p).
Proof.
  unfold reinsert_parent. destruct (is_marked g p); [|reflexivity].
  unfold cg_insert_if_not_there.
  destruct (find _ _) as [e|]; cbn;
    (destruct (_ =? _)%Z; [reflexivity|apply suffix_cons_r; reflexivity]).
Qed.

Lemma m_merge_reinsert_parents a g :
  m_merge g `suffix_of` m_merge (reinsert_parents a g).
Proof.
  unfold reinsert_parents. generalize (parents g a). intros l. revert g.
  induction l as [|p l IH]; intros g; simpl; [reflexivity|].
  etrans; [apply (m_merge_reinsert_parent a g p)|apply IH].
Qed.

(** [merge] only adds to the queue of pending merges. *)
Lemma m_merge_merge t1 t2 g g' :
  merge t1 t2 g = Some g' -> m_merge g `suffix_of` m_merge g'.
Proof.
  unfold merge.
  assert (forall a b g0, merge_roots a b g0 = Some g' ->
            m_merge g0 `suffix_of` m_merge g') as Hroots.
  { intros a b g0. unfold merge_roots.
    destruct (set_root_ring _ _ _ _ _) as [g1|] eqn:E; [|discriminate].
    intros [= <-]. apply set_root_ring_aux in E as [_ (_ & _ & Hq & _)].
    destruct (merge_eq_class_aux a b g1) as [_ (_ & _ & Hq' & _)].
    etrans; [|apply m_merge_reinsert_parents].
    rewrite Hq', Hq. unfold set_root. rewrite m_merge_update_term.
    now rewrite m_merge_erase_parents. }
  destruct (_ =? _); [intros [= <-]; reflexivity|].
  destruct (_ >? _)%Z; intros H; apply Hroots in H; exact H.
Qed.

Lemma merge_flush_pairs k :
  forall g, wf g -> num_roots g <= k ->
    exists fuel g',
      merge_flush fuel g = Some g' /\ wf g' /\ m_merge g' = [] /\
      coarser g g' /\
      (forall x y, (x, y) ∈ m_merge g -> get_root g' x = get_root g' y).
Proof.
  induction k as [k IHk] using lt_wf_ind. intros g.
  remember (length (m_merge g)) as len eqn:Hlen.
  revert g Hlen. induction len as [|len IHlen]; intros g Hlen W Hk.
  - exists 0, g. simpl. destruct (m_merge g); [|discriminate].
    split; [reflexivity|]. split; [exact W|]. split; [reflexivity|].
    split; [apply coarser_refl|]. intros x y H. now apply elem_of_nil in H.
  - destruct (m_merge g) as [|[t1 t2] rest] eqn:Hq; [discriminate|].
    assert (wf (with_merge rest g)) as Wpop
      by (eapply wf_pop_merge; eauto).
    assert (forall x y, (x, y) ∈ (t1, t2) :: rest ->
              x < num_terms g /\ y < num_terms g) as Hvalid.
    { destruct W as [_ (_ & _ & Wq & _)]. intros x y H. apply Wq.
      now rewrite Hq. }
    destruct (Hvalid t1 t2 ltac:(left)) as [H1 H2].
    destruct (merge_wf t1 t2 (with_merge rest g) Wpop H1 H2)
      as (g1 & Hrun & W1 & Hc1 & Hsame & Hmeasure).
    pose proof (m_merge_merge _ _ _ _ Hrun) as Hsuffix.
    assert (exists fuel g',
              merge_flush fuel g1 = Some g' /\ wf g' /\ m_merge g' = [] /\
              coarser g1 g' /\
              (forall x y, (x, y) ∈ m_merge g1 ->
                 get_root g' x = get_root g' y))
      as (fuel & g' & Hflush & W' & Hq' & Hc' & Hpairs).
    { destruct Hmeasure as [Hlt|[Heq Hqeq]].
      - apply (IHk (num_roots g1)); [|exact W1|lia].
        change (num_roots (with_merge rest g)) with (num_roots g) in Hlt. lia.
      - apply IHlen; [|exact W1|].
        + rewrite Hqeq. simpl in *. lia.
        + rewrite Heq. exact Hk. }
    exists (S fuel), g'. simpl. rewrite Hq, Hrun.
    split; [exact Hflush|]. split; [exact W'|]. split; [exact Hq'|].
    split.
    + eapply coarser_trans; [|exact Hc'].
      destruct Hc1 as [Hn Hc1]. split; [exact Hn|exact Hc1].
    + intros x y Hin. apply elem_of_cons in Hin as [[= -> ->]|Hin].
      * destruct Hc1 as [Hn1 _]. destruct Hc' as [_ Hc']. apply Hc'.
        -- rewrite Hn1. exact H1.
        -- rewrite Hn1. exact H2.
        -- exact Hsame.
      * apply Hpairs. destruct Hsuffix as [added ->].
        apply elem_of_app. right. exact Hin.
Qed.

(** X10. [merge_flush] carries out every pending merge: on a well-formed
    graph, whatever pairs are pending, it terminates with an empty queue
    and a well-formed graph in which the two terms of every pair that was
    pending share a root, and terms that shared a root still do. *)
Theorem merge_flush_carries_out g :
  wf g ->
  exists fuel g',
    merge_flush fuel g = Some g' /\
    (forall fuel', fuel <= fuel' -> merge_flush fuel' g = Some g') /\
    wf g' /\ m_merge g' = [] /\ coarser g g' /\
    (forall x y, (x, y) ∈ m_merge g -> get_root g' x = get_root g' y).
Proof.
  intros W.
  destruct (merge_flush_pairs (num_roots g) g W (le_n _))
    as (fuel & g' & Hrun & W' & Hq & Hc & Hpairs).
  exists fuel, g'. split; [exact Hrun|]. split; [|auto].
  intros fuel' Hle. eapply merge_flush_fuel_mono; eauto.
Qed.

Lemma merge_flush_carries_out_witness :
  exists fuel g',
    merge_flush fuel (with_merge [(0, 1)] two_constants) = Some g' /\
    get_root g' 0 = get_root g' 1.
Proof.
  assert (wf (with_merge [(0, 1)] two_constants)) as W.
  { destruct wf_two_constants as [Wc Wp]. split.
    - apply (wf_classes_uf_eq two_constants); [apply uf_eq_with_merge|exact Wc].
    - apply (wf_pointers_push_merge 0 1 two_constants);
        [vm_compute; lia|vm_compute; lia|exact Wp]. }
  destruct (merge_flush_carries_out _ W)
    as (fuel & g' & Hrun & _ & _ & _ & _ & Hpairs).
  exists fuel, g'. split; [exact Hrun|]. apply Hpairs. now left.
Defined.


(** *** The keys of the congruence table *)

Lemma forallb_zip_eq (f : ptr -> Z) (l1 l2 : list ptr) :
  length l1 = length l2 ->
  forallb (fun cs => (f cs.1 =? f cs.2)%Z) (zip l1 l2) = true
  <-> f <$> l1 = f <$> l2.
Proof.
  revert l2. induction l1 as [|x l1 IH]; intros [|y l2] Hlen;
    try discriminate; [simpl; tauto|].
  rewrite !fmap_cons. cbn [zip_with forallb fst snd].
  rewrite andb_true_iff, Z.eqb_eq, IH by (simpl in Hlen; lia).
  split; [intros [-> ->]; reflexivity|intros [= -> ->]; auto].
Qed.

Lemma cg_eq_true g t1 t2 :
  cg_eq g t1 t2 = true
  <-> get_decl_id (get g t1) = get_decl_id (get g t2) /\
      root_id g <$> children g t1 = root_id g <$> children g t2.
Proof.
  unfold cg_eq. rewrite !andb_true_iff, Z.eqb_eq, Nat.eqb_eq. split.
  - intros [[Hd Hlen] Hall]. split; [exact Hd|].
    now apply (forallb_zip_eq (root_id g)).
  - intros [Hd Hmap].
    assert (length (children g t1) = length (children g t2)) as Hlen
      by (rewrite <- (length_fmap (root_id g)), Hmap; apply length_fmap).
    split; [split; assumption|]. now apply (forallb_zip_eq (root_id g)).
Qed.

(** X11. [cg_eq], the equality of the congruence table, is an equivalence
    on the terms of a graph: it holds of every term and itself, it is
    symmetric and it is transitive. *)
Theorem cg_eq_equivalence g :
  (forall t, cg_eq g t t = true) /\
  (forall t1 t2, cg_eq g t1 t2 = true -> cg_eq g t2 t1 = true) /\
  (forall t1 t2 t3,
     cg_eq g t1 t2 = true -> cg_eq g t2 t3 = true -> cg_eq g t1 t3 = true).
Proof.
  split; [|split].
  - intros t. now apply cg_eq_true.
  - intros t1 t2. rewrite !cg_eq_true. intros [-> ->]. auto.
  - intros t1 t2 t3. rewrite !cg_eq_true. intros [-> ->] [-> ->]. auto.
Qed.

Section HashFacts.

Variable mix : Z * Z * Z -> Z * Z * Z.

Lemma get_hash_root_ids g t :
  get_hash mix g t
  = (fold_left (fun abc a => mix (a, abc.1.2, abc.2))
       (root_id g <$> children g t)
       (get_decl_id (get g t), get_decl_id (get g t), get_decl_id (get g t))).2.
Proof.
  unfold get_hash. cbn zeta. f_equal.
  generalize (get_decl_id (get g t), get_decl_id (get g t), get_decl_id (get g t)).
  induction (children g t) as [|c l IH]; intros abc; [reflexivity|].
  cbn. apply IH.
Qed.

(** X12. The hash of the congruence table agrees with its equality: two
    terms that [cg_eq] holds of have the same [get_hash], whatever the
    mixing step is. *)
Theorem get_hash_cg_eq g t1 t2 :
  cg_eq g t1 t2 = true -> get_hash mix g t1 = get_hash mix g t2.
Proof.
  rewrite cg_eq_true. intros [Hd Hkids].
  now rewrite !get_hash_root_ids, Hd, Hkids.
Qed.

End HashFacts.


Lemma cg_eq_equivalence_witness :
  cg_eq (default empty_graph graph_fx_fy_merged) 3 1 = true.
Proof.
  apply (cg_eq_equivalence (default empty_graph graph_fx_fy_merged)).
  vm_compute. reflexivity.
Defined.

Lemma get_hash_cg_eq_witness :
  get_hash (fun abc => (abc.1.1 + abc.2, abc.1.2 + abc.1.1, abc.2 + abc.1.2)%Z)
    (default empty_graph graph_fx_fy_merged) 1
  = get_hash (fun abc => (abc.1.1 + abc.2, abc.1.2 + abc.1.1, abc.2 + abc.1.2)%Z)
      (default empty_graph graph_fx_fy_merged) 3.
Proof. apply get_hash_cg_eq. vm_compute. reflexivity. Defined.


(** *** The test for the variables to eliminate *)

Lemma set_decls_fields decls exclude v :
  m_exclude (set_decls decls exclude v) = exclude /\
  m_solved (set_decls decls exclude v) = ∅ /\
  forall k, k ∈ m_decls (set_decls decls exclude v)
            <-> exists d, d ∈ decls /\ decl_id d = k.
Proof.
  unfold set_decls, is_variable_reset. cbn [m_decls m_solved].
  assert (forall l v0,
            let v1 := fold_left
              (fun v d => mk_is_variable_proc (m_exclude v)
                            ({[decl_id d]} ∪ m_decls v) (m_solved v)) l v0 in
            m_exclude v1 = m_exclude v0 /\ m_solved v1 = m_solved v0 /\
            forall k, k ∈ m_decls v1
                      <-> k ∈ m_decls v0 \/ exists d, d ∈ l /\ decl_id d = k) as H.
  { induction l as [|d l IH]; intros v0; cbn zeta.
    - split; [reflexivity|]. split; [reflexivity|]. intros k. split; [auto|].
      intros [H|(d & Hd & _)]; [exact H|now apply elem_of_nil in Hd].
    - cbn [fold_left]. destruct (IH (mk_is_variable_proc (m_exclude v0)
                 ({[decl_id d]} ∪ m_decls v0) (m_solved v0))) as (He & Hs & Hd).
      split; [exact He|]. split; [exact Hs|]. intros k. rewrite Hd.
      cbn [m_decls]. rewrite elem_of_union, elem_of_singleton. split.
      + intros [[->|H]|(d' & Hin & Hk)]; [right; exists d; split; [left|reflexivity]
          |now left|right; exists d'; split; [now right|exact Hk]].
      + intros [H|(d' & Hin & Hk)]; [left; now right|].
        apply elem_of_cons in Hin as [->|Hin]; [left; left; now symmetry|].
        right. eauto. }
  destruct (H decls (mk_is_variable_proc exclude ∅ ∅)) as (He & Hs & Hd).
  split; [exact He|]. split; [exact Hs|]. intros k. rewrite Hd. cbn [m_decls].
  split; [intros [H0|H0]; [now apply elem_of_empty in H0|exact H0]|auto].
Qed.

(** X13. After [set_decls decls exclude], an application of an
    uninterpreted symbol is a variable exactly when [exclude] says whether
    its declaration is among [decls]; an expression that is not an
    application, or whose symbol belongs to a theory, is never a variable;
    and as long as no symbol is marked solved the test on terms agrees with
    the test on the expressions of the terms. *)
Theorem set_decls_spec decls exclude v0 :
  let v := set_decls decls exclude v0 in
  (forall id d args,
     decl_family_id d = null_family_id ->
     (is_variable_expr v (e_app id d args) = true
      <-> (exclude = true <-> exists d', d' ∈ decls /\ decl_id d' = decl_id d))) /\
  (forall w e,
     match e with
     | e_app _ d _ => decl_family_id d <> null_family_id
     | _ => True
     end -> is_variable_expr w e = false) /\
  (forall t, is_variable_term v t = is_variable_expr v (m_expr t)).
Proof.
  intros v. destruct (set_decls_fields decls exclude v0) as (He & Hs & Hd).
  fold v in He, Hs, Hd. split; [|split].
  - intros id d args Hfam. cbn [is_variable_expr]. rewrite Hfam, Z.eqb_refl.
    cbn [negb]. rewrite Hs, He.
    rewrite bool_decide_eq_false_2 by apply not_elem_of_empty.
    rewrite <- Hd. destruct exclude; cbn [eqb];
      destruct (bool_decide (decl_id d ∈ m_decls v)) eqn:E;
      [apply bool_decide_eq_true in E|apply bool_decide_eq_false in E
      |apply bool_decide_eq_true in E|apply bool_decide_eq_false in E];
      intuition congruence.
  - intros w [id d args|id idx|id body] H; [|reflexivity|reflexivity].
    cbn [is_variable_expr].
    now rewrite (proj2 (Z.eqb_neq _ _) H).
  - intros t. unfold is_variable_term, is_theory, get_decl_id.
    destruct (m_expr t) as [id d args|id idx|id body]; [|reflexivity|reflexivity].
    cbn [is_variable_expr]. rewrite Hs.
    rewrite (bool_decide_eq_false_2 (decl_id d ∈ ∅)) by apply not_elem_of_empty.
    now destruct (decl_family_id d =? null_family_id)%Z.
Qed.

Lemma set_decls_spec_witness :
  is_variable_expr (set_decls [mk_func_decl 10 (-1)] true
                      (mk_is_variable_proc false ∅ ∅)) const_x = true.
Proof.
  apply (set_decls_spec [mk_func_decl 10 (-1)] true
           (mk_is_variable_proc false ∅ ∅)); [reflexivity|].
  split; [|reflexivity]. intros _. exists (mk_func_decl 10 (-1)).
  split; [left|reflexivity].
Defined.

(** X14. [mark_solved] takes its expression out of the variables and
    touches no other symbol: afterwards the expression is not a variable,
    the test on an application of any other symbol answers as before, and
    the tables of declarations and the flag are as they were; the test on
    terms does not look at the solved marks, and [reset_solved] undoes every
    [mark_solved]. *)
Theorem mark_solved_spec v e :
  is_variable_expr (mark_solved e v) e = false /\
  (forall id d args,
     match e with e_app _ d0 _ => decl_id d <> decl_id d0 | _ => True end ->
     is_variable_expr (mark_solved e v) (e_app id d args)
     = is_variable_expr v (e_app id d args)) /\
  (forall t, is_variable_term (mark_solved e v) t = is_variable_term v t) /\
  reset_solved (mark_solved e v) = reset_solved v.
Proof.
  unfold mark_solved.
  destruct (is_variable_expr v e) eqn:Hvar; [|split; [exact Hvar|auto]].
  destruct e as [id0 d0 args0|id0 idx0|id0 body0]; try discriminate.
  split; [|split; [|split]]; try reflexivity.
  - cbn [is_variable_expr m_solved]. destruct (negb _); [reflexivity|].
    rewrite bool_decide_eq_true_2; [reflexivity|].
    apply elem_of_union. left. now apply elem_of_singleton.
  - intros id d args Hne. cbn [is_variable_expr m_solved m_exclude m_decls].
    destruct (negb _); [reflexivity|].
    rewrite (bool_decide_ext (decl_id d ∈ {[decl_id d0]} ∪ m_solved v)
               (decl_id d ∈ m_solved v)); [reflexivity|].
    rewrite elem_of_union, elem_of_singleton. tauto.
Qed.

Lemma mark_solved_spec_witness :
  is_variable_expr
    (mark_solved const_x (set_decls [mk_func_decl 10 (-1); mk_func_decl 11 (-1)]
                            true (mk_is_variable_proc false ∅ ∅))) const_y
  = true.
Proof.
  destruct (mark_solved_spec
              (set_decls [mk_func_decl 10 (-1); mk_func_decl 11 (-1)] true
                 (mk_is_variable_proc false ∅ ∅)) const_x) as (_ & Hother & _).
  unfold const_y. rewrite Hother; [reflexivity|]. simpl. lia.
Defined.


(** *** The order of preference is a strict partial order *)

Section TermLtOrder.

Variable m : ast_manager.
Variable get_num_exprs : expr -> Z.

Local Abbreviation term_lt := (term_lt m get_num_exprs).

(** [term_lt] compares kinds first and, among constants of one kind,
    identifiers. *)
Lemma term_lt_kind t1 t2 :
  term_lt t1 t2 = true
  <-> (kind m t1 < kind m t2
       \/ (kind m t1 = kind m t2 /\ kind m t1 < 2 /\ get_id t1 < get_id t2))%Z.
Proof.
  unfold TermGraph.term_lt, kind.
  pose proof (get_num_args_nonneg t1) as H1.
  pose proof (get_num_args_nonneg t2) as H2.
  destruct (Z.eqb_spec (get_num_args t1) 0) as [E1|E1],
    (Z.eqb_spec (get_num_args t2) 0) as [E2|E2]; cbn [orb].
  - rewrite E1, E2, Z.eqb_refl.
    destruct (is_value m (m_expr t1)), (is_value m (m_expr t2)); cbn [eqb];
      rewrite ?Z.ltb_lt; split; try lia; try discriminate; auto.
  - rewrite E1. replace (0 =? get_num_args t2)%Z with false
      by (symmetry; apply Z.eqb_neq; lia).
    replace (0 <? get_num_args t2)%Z with true by (symmetry; apply Z.ltb_lt; lia).
    destruct (is_value m (m_expr t1)); split; auto; lia.
  - rewrite E2. replace (get_num_args t1 =? 0)%Z with false
      by (symmetry; apply Z.eqb_neq; lia).
    replace (get_num_args t1 <? 0)%Z with false by (symmetry; apply Z.ltb_ge; lia).
    destruct (is_value m (m_expr t2)); split; try discriminate; lia.
  - rewrite Z.ltb_irrefl. split; [discriminate|lia].
Qed.

(** X15. [term_lt], as it is coded, is a strict partial order on terms
    whatever the size function is: no term comes before itself, and the
    order is transitive, hence asymmetric. *)
Theorem term_lt_strict_order :
  (forall t, term_lt t t = false) /\
  (forall t1 t2 t3,
     term_lt t1 t2 = true -> term_lt t2 t3 = true -> term_lt t1 t3 = true) /\
  (forall t1 t2, term_lt t1 t2 = true -> term_lt t2 t1 = false).
Proof.
  split; [|split].
  - intros t. apply not_true_iff_false. rewrite term_lt_kind. lia.
  - intros t1 t2 t3. rewrite !term_lt_kind. lia.
  - intros t1 t2 H. apply not_true_iff_false. revert H.
    rewrite !term_lt_kind. lia.
Qed.

End TermLtOrder.

Lemma term_lt_strict_order_witness :
  term_lt no_values tree_size
    (mk_term_record const_a 0 0 1 false false false [] [])
    (mk_term_record app_f_a 1 1 1 false false false [] [0]) = true.
Proof.
  destruct (term_lt_strict_order no_values tree_size) as (_ & Htrans & _).
  apply (Htrans _ (mk_term_record const_b 0 0 1 false false false [] []));
    reflexivity.
Defined.


(** *** Making a term the root of its class *)

Lemma same_exprs_refl g : same_exprs g g.
Proof. intros p. reflexivity. Qed.

Lemma same_exprs_trans g1 g2 g3 :
  same_exprs g1 g2 -> same_exprs g2 g3 -> same_exprs g1 g3.
Proof. intros H1 H2 p. now rewrite H2, H1. Qed.

Lemma same_exprs_update_term p f g :
  (forall t, m_expr (f t) = m_expr t) -> same_exprs g (update_term p f g).
Proof. intros Hf q. now apply get_update_term_field. Qed.

Lemma mk_root_loop_unfold fuel this c g :
  mk_root_loop (S fuel) this c g
  = let g1 := mk_root_step this c g in
    if get_next g1 c =? this then Some g1
    else mk_root_loop fuel this (get_next g1 c) g1.
Proof. reflexivity. Qed.

Lemma get_class_size_set_root p r g q :
  get_class_size (set_root p r g) q = get_class_size g q.
Proof. unfold get_class_size, set_root. now apply get_update_term_field. Qed.

Lemma get_next_set_root p r g q : get_next (set_root p r g) q = get_next g q.
Proof. unfold get_next, set_root. now apply get_update_term_field. Qed.

Lemma get_next_set_class_size p sz g q :
  get_next (set_class_size p sz g) q = get_next g q.
Proof. unfold get_next, set_class_size. now apply get_update_term_field. Qed.

Lemma get_root_set_class_size p sz g q :
  get_root (set_class_size p sz g) q = get_root g q.
Proof. unfold get_root, set_class_size. now apply get_update_term_field. Qed.

(** What one round of the loop of [mk_root] does. *)
Lemma mk_root_step_spec this c g :
  let g' := mk_root_step this c g in
  num_terms g' = num_terms g /\
  (forall p, get_next g' p = get_next g p) /\
  (forall p, get_root g' p
             = if decide (c = p /\ c < num_terms g) then this else get_root g p) /\
  (forall p, get_class_size g' p
             = if is_root g c
               then if decide (c = p /\ c < num_terms g) then 0%Z
                    else if decide (this = p /\ this < num_terms g)
                         then get_class_size g c
                         else get_class_size g p
               else get_class_size g p) /\
  aux_eq g g' /\ same_exprs g g'.
Proof.
  unfold mk_root_step. destruct (is_root g c).
  - split; [unfold set_root, set_class_size; now rewrite !num_terms_update_term|].
    split; [intros p; now rewrite get_next_set_root, !get_next_set_class_size|].
    split.
    { intros p. rewrite get_root_set_root.
      unfold set_class_size. rewrite !num_terms_update_term.
      destruct (decide _); [reflexivity|].
      fold (set_class_size this (get_class_size g c) g).
      fold (set_class_size c 0%Z (set_class_size this (get_class_size g c) g)).
      now rewrite !get_root_set_class_size. }
    split.
    { intros p. rewrite get_class_size_set_root.
      rewrite !get_class_size_set_class_size.
      unfold set_class_size. rewrite num_terms_update_term. reflexivity. }
    split.
    + eapply aux_eq_trans; [|apply aux_eq_update_term; reflexivity].
      eapply aux_eq_trans; apply aux_eq_update_term; reflexivity.
    + eapply same_exprs_trans; [|apply same_exprs_update_term; reflexivity].
      eapply same_exprs_trans; apply same_exprs_update_term; reflexivity.
  - split; [unfold set_root; now rewrite num_terms_update_term|].
    split; [intros p; now rewrite get_next_set_root|].
    split; [intros p; now rewrite get_root_set_root|].
    split; [intros p; now rewrite get_class_size_set_root|].
    split; [apply aux_eq_update_term|apply same_exprs_update_term]; reflexivity.
Qed.

(** The loop of [mk_root] makes one round for each term on the walk. *)
Lemma mk_root_loop_fold this :
  forall todo curr g fuel,
    todo <> [] -> path g curr todo this -> this ∉ tail todo ->
    length todo <= fuel ->
    mk_root_loop fuel this curr g
    = Some (fold_left (fun g c => mk_root_step this c g) todo g).
Proof.
  induction todo as [|c rest IH]; intros curr g fuel Hne Hpath Hnotin Hfuel;
    [contradiction|].
  destruct Hpath as [-> Hpath]. destruct fuel as [|fuel]; [simpl in Hfuel; lia|].
  rewrite mk_root_loop_unfold. cbn zeta.
  destruct (mk_root_step_spec this c g) as (_ & Hnext & _).
  rewrite Hnext. cbn [fold_left]. destruct rest as [|c2 rest].
  - simpl in Hpath. rewrite Hpath, Nat.eqb_refl. reflexivity.
  - pose proof Hpath as [Hc2 _]. cbn [tail] in Hnotin.
    assert (c2 <> this) as Hc2ne
      by (intros ->; apply Hnotin; apply list_elem_of_here).
    rewrite Hc2 in Hpath |- *. rewrite (proj2 (Nat.eqb_neq _ _) Hc2ne).
    apply IH; [discriminate| | |simpl in *; lia].
    + eapply path_ext; [|exact Hpath]. intros z _. apply Hnext.
    + cbn [tail]. intros Hin. apply Hnotin. now apply list_elem_of_further.
Qed.

(** Rounds at terms that are not roots only set root pointers. *)
Lemma mk_root_steps_nonroots this :
  forall l g,
    NoDup l -> (forall z, z ∈ l -> z < num_terms g /\ get_root g z <> z) ->
    let g' := fold_left (fun g c => mk_root_step this c g) l g in
    num_terms g' = num_terms g /\
    (forall p, get_next g' p = get_next g p) /\
    (forall p, get_root g' p = if decide (p ∈ l) then this else get_root g p) /\
    (forall p, get_class_size g' p = get_class_size g p) /\
    aux_eq g g' /\ same_exprs g g'.
Proof.
  induction l as [|c l IH]; intros g Hnd Hl; cbn zeta.
  - split; [reflexivity|]. split; [reflexivity|]. split.
    { intros p. destruct (decide (p ∈ [])) as [H|_]; [|reflexivity].
      now apply elem_of_nil in H. }
    split; [reflexivity|]. split; [apply aux_eq_refl|apply same_exprs_refl].
  - apply NoDup_cons in Hnd as [Hc Hnd].
    destruct (Hl c ltac:(left)) as [Hcn Hcr].
    destruct (mk_root_step_spec this c g) as (Hn1 & Hnext1 & Hroot1 & Hsize1 & Ha1 & He1).
    assert (is_root g c = false) as Hnr
      by (unfold is_root; now apply Nat.eqb_neq).
    rewrite Hnr in Hsize1. cbn [fold_left].
    destruct (IH (mk_root_step this c g) Hnd) as (Hn & Hnext & Hroot & Hsize & Ha & He).
    { intros z Hz. rewrite Hn1, Hroot1.
      destruct (Hl z ltac:(now right)) as [Hzn Hzr]. split; [exact Hzn|].
      destruct (decide _) as [[-> _]|_]; [contradiction|exact Hzr]. }
    split; [now rewrite Hn, Hn1|].
    split; [intros p; now rewrite Hnext, Hnext1|].
    split.
    { intros p. rewrite Hroot, Hroot1.
      destruct (decide (p ∈ l)) as [Hin|Hnin].
      - rewrite decide_True by (now right). reflexivity.
      - destruct (decide (c = p /\ c < num_terms g)) as [[-> _]|Hno].
        + rewrite decide_True by (now left). reflexivity.
        + rewrite decide_False; [reflexivity|].
          intros Hin. apply elem_of_cons in Hin as [->|Hin]; [|contradiction].
          apply Hno. auto. }
    split; [intros p; now rewrite Hsize, Hsize1|].
    split; [eapply aux_eq_trans; eauto|eapply same_exprs_trans; eauto].
Qed.


Section Rerooted.

Variables (g g' : term_graph) (this r : ptr) (l1 l2 : list ptr).
Hypothesis Hwf : wf_classes g.
Hypothesis Hcls : class_of g r (l1 ++ this :: l2).
Hypothesis Hn : num_terms g' = num_terms g.
Hypothesis Hroot :
  forall p, get_root g' p
            = if decide (p ∈ r :: l1 ++ this :: l2) then this else get_root g p.
Hypothesis Hnext : forall p, get_next g' p = get_next g p.
Hypothesis Hsize :
  forall p, get_class_size g' p
            = if decide (p = this) then get_class_size g r
              else if decide (p = r) then 0%Z else get_class_size g p.

Lemma rerooted_this : this < num_terms g /\ get_root g this = r /\ this <> r.
Proof.
  assert (this ∈ r :: l1 ++ this :: l2) as Hin.
  { right. apply elem_of_app. right. left. }
  apply (class_members _ _ _ Hcls) in Hin as [Hlt Hr].
  split; [exact Hlt|]. split; [exact Hr|].
  pose proof (class_nodup _ _ _ Hcls) as Hnd.
  apply NoDup_cons in Hnd as [Hnotin _]. intros ->. apply Hnotin.
  apply elem_of_app. right. left.
Qed.

Lemma rerooted_not_root p : p < num_terms g -> get_root g p <> this.
Proof.
  intros Hp Heq. destruct Hwf as (_ & Hroots & _).
  destruct (Hroots p Hp) as [_ Hidem]. rewrite Heq in Hidem.
  destruct rerooted_this as (_ & Hr & Hne). congruence.
Qed.

Lemma rerooted_root p :
  p < num_terms g ->
  get_root g' p = if decide (get_root g p = r) then this else get_root g p.
Proof.
  intros Hp. rewrite Hroot.
  destruct (decide (p ∈ r :: l1 ++ this :: l2)) as [Hin|Hnin].
  - apply (class_members _ _ _ Hcls) in Hin as [_ Hr].
    now rewrite decide_True.
  - rewrite decide_False; [reflexivity|]. intros Hr. apply Hnin.
    apply (class_members _ _ _ Hcls). auto.
Qed.

Lemma rerooted_class : class_of g' this (l2 ++ r :: l1).
Proof.
  destruct rerooted_this as (Hlt & Hr & Hne).
  assert (r :: l1 ++ this :: l2 ≡ₚ this :: l2 ++ r :: l1) as Hperm
    by apply (Permutation_app_comm (r :: l1) (this :: l2)).
  constructor.
  - unfold ring. rewrite Hnext.
    apply (path_ext g); [intros; apply Hnext|].
    pose proof (class_ring _ _ _ Hcls) as Hring. unfold ring in Hring.
    apply path_app in Hring as [H1 H2]. apply path_app. auto.
  - rewrite <- Hperm. apply (class_nodup _ _ _ Hcls).
  - intros p. rewrite <- Hperm, Hn, Hroot.
    destruct (decide (p ∈ r :: l1 ++ this :: l2)) as [Hin|Hnin].
    + split; [|auto]. intros _. split; [|reflexivity].
      now apply (class_members _ _ _ Hcls) in Hin as [? _].
    + split; [contradiction|]. intros [Hp Heq].
      now apply rerooted_not_root in Heq.
  - rewrite Hsize, decide_True by reflexivity.
    rewrite (class_size_eq _ _ _ Hcls). rewrite !length_app. simpl. lia.
Qed.

Lemma rerooted_other r' l' :
  r' <> r -> r' < num_terms g -> get_root g r' = r' ->
  class_of g r' l' -> class_of g' r' l'.
Proof.
  intros Hne Hlt Hrr C. constructor.
  - unfold ring. rewrite Hnext.
    apply (path_ext g); [intros; apply Hnext|]. apply (class_ring _ _ _ C).
  - apply (class_nodup _ _ _ C).
  - intros p. rewrite (class_members _ _ _ C), Hn. split.
    + intros [Hp Hr]. split; [exact Hp|]. rewrite rerooted_root by exact Hp.
      rewrite decide_False by congruence. exact Hr.
    + intros [Hp Hr]. split; [exact Hp|]. rewrite rerooted_root in Hr by exact Hp.
      destruct (decide (get_root g p = r)) as [_|_]; [|exact Hr].
      subst r'. now apply rerooted_not_root in Hrr.
  - rewrite Hsize. rewrite decide_False.
    + rewrite decide_False by exact Hne. apply (class_size_eq _ _ _ C).
    + intros ->. destruct rerooted_this as (_ & Hr & Hne'). congruence.
Qed.

Lemma rerooted_wf_classes : wf_classes g'.
Proof.
  pose proof Hwf as (Hbound & Hroots & Hclasses).
  destruct rerooted_this as (Hlt & Hr & Hne).
  split; [rewrite Hn; exact Hbound|]. split.
  - intros p Hp. rewrite Hn in *. rewrite (rerooted_root p Hp).
    destruct (decide (get_root g p = r)) as [Hpr|Hpr].
    + split; [exact Hlt|]. rewrite (rerooted_root this Hlt).
      now rewrite decide_True.
    + destruct (Hroots p Hp) as [Hv Hidem]. split; [exact Hv|].
      rewrite (rerooted_root _ Hv). rewrite Hidem.
      now rewrite decide_False.
  - intros r' Hr' Hrr'. rewrite Hn in Hr'.
    rewrite (rerooted_root r' Hr') in Hrr'.
    destruct (decide (get_root g r' = r)) as [Hpr|Hpr].
    + subst r'. exists (l2 ++ r :: l1). apply rerooted_class.
    + destruct (Hclasses r' Hr' Hrr') as [l' C]. exists l'.
      apply rerooted_other; auto. congruence.
Qed.

Lemma rerooted_same_classes : same_classes g g'.
Proof.
  split; [exact Hn|]. intros p q Hp Hq.
  rewrite (rerooted_root p Hp), (rerooted_root q Hq).
  pose proof (rerooted_not_root p Hp). pose proof (rerooted_not_root q Hq).
  destruct (decide (get_root g p = r)), (decide (get_root g q = r));
    split; congruence.
Qed.

End Rerooted.


(** [mk_root] on a term that is not the root of its class. *)
Lemma mk_root_reroot this g :
  wf_classes g -> this < num_terms g -> get_root g this <> this ->
  exists g' l1 l2,
    class_of g (get_root g this) (l1 ++ this :: l2) /\
    mk_root this g = Some g' /\
    num_terms g' = num_terms g /\
    (forall p, get_root g' p
               = if decide (p ∈ get_root g this :: l1 ++ this :: l2) then this
                 else get_root g p) /\
    (forall p, get_next g' p = get_next g p) /\
    (forall p, get_class_size g' p
               = if decide (p = this) then get_class_size g (get_root g this)
                 else if decide (p = get_root g this) then 0%Z
                 else get_class_size g p) /\
    aux_eq g g' /\ same_exprs g g'.
Proof.
  intros Wc Hthis Hnr. pose proof Wc as (_ & Hroots & Hclasses).
  set (r := get_root g this) in *.
  destruct (Hroots this Hthis) as [Hr Hrr]. fold r in Hr, Hrr.
  destruct (Hclasses r Hr Hrr) as [l C].
  assert (this ∈ l) as Hin.
  { assert (this ∈ r :: l) as H by (apply (class_members _ _ _ C); auto).
    apply elem_of_cons in H as [H|H]; [congruence|exact H]. }
  apply list_elem_of_split in Hin as (l1 & l2 & ->).
  pose proof (class_nodup _ _ _ C) as Hnd.
  assert (Hmem : forall z, z ∈ r :: l1 ++ this :: l2 ->
            z < num_terms g /\ get_root g z = r)
    by (intros z; apply (class_members _ _ _ C)).
  apply NoDup_cons in Hnd as [Hrnotin Hnd].
  apply NoDup_app in Hnd as (Hnd1 & Hdisj & Hnd2).
  pose proof Hnd2 as Hnd2'. apply NoDup_cons in Hnd2' as [Hthis2 _].
  pose proof (class_ring _ _ _ C) as Hring. unfold ring in Hring.
  apply path_app in Hring as [Hp1 Hp2].
  assert (mk_root this g
          = Some (fold_left (fun g c => mk_root_step this c g)
                    ((this :: l2) ++ r :: l1) g)) as Hrun.
  { unfold mk_root. unfold is_root. fold r.
    rewrite (proj2 (Nat.eqb_neq _ _) Hnr).
    apply mk_root_loop_fold.
    - discriminate.
    - split; [reflexivity|]. apply path_app. auto.
    - cbn [app tail]. intros H. apply elem_of_app in H as [H|H];
        [contradiction|].
      apply elem_of_cons in H as [H|H]; [congruence|].
      apply (Hdisj this H). left.
    - pose proof (class_of_length _ _ _ C) as Hlen.
      rewrite !length_app in *. simpl in *. lia. }
  rewrite fold_left_app in Hrun. cbn [fold_left] in Hrun.
  set (ga := fold_left (fun g c => mk_root_step this c g) (this :: l2) g) in *.
  destruct (mk_root_steps_nonroots this (this :: l2) g Hnd2)
    as (Hna & Hnexta & Hroota & Hsizea & Haa & Hea).
  { intros z Hz. assert (z ∈ r :: l1 ++ this :: l2) as Hz'.
    { right. apply elem_of_app. now right. }
    destruct (Hmem z Hz') as [Hzn Hzr]. split; [exact Hzn|].
    rewrite Hzr. intros ->. apply Hrnotin. apply elem_of_app. now right. }
  fold ga in Hna, Hnexta, Hroota, Hsizea, Haa, Hea.
  assert (r ∉ this :: l2) as Hr2
    by (intros H; apply Hrnotin; apply elem_of_app; now right).
  destruct (mk_root_step_spec this r ga)
    as (Hnb & Hnextb & Hrootb & Hsizeb & Hab & Heb).
  set (gb := mk_root_step this r ga) in *.
  assert (is_root ga r = true) as Hisroot.
  { unfold is_root. rewrite Hroota, decide_False by exact Hr2.
    rewrite Hrr. apply Nat.eqb_refl. }
  rewrite Hisroot in Hsizeb.
  destruct (mk_root_steps_nonroots this l1 gb Hnd1)
    as (Hnc & Hnextc & Hrootc & Hsizec & Hac & Hec).
  { intros z Hz. assert (z ∈ r :: l1 ++ this :: l2) as Hz'.
    { right. apply elem_of_app. now left. }
    destruct (Hmem z Hz') as [Hzn Hzr]. rewrite Hnb, Hna. split; [exact Hzn|].
    rewrite Hrootb, Hroota.
    assert (z <> r) as Hzr'
      by (intros ->; apply Hrnotin; apply elem_of_app; now left).
    rewrite decide_False by (intros [? _]; congruence).
    rewrite decide_False by (intros H; apply (Hdisj z Hz H)).
    congruence. }
  set (gc := fold_left (fun g c => mk_root_step this c g) l1 gb) in *.
  exists gc, l1, l2. split; [exact C|]. split; [exact Hrun|].
  split; [now rewrite Hnc, Hnb, Hna|].
  split.
  { intros p. rewrite Hrootc, Hrootb, Hroota, Hna.
    destruct (decide (p ∈ l1)) as [H1|H1].
    - rewrite decide_True; [reflexivity|]. right. apply elem_of_app. now left.
    - destruct (decide (r = p /\ r < num_terms g)) as [[<- _]|Hnr'].
      + rewrite decide_True by (now left). reflexivity.
      + destruct (decide (p ∈ this :: l2)) as [H2|H2].
        * rewrite decide_True; [reflexivity|]. right. apply elem_of_app.
          now right.
        * rewrite decide_False; [reflexivity|]. intros H.
          apply elem_of_cons in H as [->|H]; [apply Hnr'; auto|].
          apply elem_of_app in H as [H|H]; contradiction. }
  split; [intros p; now rewrite Hnextc, Hnextb, Hnexta|].
  split.
  { intros p. rewrite Hsizec, Hsizeb, !Hsizea, Hna.
    destruct (decide (p = this)) as [->|Hpt].
    - rewrite decide_False by (intros [? _]; congruence).
      now rewrite decide_True.
    - destruct (decide (p = r)) as [->|Hpr].
      + now rewrite decide_True.
      + rewrite decide_False by (intros [? _]; congruence).
        rewrite decide_False by (intros [? _]; congruence). reflexivity. }
  split; [eapply aux_eq_trans; [exact Haa|eapply aux_eq_trans; eauto]|].
  eapply same_exprs_trans; [exact Hea|eapply same_exprs_trans; eauto].
Qed.

(** What [mk_root] does on a well-formed graph. *)
Lemma mk_root_run this g :
  wf g -> this < num_terms g ->
  exists g',
    mk_root this g = Some g' /\ wf g' /\ same_classes g g' /\
    (forall p, p < num_terms g -> get_root g p = get_root g this ->
       get_root g' p = this) /\
    (forall p, p < num_terms g -> get_root g p <> get_root g this ->
       get_root g' p = get_root g p) /\
    get_class_size g' this = get_class_size g (get_root g this) /\
    (forall p, get_next g' p = get_next g p) /\
    same_exprs g g'.
Proof.
  intros [Wc Wp] Hthis.
  destruct (decide (get_root g this = this)) as [Hroot|Hnr].
  - exists g. unfold mk_root, is_root. rewrite Hroot, Nat.eqb_refl.
    split; [reflexivity|]. split; [split; assumption|].
    split; [split; [reflexivity|tauto]|].
    split; [intros p _ Hp; exact Hp|]. split; [auto|].
    split; [reflexivity|]. split; [reflexivity|apply same_exprs_refl].
  - destruct (mk_root_reroot this g Wc Hthis Hnr)
      as (g' & l1 & l2 & C & Hrun & Hn & Hroot & Hnext & Hsize & Ha & He).
    exists g'. split; [exact Hrun|].
    split; [split|].
    { eapply rerooted_wf_classes; eauto. }
    { eapply wf_pointers_aux_eq; eauto. }
    split; [eapply rerooted_same_classes; eauto|].
    split.
    { intros p Hp Hpr. rewrite (rerooted_root g g' this _ l1 l2 C Hroot p Hp).
      now rewrite decide_True. }
    split.
    { intros p Hp Hpr. rewrite (rerooted_root g g' this _ l1 l2 C Hroot p Hp).
      now rewrite decide_False. }
    split; [rewrite Hsize; now rewrite decide_True|].
    split; assumption.
Qed.

(** X16. [mk_root] makes its term the root of the class the term is in
    and changes nothing else: on a well-formed graph it terminates, the
    graph stays well formed, the classes are the same sets of terms, every
    member of the class of the term points to the term as its root and the
    term carries the class size; the other classes keep their roots, and
    the rings and the expressions are untouched. *)
Theorem mk_root_spec this g :
  wf g -> this < num_terms g ->
  exists g',
    mk_root this g = Some g' /\ wf g' /\ same_classes g g' /\
    (forall p, p < num_terms g -> get_root g p = get_root g this ->
       get_root g' p = this) /\
    (forall p, p < num_terms g -> get_root g p <> get_root g this ->
       get_root g' p = get_root g p) /\
    get_class_size g' this = get_class_size g (get_root g this) /\
    (forall p, get_next g' p = get_next g p) /\
    same_exprs g g'.
Proof.
  intros W Hthis.
  destruct (mk_root_run this g W Hthis)
    as (g' & Hrun & W' & Hsame & Hin & Hout & Hsize & Hnext & He).
  exists g'. split; [exact Hrun|]. split; [exact W'|]. split; [exact Hsame|].
  split; [exact Hin|]. split; [exact Hout|]. split; [exact Hsize|].
  split; assumption.
Qed.


Lemma wf_two_constants_merged_graph : wf two_constants_merged_graph.
Proof.
  destruct (merge_wf 0 1 two_constants wf_two_constants)
    as (g1 & Hrun & W1 & _); [vm_compute; lia|vm_compute; lia|].
  unfold two_constants_merged_graph. rewrite Hrun. exact W1.
Qed.

Lemma mk_root_spec_witness :
  get_root (default empty_graph (mk_root 1 two_constants_merged_graph)) 0 = 1.
Proof.
  destruct (mk_root_spec 1 two_constants_merged_graph
              wf_two_constants_merged_graph)
    as (g' & Hrun & _ & _ & Hto & _); [vm_compute; lia|].
  rewrite Hrun. apply Hto; vm_compute; [lia|reflexivity].
Defined.

(** **** Marks *)

Lemma is_marked_update_term p f g q :
  (forall t, m_mark (f t) = m_mark t) ->
  is_marked (update_term p f g) q = is_marked g q.
Proof. intros Hf. unfold is_marked. now apply get_update_term_field. Qed.

Lemma is_marked_set_mark z v g p :
  is_marked (set_mark z v g) p
  = if decide (z = p /\ z < num_terms g) then v else is_marked g p.
Proof.
  unfold is_marked, set_mark. rewrite get_update_term.
  destruct (decide _); reflexivity.
Qed.

Lemma is_marked_mk_root_step this c g p :
  is_marked (mk_root_step this c g) p = is_marked g p.
Proof.
  unfold mk_root_step, set_root, set_class_size.
  destruct (is_root g c); now rewrite !is_marked_update_term.
Qed.

Lemma is_marked_mk_root_loop this fuel :
  forall c g g',
    mk_root_loop fuel this c g = Some g' ->
    forall p, is_marked g' p = is_marked g p.
Proof.
  induction fuel as [|fuel IH]; intros c g g'; [discriminate|].
  rewrite mk_root_loop_unfold. cbn zeta.
  destruct (_ =? _).
  - intros [= <-] p. apply is_marked_mk_root_step.
  - intros H p. rewrite (IH _ _ _ H). apply is_marked_mk_root_step.
Qed.

Lemma is_marked_mk_root this g g' :
  mk_root this g = Some g' -> forall p, is_marked g' p = is_marked g p.
Proof.
  unfold mk_root. destruct (is_root g this); [now intros [= <-]|].
  apply is_marked_mk_root_loop.
Qed.


(** *** Picking roots *)

Section Select.

Variable lt : ptr -> ptr -> bool.
Hypothesis lt_irrefl : forall x, lt x x = false.
Hypothesis lt_trans :
  forall x y z, lt x y = true -> lt y z = true -> lt x z = true.

Lemma lt_asym x y : lt x y = true -> lt y x = false.
Proof.
  intros H. destruct (lt y x) eqn:E; [|reflexivity].
  rewrite <- (lt_irrefl x). symmetry. eapply lt_trans; eauto.
Qed.

Lemma select_root_min l :
  forall r,
    select_root lt l r ∈ r :: l /\
    (lt (select_root lt l r) r = true \/ select_root lt l r = r) /\
    (forall x, x ∈ l -> lt x (select_root lt l r) = false).
Proof.
  unfold select_root.
  induction l as [|it l IH]; intros r; cbn [fold_left].
  - split; [left|]. split; [now right|]. intros x H. now apply elem_of_nil in H.
  - destruct (IH (if lt it r then it else r)) as (Hin & Hbelow & Hmin).
    set (sel := fold_left _ l _) in *.
    destruct (lt it r) eqn:E.
    + split; [now right|]. split.
      * destruct Hbelow as [H| ->]; [left; eapply lt_trans; eauto|now left].
      * intros x Hx. apply elem_of_cons in Hx as [->|Hx]; [|now apply Hmin].
        destruct Hbelow as [H| ->]; [now apply lt_asym|apply lt_irrefl].
    + split.
      { apply elem_of_cons in Hin as [->|Hin]; [left|right; now right]. }
      split; [exact Hbelow|].
      intros x Hx. apply elem_of_cons in Hx as [->|Hx]; [|now apply Hmin].
      destruct Hbelow as [H| ->]; [|exact E].
      destruct (lt it sel) eqn:E'; [|reflexivity].
      rewrite <- E. symmetry. eapply lt_trans; eauto.
Qed.

Lemma select_root_minimal l r x :
  x ∈ r :: l -> lt x (select_root lt l r) = false.
Proof.
  destruct (select_root_min l r) as (_ & Hbelow & Hmin).
  intros Hx. apply elem_of_cons in Hx as [->|Hx]; [|now apply Hmin].
  destruct Hbelow as [H| ->]; [now apply lt_asym|apply lt_irrefl].
Qed.

End Select.


Section PickRoot.

Variable m : ast_manager.
Variable get_num_exprs : expr -> Z.

Local Abbreviation term_lt := (term_lt m get_num_exprs).
Local Abbreviation pick_root_loop := (pick_root_loop m get_num_exprs).
Local Abbreviation pick_root := (pick_root m get_num_exprs).
Local Abbreviation pick_roots := (pick_roots m get_num_exprs).

(** [term_lt] on the terms that two pointers point to. *)
Let ltg (g : term_graph) (x y : ptr) : bool := term_lt (get g x) (get g y).

Lemma term_lt_same_expr t1 t1' t2 t2' :
  m_expr t1' = m_expr t1 -> m_expr t2' = m_expr t2 ->
  term_lt t1' t2' = term_lt t1 t2.
Proof.
  intros H1 H2. unfold TermGraph.term_lt, get_num_args, get_id.
  now rewrite H1, H2.
Qed.

Lemma ltg_same_exprs g g' x y : same_exprs g g' -> ltg g' x y = ltg g x y.
Proof. intros He. unfold ltg. apply term_lt_same_expr; apply He. Qed.

Lemma ltg_irrefl g x : ltg g x x = false.
Proof. apply not_true_iff_false. unfold ltg. rewrite term_lt_kind. lia. Qed.

Lemma ltg_trans g x y z :
  ltg g x y = true -> ltg g y z = true -> ltg g x z = true.
Proof. unfold ltg. rewrite !term_lt_kind. lia. Qed.

Lemma select_root_ext (lt lt' : ptr -> ptr -> bool) l r :
  (forall x y, lt' x y = lt x y) -> select_root lt' l r = select_root lt l r.
Proof.
  intros H. unfold select_root. revert r.
  induction l as [|it l IH]; intros r; cbn [fold_left]; [reflexivity|].
  now rewrite H, IH.
Qed.

Lemma same_exprs_set_mark p v g : same_exprs g (set_mark p v g).
Proof. apply same_exprs_update_term. reflexivity. Qed.

Lemma aux_eq_set_mark p v g : aux_eq g (set_mark p v g).
Proof. apply aux_eq_update_term. reflexivity. Qed.

(** The loop of [pick_root] walks the ring once, selects a term and
    changes marks only. *)
Lemma pick_root_loop_spec t :
  forall l it r g fuel,
    path g it l t -> t ∉ l -> length l <= fuel ->
    exists g',
      pick_root_loop fuel t it r g = Some (select_root (ltg g) l r, g') /\
      uf_eq g g' /\ aux_eq g g' /\ same_exprs g g'.
Proof.
  induction l as [|z l IH]; intros it r g fuel Hpath Hnotin Hfuel.
  - simpl in Hpath. subst it. exists g.
    split; [destruct fuel; simpl; now rewrite Nat.eqb_refl|].
    split; [apply uf_eq_refl|]. split; [apply aux_eq_refl|apply same_exprs_refl].
  - destruct Hpath as [-> Hpath].
    assert (z <> t) as Hzt by (intros ->; apply Hnotin; left).
    destruct fuel as [|fuel]; [simpl in Hfuel; lia|].
    cbn [TermGraph.pick_root_loop]. rewrite (proj2 (Nat.eqb_neq _ _) Hzt).
    set (g1 := set_mark z true g).
    assert (uf_eq g g1) as Hu by apply uf_eq_set_mark.
    assert (same_exprs g g1) as He by apply same_exprs_set_mark.
    destruct (IH (get_next g1 z)
                (if term_lt (get g1 z) (get g1 r) then z else r) g1 fuel)
      as (g' & Hrun & Hu' & Ha' & He').
    { pose proof Hu as [_ Hu0]. destruct (Hu0 z) as (_ & -> & _).
      eapply path_uf_eq; [exact Hu|exact Hpath]. }
    { intros H. apply Hnotin. now right. }
    { simpl in Hfuel. lia. }
    exists g'. split; [|split; [|split]].
    + rewrite Hrun. f_equal. f_equal.
      rewrite (select_root_ext (ltg g) (ltg g1))
        by (intros; now apply ltg_same_exprs).
      unfold select_root. cbn [fold_left]. fold (ltg g1 z r).
      now rewrite (ltg_same_exprs g g1) by exact He.
    + eapply uf_eq_trans; eauto.
    + eapply aux_eq_trans; [apply aux_eq_set_mark|exact Ha'].
    + eapply same_exprs_trans; eauto.
Qed.

Lemma same_classes_refl g : same_classes g g.
Proof. split; [reflexivity|tauto]. Qed.

Lemma same_classes_trans g1 g2 g3 :
  same_classes g1 g2 -> same_classes g2 g3 -> same_classes g1 g3.
Proof.
  intros [Hn1 H1] [Hn2 H2]. split; [congruence|].
  intros p q Hp Hq. rewrite <- H1 by assumption.
  apply H2; rewrite Hn1; assumption.
Qed.

Lemma same_classes_uf_eq g g' : uf_eq g g' -> same_classes g g'.
Proof.
  intros [Hn H]. split; [exact Hn|]. intros p q _ _.
  destruct (H p) as (-> & _), (H q) as (-> & _). tauto.
Qed.

(** What [pick_root] does on the root [t] of a class of a well-formed
    graph; [r] is the root that it picks. *)
Lemma pick_root_run t g :
  wf g -> t < num_terms g -> get_root g t = t ->
  exists g' r,
    pick_root t g = Some g' /\ wf g' /\ same_classes g g' /\
    same_exprs g g' /\ r < num_terms g /\ get_root g r = t /\
    (forall x, x < num_terms g -> get_root g x = t ->
       get_root g' x = r /\ ltg g x r = false) /\
    (forall x, x < num_terms g -> get_root g x <> t ->
       get_root g' x = get_root g x).
Proof.
  intros [Wc Wp] Ht Hroot. pose proof Wc as (_ & _ & Hclasses).
  destruct (Hclasses t Ht Hroot) as [l C].
  pose proof (class_nodup _ _ _ C) as Hnd.
  apply NoDup_cons in Hnd as [Hnotin _].
  destruct (pick_root_loop_spec t l (get_next g t) t g (num_terms g))
    as (g1 & Hloop & Hu & Ha & He).
  { apply (class_ring _ _ _ C). }
  { exact Hnotin. }
  { pose proof (class_of_length _ _ _ C). lia. }
  set (r := select_root (ltg g) l t) in *.
  destruct (select_root_min (ltg g) (ltg_irrefl g) (ltg_trans g) l t)
    as (Hin & _). fold r in Hin.
  pose proof (select_root_minimal (ltg g) (ltg_irrefl g) (ltg_trans g) l t)
    as Hmin. fold r in Hmin.
  apply (class_members _ _ _ C) in Hin as [Hr Hrt].
  pose proof Hu as [Hn1 Hu1].
  assert (wf g1) as W1.
  { split; [eapply wf_classes_uf_eq; eauto|eapply wf_pointers_aux_eq; eauto]. }
  assert (forall x, x < num_terms g -> get_root g x = t -> ltg g x r = false)
    as Hmin'.
  { intros x Hx Hxt. apply Hmin. apply (class_members _ _ _ C). auto. }
  unfold TermGraph.pick_root. rewrite Hloop.
  destruct (Nat.eqb_spec r t) as [Heq|Hne].
  - exists g1, r. split; [reflexivity|]. split; [exact W1|].
    split; [now apply same_classes_uf_eq|]. split; [exact He|].
    split; [exact Hr|]. split; [exact Hrt|]. split.
    + intros x Hx Hxt. destruct (Hu1 x) as (-> & _).
      split; [congruence|now apply Hmin'].
    + intros x _ _. now destruct (Hu1 x) as (-> & _).
  - destruct (mk_root_run r g1 W1) as
        (g' & Hrun & W' & Hsame & Hto & Hother & _ & _ & He');
      [rewrite Hn1; exact Hr|].
    assert (get_root g1 r = t) as Hr1
      by (destruct (Hu1 r) as (-> & _); exact Hrt).
    exists g', r. split; [exact Hrun|]. split; [exact W'|].
    split; [eapply same_classes_trans; [apply same_classes_uf_eq|]; eauto|].
    split; [eapply same_exprs_trans; eauto|].
    split; [exact Hr|]. split; [exact Hrt|]. split.
    + intros x Hx Hxt. split; [|now apply Hmin'].
      apply Hto; [rewrite Hn1; exact Hx|].
      destruct (Hu1 x) as (-> & _). congruence.
    + intros x Hx Hxt. rewrite Hother.
      * now destruct (Hu1 x) as (-> & _).
      * rewrite Hn1. exact Hx.
      * destruct (Hu1 x) as (-> & _). congruence.
Qed.

(** X17. [pick_root] on the root of a class of a well-formed graph makes
    a member that is minimal in the order of preference the root: it
    terminates, the graph stays well formed with the same classes and
    expressions, every member of the class points to one member as root,
    no member comes before that root in [term_lt], so that the root is a
    constant if the class holds one and is not a value if the class holds a
    constant that is none, and the other classes keep their roots. *)
Theorem pick_root_spec t g :
  wf g -> t < num_terms g -> get_root g t = t ->
  exists g',
    pick_root t g = Some g' /\ wf g' /\ same_classes g g' /\
    same_exprs g g' /\
    get_root g (get_root g' t) = t /\
    (forall x, x < num_terms g -> get_root g x = t ->
       get_root g' x = get_root g' t /\
       term_lt (get g' x) (get g' (get_root g' t)) = false /\
       (kind m (get g' (get_root g' t)) <= kind m (get g' x))%Z) /\
    (forall x, x < num_terms g -> get_root g x <> t ->
       get_root g' x = get_root g x).
Proof.
  intros W Ht Hroot.
  destruct (pick_root_run t g W Ht Hroot)
    as (g' & r & Hrun & W' & Hsame & He & Hr & Hrt & Hin & Hout).
  destruct (Hin t Ht Hroot) as [Htr _].
  exists g'. split; [exact Hrun|]. split; [exact W'|]. split; [exact Hsame|].
  split; [exact He|]. rewrite Htr. split; [exact Hrt|].
  split; [|exact Hout].
  intros x Hx Hxt. destruct (Hin x Hx Hxt) as [Hxr Hlt].
  split; [exact Hxr|].
  assert (term_lt (get g' x) (get g' r) = false) as Hlt'.
  { rewrite <- Hlt. apply (ltg_same_exprs g g' x r He). }
  split; [exact Hlt'|].
  apply not_true_iff_false in Hlt'. rewrite term_lt_kind in Hlt'.
  destruct (Z.le_gt_cases (kind m (get g' r)) (kind m (get g' x)));
    [assumption|]. exfalso. apply Hlt'. lia.
Qed.

Lemma get_reset_marks_field {A} (proj : term -> A) g p :
  (forall t, proj (with_mark false t) = proj t) ->
  proj (get (reset_marks g) p) = proj (get g p).
Proof.
  intros Hf. unfold get, reset_marks. cbn [m_terms with_terms].
  rewrite !list_lookup_total_alt, list_lookup_fmap.
  destruct (m_terms g !! p); [apply Hf|reflexivity].
Qed.

Lemma wf_reset_marks g : wf g -> wf (reset_marks g).
Proof.
  intros [Wc Wp].
  assert (num_terms (reset_marks g) = num_terms g) as Hn
    by (unfold num_terms, reset_marks; cbn; apply length_fmap).
  split.
  - apply (wf_classes_uf_eq g); [|exact Wc]. split; [exact Hn|].
    intros p. unfold get_root, get_next, get_class_size.
    repeat split; now apply get_reset_marks_field.
  - apply (wf_pointers_aux_eq g); [exact Hn| |exact Wp].
    split; [|repeat split]. intros p. unfold parents.
    now apply get_reset_marks_field.
Qed.

Lemma is_marked_reset_marks g p : is_marked (reset_marks g) p = false.
Proof.
  unfold is_marked, get, reset_marks. cbn [m_terms with_terms].
  rewrite list_lookup_total_alt, list_lookup_fmap.
  now destruct (m_terms g !! p).
Qed.

Lemma pick_roots_fold (l : list ptr) :
  forall g,
    wf g -> (forall t, t ∈ l -> t < num_terms g) ->
    exists g',
      fold_left
        (fun og t =>
           match og with
           | None => None
           | Some g =>
               if negb (is_marked g t) && is_root g t then pick_root t g
               else Some g
           end) l (Some g) = Some g' /\
      wf g' /\ same_classes g g' /\ same_exprs g g'.
Proof.
  induction l as [|t l IH]; intros g W Hl; cbn [fold_left].
  - exists g. split; [reflexivity|]. split; [exact W|].
    split; [apply same_classes_refl|apply same_exprs_refl].
  - assert (exists g1,
              (if negb (is_marked g t) && is_root g t then pick_root t g
               else Some g) = Some g1 /\
              wf g1 /\ same_classes g g1 /\ same_exprs g g1)
      as (g1 & -> & W1 & Hs1 & He1).
    { destruct (negb (is_marked g t) && is_root g t) eqn:E.
      - apply andb_true_iff in E as [_ E]. unfold is_root in E.
        apply Nat.eqb_eq in E.
        destruct (pick_root_run t g W (Hl t ltac:(left)) E)
          as (g1 & r & Hrun & W1 & Hs1 & He1 & _).
        exists g1. auto.
      - exists g. split; [reflexivity|]. split; [exact W|].
        split; [apply same_classes_refl|apply same_exprs_refl]. }
    destruct (IH g1 W1) as (g' & Hrun & W' & Hs' & He').
    { intros t' Ht'. destruct Hs1 as [-> _]. apply Hl. now right. }
    exists g'. split; [exact Hrun|]. split; [exact W'|].
    split; [eapply same_classes_trans; eauto|eapply same_exprs_trans; eauto].
Qed.

(** X18. [pick_roots] changes the representatives of the classes and
    nothing else: on a well-formed graph it terminates, the graph stays
    well formed, two terms share a root afterwards exactly when they did
    before, the expressions of the terms are the same, and no term is left
    marked. *)
Theorem pick_roots_spec g :
  wf g ->
  exists g',
    pick_roots g = Some g' /\ wf g' /\ same_classes g g' /\
    same_exprs g g' /\ (forall p, is_marked g' p = false).
Proof.
  intros W. unfold TermGraph.pick_roots.
  destruct (pick_roots_fold (seq 0 (num_terms g)) g W)
    as (g1 & -> & W1 & Hs1 & He1).
  { intros t Ht. apply elem_of_seq in Ht. lia. }
  exists (reset_marks g1). split; [reflexivity|].
  split; [now apply wf_reset_marks|]. split; [|split].
  - eapply same_classes_trans; [exact Hs1|]. split.
    + unfold num_terms, reset_marks. cbn. apply length_fmap.
    + intros p q _ _. unfold get_root.
      rewrite !(get_reset_marks_field m_root) by reflexivity. tauto.
  - intros p. rewrite <- He1. now apply get_reset_marks_field.
  - apply is_marked_reset_marks.
Qed.


(** The loop of [pick_root] marks the terms it walks over. *)
Lemma pick_root_loop_marks t :
  forall l it r g fuel r' g',
    path g it l t -> t ∉ l -> (forall z, z ∈ l -> z < num_terms g) ->
    pick_root_loop fuel t it r g = Some (r', g') ->
    forall p, is_marked g' p = if decide (p ∈ l) then true else is_marked g p.
Proof.
  induction l as [|z l IH]; intros it r g fuel r' g' Hpath Hnotin Hvalid Hrun p.
  - simpl in Hpath. subst it.
    assert (g' = g) as ->.
    { destruct fuel; simpl in Hrun; rewrite Nat.eqb_refl in Hrun; congruence. }
    rewrite decide_False; [reflexivity|]. apply not_elem_of_nil.
  - destruct Hpath as [-> Hpath].
    assert (z <> t) as Hzt by (intros ->; apply Hnotin; left).
    destruct fuel as [|fuel];
      cbn [TermGraph.pick_root_loop] in Hrun;
      rewrite (proj2 (Nat.eqb_neq _ _) Hzt) in Hrun; [discriminate|].
    set (g1 := set_mark z true g) in *.
    assert (uf_eq g g1) as Hu by apply uf_eq_set_mark.
    pose proof Hu as [Hn1 Hu1].
    assert (is_marked g' p
            = if decide (p ∈ l) then true else is_marked g1 p) as ->.
    { eapply IH; [| | |exact Hrun].
      - destruct (Hu1 z) as (_ & -> & _).
        eapply path_uf_eq; [exact Hu|exact Hpath].
      - intros H. apply Hnotin. now right.
      - intros z' Hz'. rewrite Hn1. apply Hvalid. now right. }
    unfold g1. rewrite is_marked_set_mark.
    destruct (decide (p ∈ l)) as [Hin|Hnin].
    + rewrite decide_True by (now right). reflexivity.
    + destruct (decide (z = p /\ z < num_terms g)) as [[-> _]|Hno].
      * rewrite decide_True by (now left). reflexivity.
      * rewrite decide_False; [reflexivity|]. intros H.
        apply elem_of_cons in H as [->|H]; [|contradiction].
        apply Hno. split; [reflexivity|]. apply Hvalid. now left.
Qed.

(** [pick_root] marks the members of the class other than the root it was
    called on. *)
Lemma pick_root_marks t g g' :
  wf g -> t < num_terms g -> get_root g t = t ->
  pick_root t g = Some g' ->
  forall p, is_marked g' p
            = if decide (p < num_terms g /\ get_root g p = t /\ p <> t)
              then true else is_marked g p.
Proof.
  intros [Wc Wp] Ht Hroot Hrun p. pose proof Wc as (_ & _ & Hclasses).
  destruct (Hclasses t Ht Hroot) as [l C].
  pose proof (class_nodup _ _ _ C) as Hnd.
  apply NoDup_cons in Hnd as [Hnotin _].
  assert (Hl : forall z, z ∈ l <-> z < num_terms g /\ get_root g z = t /\ z <> t).
  { intros z. split.
    - intros Hz. assert (z ∈ t :: l) as Hz' by (now right).
      apply (class_members _ _ _ C) in Hz' as [? ?].
      split; [assumption|]. split; [assumption|]. intros ->. contradiction.
    - intros (Hz & Hzr & Hzt).
      assert (z ∈ t :: l) as Hz' by (apply (class_members _ _ _ C); auto).
      apply elem_of_cons in Hz' as [?|?]; [contradiction|assumption]. }
  destruct (pick_root_loop_spec t l (get_next g t) t g (num_terms g))
    as (g1 & Hloop & _).
  { apply (class_ring _ _ _ C). }
  { exact Hnotin. }
  { pose proof (class_of_length _ _ _ C). lia. }
  assert (forall q, is_marked g1 q = if decide (q ∈ l) then true else is_marked g q)
    as Hmarks1.
  { eapply pick_root_loop_marks; [apply (class_ring _ _ _ C)|exact Hnotin| |exact Hloop].
    intros z Hz. now apply Hl in Hz as [? _]. }
  unfold TermGraph.pick_root in Hrun. rewrite Hloop in Hrun.
  assert (is_marked g' p = is_marked g1 p) as ->.
  { destruct (_ =? _); [now injection Hrun as <-|].
    eapply is_marked_mk_root; eauto. }
  rewrite Hmarks1. destruct (decide (p ∈ l)) as [Hin|Hnin].
  - rewrite decide_True by (now apply Hl). reflexivity.
  - rewrite decide_False; [reflexivity|]. intros H. apply Hnin. now apply Hl.
Qed.

(** The state of [pick_roots] before it looks at the term [i]: the class
    of a root either has been dealt with, so that no member comes before
    the root and every member but the term it was dealt with at is marked,
    or it has not, and then none of its members is marked and its root is
    yet to come. *)
Let picked (i : nat) (g : term_graph) : Prop :=
  forall rho, rho < num_terms g -> get_root g rho = rho ->
    ((forall x, x < num_terms g -> get_root g x = rho -> ltg g x rho = false) /\
     exists t0, t0 < i /\ t0 < num_terms g /\ get_root g t0 = rho /\
       forall x, x < num_terms g -> get_root g x = rho -> x <> t0 ->
         is_marked g x = true)
    \/ ((forall x, x < num_terms g -> get_root g x = rho ->
           is_marked g x = false) /\ i <= rho).

Lemma picked_skip i g :
  picked i g -> negb (is_marked g i) && is_root g i = false -> picked (S i) g.
Proof.
  intros Hinv Hcond rho Hrho Hroot.
  destruct (Hinv rho Hrho Hroot) as [(Hmin & t0 & Ht0 & Hrest)|[Hfresh Hle]].
  - left. split; [exact Hmin|]. exists t0. split; [lia|exact Hrest].
  - right. split; [exact Hfresh|].
    destruct (decide (rho = i)) as [->|Hne]; [|lia].
    rewrite (Hfresh i Hrho Hroot) in Hcond. unfold is_root in Hcond.
    rewrite Hroot, Nat.eqb_refl in Hcond. discriminate.
Qed.

Lemma picked_pick i g g' :
  wf g -> picked i g -> i < num_terms g ->
  is_marked g i = false -> get_root g i = i ->
  pick_root i g = Some g' -> picked (S i) g'.
Proof.
  intros W Hinv Hi Hunmarked Hroot Hrun.
  destruct (pick_root_run i g W Hi Hroot)
    as (g0 & r & Hrun0 & W' & [Hn Hsame] & He & Hr & Hri & Hin & Hout).
  rewrite Hrun in Hrun0. injection Hrun0 as <-.
  pose proof (pick_root_marks i g g' W Hi Hroot Hrun) as Hmarks.
  destruct W as [Wc _]. pose proof Wc as (_ & Hroots & _).
  intros rho Hrho Hrhoroot. rewrite Hn in Hrho.
  destruct (decide (get_root g rho = i)) as [Hclass|Hclass].
  - destruct (Hin rho Hrho Hclass) as [Hrho' _].
    assert (rho = r) as -> by congruence.
    left. split.
    + intros x Hx Hxr. rewrite Hn in Hx.
      rewrite (ltg_same_exprs g g' x r He). apply Hin; [exact Hx|].
      destruct (decide (get_root g x = i)) as [?|Hno]; [assumption|].
      rewrite (Hout x Hx Hno) in Hxr. destruct (Hroots x Hx) as [_ Hidem].
      rewrite Hxr in Hidem. congruence.
    + exists i. split; [lia|]. split; [now rewrite Hn|].
      split; [now apply Hin|].
      intros x Hx Hxr Hxi. rewrite Hn in Hx. rewrite Hmarks.
      rewrite decide_True; [reflexivity|]. split; [exact Hx|].
      split; [|exact Hxi].
      destruct (decide (get_root g x = i)) as [?|Hno]; [assumption|].
      rewrite (Hout x Hx Hno) in Hxr. destruct (Hroots x Hx) as [_ Hidem].
      rewrite Hxr in Hidem. congruence.
  - assert (get_root g rho = rho) as Hgroot
      by (rewrite <- (Hout rho Hrho Hclass); exact Hrhoroot).
    assert (rho <> i) as Hrhoi by congruence.
    assert (Hmem : forall x, x < num_terms g ->
              (get_root g' x = rho <-> get_root g x = rho)).
    { intros x Hx. destruct (decide (get_root g x = i)) as [Hxi|Hxi].
      - destruct (Hin x Hx Hxi) as [-> _]. split; [|congruence].
        intros ->. congruence.
      - now rewrite (Hout x Hx Hxi). }
    assert (Hmk : forall x, x < num_terms g -> get_root g x = rho ->
              is_marked g' x = is_marked g x).
    { intros x Hx Hxr. rewrite Hmarks. rewrite decide_False; [reflexivity|].
      intros (_ & Hxi & _). congruence. }
    destruct (Hinv rho Hrho Hgroot) as [(Hmin & t0 & Ht0 & Ht0n & Ht0r & Hrest)|[Hfresh Hle]].
    + left. split.
      * intros x Hx Hxr. rewrite Hn in Hx. apply Hmem in Hxr; [|exact Hx].
        rewrite (ltg_same_exprs g g' x rho He). now apply Hmin.
      * exists t0. split; [lia|]. split; [now rewrite Hn|].
        split; [now apply Hmem|].
        intros x Hx Hxr Hxt. rewrite Hn in Hx. apply Hmem in Hxr; [|exact Hx].
        rewrite Hmk by assumption. now apply Hrest.
    + right. split; [|lia].
      intros x Hx Hxr. rewrite Hn in Hx. apply Hmem in Hxr; [|exact Hx].
      rewrite Hmk by assumption. now apply Hfresh.
Qed.

Lemma pick_roots_fold_picked k :
  forall i g,
    wf g -> picked i g -> i + k <= num_terms g ->
    exists g',
      fold_left
        (fun og t =>
           match og with
           | None => None
           | Some g =>
               if negb (is_marked g t) && is_root g t then pick_root t g
               else Some g
           end) (seq i k) (Some g) = Some g' /\
      wf g' /\ num_terms g' = num_terms g /\ picked (i + k) g'.
Proof.
  induction k as [|k IH]; intros i g W Hinv Hle; cbn [seq fold_left].
  - exists g. rewrite Nat.add_0_r. auto.
  - assert (exists g1,
              (if negb (is_marked g i) && is_root g i then pick_root i g
               else Some g) = Some g1 /\
              wf g1 /\ num_terms g1 = num_terms g /\ picked (S i) g1)
      as (g1 & -> & W1 & Hn1 & Hinv1).
    { destruct (negb (is_marked g i) && is_root g i) eqn:E.
      - apply andb_true_iff in E as [Em Er].
        apply negb_true_iff in Em. unfold is_root in Er.
        apply Nat.eqb_eq in Er.
        destruct (pick_root_run i g W ltac:(lia) Er)
          as (g1 & r & Hrun & W1 & [Hn1 _] & _).
        exists g1. split; [exact Hrun|]. split; [exact W1|].
        split; [exact Hn1|].
        apply (picked_pick i g g1 W Hinv ltac:(lia) Em Er Hrun).
      - exists g. split; [reflexivity|]. split; [exact W|].
        split; [reflexivity|]. now apply picked_skip. }
    destruct (IH (S i) g1 W1 Hinv1) as (g' & Hrun & W' & Hn' & Hinv');
      [lia|].
    exists g'. split; [exact Hrun|]. split; [exact W'|].
    split; [congruence|]. now rewrite Nat.add_succ_r.
Qed.

(** X19. On a well-formed graph in which no term is marked, [pick_roots]
    gives every class a root that is minimal in the order of preference:
    afterwards no term comes before the root of its class in [term_lt], so
    that the root of a class is a constant if the class holds one, and is
    not a value if the class holds a constant that is none. *)
Theorem pick_roots_minimal g :
  wf g -> (forall p, is_marked g p = false) ->
  exists g',
    pick_roots g = Some g' /\ num_terms g' = num_terms g /\
    forall x, x < num_terms g ->
      term_lt (get g' x) (get g' (get_root g' x)) = false /\
      (kind m (get g' (get_root g' x)) <= kind m (get g' x))%Z.
Proof.
  intros W Hclean. unfold TermGraph.pick_roots.
  destruct (pick_roots_fold_picked (num_terms g) 0 g W)
    as (g1 & -> & W1 & Hn1 & Hinv1).
  { intros rho Hrho Hroot. right. split; [auto|lia]. }
  { lia. }
  assert (num_terms (reset_marks g1) = num_terms g) as Hn
    by (unfold num_terms, reset_marks; cbn; rewrite length_fmap; exact Hn1).
  exists (reset_marks g1). split; [reflexivity|]. split; [exact Hn|].
  intros x Hx.
  assert (term_lt (get (reset_marks g1) x)
            (get (reset_marks g1) (get_root (reset_marks g1) x)) = false) as Hlt.
  { unfold get_root. rewrite (get_reset_marks_field m_root) by reflexivity.
    rewrite (term_lt_same_expr (get g1 x) _ (get g1 (m_root (get g1 x))) _)
      by (now apply get_reset_marks_field).
    destruct W1 as [(_ & Hroots & _) _]. rewrite <- Hn1 in Hx.
    destruct (Hroots x Hx) as [Hv Hidem].
    destruct (Hinv1 (get_root g1 x) Hv Hidem) as [[Hmin _]|[_ Hle]];
      [|simpl in Hle; lia].
    now apply Hmin. }
  split; [exact Hlt|].
  apply not_true_iff_false in Hlt. rewrite term_lt_kind in Hlt.
  destruct (Z.le_gt_cases (kind m (get (reset_marks g1) (get_root (reset_marks g1) x)))
              (kind m (get (reset_marks g1) x))); [assumption|].
  exfalso. apply Hlt. lia.
Qed.


End PickRoot.


Lemma wf_graph_fa : wf graph_fa.
Proof.
  unfold graph_fa.
  destruct (internalize_term no_values app_f_a empty_graph) as [[p g]|] eqn:Hrun;
    [|apply wf_empty_graph].
  apply (internalize_term_wf _ _ _ _ _ wf_empty_graph Hrun).
  injection Hrun as _ <-. vm_compute. discriminate.
Qed.

Lemma wf_graph_fa_eq_a : wf graph_fa_eq_a.
Proof.
  destruct (merge_wf 1 0 graph_fa wf_graph_fa)
    as (g1 & Hrun & W1 & _); [vm_compute; lia|vm_compute; lia|].
  unfold graph_fa_eq_a. rewrite Hrun. exact W1.
Qed.

Example graph_fa_eq_a_roots :
  get_root graph_fa_eq_a 0 = 1 /\ get_root graph_fa_eq_a 1 = 1 /\
  get_root (default empty_graph (pick_root no_values tree_size 1 graph_fa_eq_a)) 1
  = 0.
Proof. vm_compute. auto. Qed.

Lemma pick_root_spec_witness :
  (kind no_values
     (get (default empty_graph (pick_root no_values tree_size 1 graph_fa_eq_a))
        (get_root
           (default empty_graph (pick_root no_values tree_size 1 graph_fa_eq_a))
           1))
   <= kind no_values
        (get (default empty_graph (pick_root no_values tree_size 1 graph_fa_eq_a))
           0))%Z.
Proof.
  destruct (pick_root_spec no_values tree_size 1 graph_fa_eq_a wf_graph_fa_eq_a)
    as (g' & Hrun & _ & _ & _ & _ & Hin & _);
    [vm_compute; lia|vm_compute; reflexivity|].
  rewrite Hrun. apply Hin; vm_compute; [lia|reflexivity].
Defined.

Lemma pick_roots_spec_witness :
  get_root (default empty_graph (pick_roots no_values tree_size graph_fa_eq_a)) 0
  = get_root (default empty_graph (pick_roots no_values tree_size graph_fa_eq_a)) 1.
Proof.
  destruct (pick_roots_spec no_values tree_size graph_fa_eq_a wf_graph_fa_eq_a)
    as (g' & Hrun & _ & [_ Hsame] & _).
  rewrite Hrun. apply Hsame; vm_compute; [lia|lia|reflexivity].
Defined.


Lemma pick_roots_minimal_witness :
  (kind no_values
     (get (default empty_graph
             (pick_roots no_values tree_size (reset_marks graph_fa_eq_a)))
        (get_root
           (default empty_graph
              (pick_roots no_values tree_size (reset_marks graph_fa_eq_a))) 1))
   <= kind no_values
        (get (default empty_graph
                (pick_roots no_values tree_size (reset_marks graph_fa_eq_a))) 1))%Z.
Proof.
  destruct (pick_roots_minimal no_values tree_size (reset_marks graph_fa_eq_a))
    as (g' & Hrun & _ & Hmin);
    [apply wf_reset_marks, wf_graph_fa_eq_a|apply is_marked_reset_marks|].
  rewrite Hrun. apply Hmin. vm_compute. lia.
Defined.

(** The merge of [f(a)] and [a] leaves [f(a)], a parent of the absorbed
    root, marked; [pick_roots] passes over the marked root, and the class
    keeps the application as its root.  Once the marks are reset it picks
    the constant. *)
Example pick_roots_stale_mark :
  is_marked graph_fa_eq_a 1 = true /\
  get_root (default empty_graph (pick_roots no_values tree_size graph_fa_eq_a)) 0
  = 1 /\
  get_root (default empty_graph
              (pick_roots no_values tree_size (reset_marks graph_fa_eq_a))) 1
  = 0.
Proof. vm_compute. auto. Qed.


End TermGraphFacts.

Module ObligationQueueFacts.
Import Unsigned SpacerContext ObligationQueue.

Section Order.

Context {expr : Type}.
Implicit Types (n x y : pob expr) (q : list (pob expr)).
Implicit Types (ops : list (@queue_op expr)).
Implicit Types (st : pob_queue expr * list (pob expr)).

Lemma key_le_refl x : key_le x x.
Proof. unfold key_le. lia. Qed.

Lemma key_le_trans x y z : key_le x y -> key_le y z -> key_le x z.
Proof. unfold key_le. lia. Qed.

Lemma key_le_total x y : key_le x y \/ key_le y x.
Proof. unfold key_le. lia. Qed.

Lemma pob_lt_true x y : pob_lt x y = true <-> ~ key_le y x.
Proof.
  unfold pob_lt, key_le.
  rewrite orb_true_iff, andb_true_iff, !Z.ltb_lt, Z.eqb_eq. lia.
Qed.

Lemma pob_lt_false x y : pob_lt x y = false <-> key_le y x.
Proof.
  rewrite <- not_true_iff_false, pob_lt_true. unfold key_le. lia.
Qed.

Lemma pq_push_In x y q : In y (pq_push pob_lt x q) <-> y = x \/ In y q.
Proof.
  induction q as [|z q IH]; simpl.
  - intuition.
  - unfold pob_ref_gt, pob_gt.
    destruct (pob_lt x z); simpl; [intuition|]. rewrite IH. intuition.
Qed.

Lemma pq_push_sorted x q : sorted q -> sorted (pq_push pob_lt x q).
Proof.
  induction q as [|z q IH]; simpl.
  - intros _. split; [intros y []|exact I].
  - intros [Hz Hq]. unfold pob_ref_gt, pob_gt.
    destruct (pob_lt x z) eqn:E.
    + assert (key_le x z) as Hxz.
      { apply pob_lt_true in E. destruct (key_le_total x z); tauto. }
      simpl. split.
      * intros y [<-|Hy]; [exact Hxz|].
        eapply key_le_trans; [exact Hxz|]. now apply Hz.
      * split; assumption.
    + apply pob_lt_false in E. simpl. split.
      * intros y Hy. apply pq_push_In in Hy as [->|Hy]; [exact E|now apply Hz].
      * now apply IH.
Qed.

Lemma run_sorted ops : sorted (m_obligations (run ops).1).
Proof.
  unfold run.
  assert (forall st, sorted (m_obligations st.1) ->
            sorted (m_obligations (fold_left run_op ops st).1)) as H.
  { induction ops as [|o ops IH]; intros st Hst; simpl; [exact Hst|].
    apply IH. destruct o as [n|]; simpl.
    - now apply pq_push_sorted.
    - unfold top, pq_top. destruct (m_obligations st.1) as [|x q] eqn:E; simpl.
      + now rewrite E.
      + rewrite E. simpl. apply Hst. }
  apply H. exact I.
Qed.

(** C2 (as amended). In every run of the queue, the obligation that [top]
    delivers is minimal in (level, depth) among the obligations then in the
    queue; hence two consecutive dequeues with no push between them deliver
    their obligations in non-decreasing (level, depth) order. *)
Theorem dequeue_order (ops : list queue_op) :
  let q := (run ops).1 in
  (forall x, top q = Some x -> forall y, In y (m_obligations q) -> key_le x y) /\
  (forall x y, top q = Some x -> top (pop q) = Some y -> key_le x y).
Proof.
  intros q. pose proof (run_sorted ops) as Hs. fold q in Hs.
  unfold top, pq_top, pop. simpl.
  destruct (m_obligations q) as [|x0 q0]; simpl in *.
  - split; intros; discriminate.
  - destruct Hs as [Hx Hs]. split.
    + intros x [= <-] y [<-|Hy]; [apply key_le_refl|now apply Hx].
    + intros x y [= <-] Hy. apply Hx.
      destruct q0; simpl in Hy; [discriminate|]. injection Hy as <-. now left.
Qed.

End Order.

Lemma dequeue_order_witness : key_le child_pob parent_pob.
Proof.
  apply (dequeue_order [op_push parent_pob; op_push child_pob]); reflexivity.
Defined.

(** C2 as stated fails: the parent is dequeued, its child is pushed and
    dequeued next, and the child's (level, depth) = (1, 1) is below the
    parent's (2, 0). *)
Lemma dequeue_order_not_monotone :
  ~ non_decreasing (run push_pop_push_pop).2.
Proof.
  vm_compute. intros [[H|[H _]] _]; discriminate H.
Qed.

End ObligationQueueFacts.

Module SolveLoopFacts.
Import Unsigned SpacerContext ObligationQueue SolveLoop.

Section Solve.

Context {expr : Type} `{EqDecision expr}.
Variable K : collaborators expr.
Implicit Types (c : context K).

Lemma step_answers c :
  match step K c with
  | finished v c' =>
      m_answers c' = m_answers c
      \/ exists a, m_answers c' = m_answers c ++ [a] /\ (a = l_undef -> v = unknown)
  | continue c' =>
      m_answers c' = m_answers c
      \/ exists a, m_answers c' = m_answers c ++ [a] /\ a <> l_undef
  end.
Proof.
  unfold step.
  destruct (m_root_status c), (top (m_pob_queue c)) as [n|];
    try (destruct (propagate _ _ _) as [[|] r]; simpl; now left);
    try (now left).
  unfold expand_pob. destruct (is_reachable K (m_rels c) n) eqn:E; simpl.
  - right. exists l_false. split; [reflexivity|discriminate].
  - right. exists l_undef. split; [reflexivity|reflexivity].
  - destruct (create_children _ _ _) as [|k kids]; simpl.
    + destruct (is_root _ _); simpl; right; exists l_true;
        (split; [reflexivity|discriminate]).
    + right. exists l_true. split; [reflexivity|discriminate].
Qed.

(** The answers on record grow by the answers given during the run, and an
    unknown answer among them makes the verdict [unknown]. *)
Lemma solve_answers fuel :
  forall c,
    exists new,
      m_answers (solve K fuel c).2 = m_answers c ++ new /\
      (In l_undef new -> (solve K fuel c).1 = unknown).
Proof.
  induction fuel as [|fuel IH]; intros c; simpl.
  - exists []. split; [now rewrite app_nil_r|intros []].
  - pose proof (step_answers c) as Hstep.
    destruct (step K c) as [v c'|c']; simpl.
    + destruct Hstep as [->|(a & -> & Ha)].
      * exists []. split; [now rewrite app_nil_r|intros []].
      * exists [a]. split; [reflexivity|].
        intros [Heq|[]]. now apply Ha.
    + destruct (IH c') as (new & Hnew & Hundef).
      destruct Hstep as [Hc|(a & Hc & Ha)].
      * exists new. rewrite Hnew, Hc. split; [reflexivity|exact Hundef].
      * exists (a :: new). rewrite Hnew, Hc, <- app_assoc. split; [reflexivity|].
        intros [->|Hin]; [contradiction|now apply Hundef].
Qed.

(** C3. If some reachability query of a run of [solve] is answered
    [unknown], the verdict of the run is [unknown], neither [sat] nor
    [unsat]; in particular this is so when the first query is answered
    [unknown]; and a search that starts at a root obligation for which the
    oracle answers [unknown] does make that query and ends with
    [unknown]. *)
Theorem unknown_is_surfaced (fuel : nat) (c : context K) :
  (In l_undef (answers_of K fuel c) -> (solve K fuel c).1 = unknown) /\
  (head (answers_of K fuel c) = Some l_undef -> (solve K fuel c).1 = unknown) /\
  (forall root r,
     c = initial_context K root r -> is_reachable K r root = l_undef ->
     (solve K (S fuel) c).1 = unknown /\ answers_of K (S fuel) c = [l_undef]).
Proof.
  destruct (solve_answers fuel c) as (new & Hnew & Hundef).
  assert (answers_of K fuel c = new) as Hans.
  { unfold answers_of. rewrite Hnew. now rewrite drop_app_length. }
  split; [|split].
  - rewrite Hans. exact Hundef.
  - rewrite Hans. intros Hhd. apply Hundef.
    destruct new as [|a new']; [discriminate|]. injection Hhd as ->. now left.
  - intros root r -> Hq. unfold answers_of. simpl.
    unfold step, initial_context, top, push. simpl.
    unfold expand_pob. simpl. rewrite Hq. simpl. auto.
Qed.

End Solve.

Lemma unknown_is_surfaced_witness : (solve undecided 3 undecided_context).1 = unknown.
Proof.
  destruct (unknown_is_surfaced undecided 3 undecided_context) as [Hin _].
  apply Hin. vm_compute. left. reflexivity.
Defined.

End SolveLoopFacts.

Module FrameSoundnessFacts.
Import Unsigned UnsignedFacts SpacerUtil SpacerUtilFacts SpacerContext
  SpacerContextFacts FrameSoundness.

Section Soundness.

Context {expr : Type}.

(** The states of the relation, the states in which a formula holds, the
    initial condition and the transition relation of the relation. *)
Variable state : Type.
Variable holds : expr -> state -> Prop.
Variable init : state -> Prop.
Variable trans : state -> state -> Prop.

(** The oracle query behind [pred_transformer::is_invariant]: the lemma is
    invariant at the level, that is, relative to the frame one level
    below. *)
Variable is_invariant : frames expr -> Z -> lemma expr -> bool.

(** The test for "an equal-or-stronger lemma". *)
Variable stronger_eq : expr -> expr -> bool.

(** The oracle query behind [pred_transformer::is_reachable], the negation
    of a formula and the generalizer chain. *)
Variable is_reachable : frames expr -> expr -> Z -> reach_answer (expr := expr).
Variable mk_not : expr -> expr.
Variable generalizers : list (frames expr -> Z -> expr -> expr).

Implicit Types (f : frames expr) (l : lemma expr) (s : state).

Local Abbreviation frame := (frame holds).
Local Abbreviation sound_at := (sound_at holds init trans).
Local Abbreviation sound := (sound holds init trans).
Local Abbreviation add_lemma := (add_lemma stronger_eq).
Local Abbreviation propagate_lemma := (propagate_lemma is_invariant).
Local Abbreviation propagate_to_next_level := (propagate_to_next_level is_invariant).
Local Abbreviation blocked_at := (blocked_at holds init trans).
Local Abbreviation generalize := (generalize generalizers).
Local Abbreviation learn := (learn stronger_eq is_reachable mk_not generalizers).
Local Abbreviation apply_operation :=
  (apply_operation is_invariant stronger_eq is_reachable mk_not generalizers).
Local Abbreviation run :=
  (run is_invariant stronger_eq is_reachable mk_not generalizers).

Lemma frame_iff f lvl s :
  frame f lvl s
  <-> forall l, In l (m_lemmas f) -> lvl <= level l -> holds (get_expr l) s.
Proof.
  unfold frame, get_frame_geq_lemmas.
  rewrite get_frame_geq_lemmas_loop. simpl. split.
  - intros H l Hin Hle. apply H. apply in_map.
    apply list_elem_of_In, list_elem_of_filter. split; [exact Hle|].
    now apply list_elem_of_In.
  - intros H e He. apply in_map_iff in He as (l & <- & Hl).
    apply list_elem_of_In, list_elem_of_filter in Hl as [Hle Hl].
    apply H; [now apply list_elem_of_In|exact Hle].
Qed.

Lemma frame_weaken f lvl lvl' s : lvl <= lvl' -> frame f lvl s -> frame f lvl' s.
Proof.
  rewrite !frame_iff. intros Hle H l Hin Hl. apply H; [exact Hin|lia].
Qed.

Lemma levels_raised_refl f : levels_raised f f.
Proof. apply Forall2_same_length_lookup_2; [reflexivity|]. intros i l l' H1 H2.
  rewrite H1 in H2. injection H2 as <-. split; [reflexivity|lia]. Qed.

Lemma levels_raised_trans f1 f2 f3 :
  levels_raised f1 f2 -> levels_raised f2 f3 -> levels_raised f1 f3.
Proof.
  unfold levels_raised. rewrite !Forall2_same_length_lookup.
  intros [Hn12 H12] [Hn23 H23]. split; [congruence|].
  intros i l1 l3 H1 H3.
  destruct (lookup_lt_is_Some_2 (m_lemmas f2) i) as [l2 H2].
  { rewrite <- Hn12. eapply lookup_lt_Some, H1. }
  destruct (H12 i l1 l2 H1 H2) as [He1 Hl1].
  destruct (H23 i l2 l3 H2 H3) as [He2 Hl2].
  split; [congruence|lia].
Qed.

(** Raising levels strengthens every frame. *)
Lemma frame_raised f f' lvl s :
  levels_raised f f' -> frame f' lvl s -> frame f lvl s.
Proof.
  rewrite !frame_iff. intros Hr H l Hin Hle.
  apply list_elem_of_In, list_elem_of_lookup in Hin as [i Hi].
  destruct (Forall2_lookup_l _ _ _ _ _ Hr Hi) as (l' & Hi' & He & Hl).
  rewrite <- He. apply H; [|lia].
  apply list_elem_of_In, list_elem_of_lookup. eauto.
Qed.

Lemma frame_app f extra lvl s :
  frame (mk_frames (m_lemmas f ++ extra) (m_size f) false) lvl s ->
  frame f lvl s.
Proof.
  rewrite !frame_iff. simpl. intros H l Hin. apply H.
  apply in_or_app. now left.
Qed.

Lemma sound_at_frames f f' l :
  (forall lvl s, frame f' lvl s -> frame f lvl s) ->
  sound_at f l -> sound_at f' l.
Proof.
  intros Hf. unfold sound_at. destruct (level l =? 0); [auto|].
  intros H s s' Hfr. apply H. now apply Hf.
Qed.

Lemma set_level_at_raised f i l lvl :
  m_lemmas f !! i = Some l -> level l <= lvl ->
  levels_raised f (set_level_at i lvl f).
Proof.
  intros Hi Hle. unfold levels_raised, set_level_at. simpl.
  apply Forall2_same_length_lookup_2; [now rewrite length_alter|].
  intros j l1 l2 H1 H2. rewrite list_lookup_alter in H2.
  destruct (decide (i = j)) as [<-|Hne].
  - rewrite Hi in H1, H2. injection H1 as <-. injection H2 as <-.
    split; [reflexivity|exact Hle].
  - rewrite H1 in H2. injection H2 as <-. split; [reflexivity|lia].
Qed.

(** Raising one lemma to a level at which it is sound keeps the frame set
    sound. *)
Lemma sound_set_level_at f i l lvl :
  sound f -> m_lemmas f !! i = Some l -> level l <= lvl -> 0 < lvl ->
  (forall s s', frame f (prev_level lvl) s -> trans s s' -> holds (get_expr l) s') ->
  sound (set_level_at i lvl f).
Proof.
  intros Hs Hi Hle Hpos Hnew l' Hin.
  pose proof (set_level_at_raised f i l lvl Hi Hle) as Hr.
  simpl in Hin. apply list_elem_of_In, list_elem_of_lookup in Hin as [j Hj].
  rewrite list_lookup_alter in Hj.
  destruct (decide (i = j)) as [<-|Hne].
  - rewrite Hi in Hj. injection Hj as <-.
    unfold sound_at. simpl.
    replace (lvl =? 0) with false by (symmetry; apply Z.eqb_neq; lia).
    intros s s' Hfr. apply Hnew. eapply frame_raised; eauto.
  - apply (sound_at_frames f).
    + intros lvl0 s. now apply frame_raised.
    + apply Hs. apply list_elem_of_In, list_elem_of_lookup. eauto.
Qed.

(** The oracle answers [true] only for lemmas that are invariant at the
    level. *)
Hypothesis is_invariant_sound :
  forall f lvl l,
    is_invariant f lvl l = true ->
    forall s s', frame f (prev_level lvl) s -> trans s s' -> holds (get_expr l) s'.

Lemma propagate_lemma_sound lvl acc i :
  is_level lvl -> sound acc.2 ->
  sound (propagate_lemma lvl acc i).2 /\
  levels_raised acc.2 (propagate_lemma lvl acc i).2.
Proof.
  intros Hlvl Hs. unfold propagate_lemma.
  destruct (m_lemmas acc.2 !! i) as [l|] eqn:Hi;
    [|split; [exact Hs|apply levels_raised_refl]].
  destruct (Z.eqb_spec (level l) lvl) as [Heq|_];
    [|split; [exact Hs|apply levels_raised_refl]].
  destruct (is_invariant acc.2 (next_level lvl) l) eqn:Hinv;
    [|split; [exact Hs|apply levels_raised_refl]].
  pose proof (next_level_ge lvl Hlvl) as Hge. simpl. split.
  - apply (sound_set_level_at _ _ l); auto; [lia| |].
    + unfold next_level. destruct (is_infty_level lvl) eqn:E.
      * apply is_infty_level_true in E. rewrite E, infty_level_eq. lia.
      * unfold is_infty_level in E. apply Z.eqb_neq in E.
        unfold is_level, in_range, infty_level in *.
        rewrite wrap_small; lia.
    + now apply is_invariant_sound.
  - apply (set_level_at_raised _ _ l); [exact Hi|lia].
Qed.

Lemma propagate_fold_sound lvl (idx : list nat) :
  is_level lvl ->
  forall acc, sound acc.2 ->
    sound (fold_left (propagate_lemma lvl) idx acc).2 /\
    levels_raised acc.2 (fold_left (propagate_lemma lvl) idx acc).2.
Proof.
  intros Hlvl. induction idx as [|i idx IH]; intros acc Hs; simpl.
  - split; [exact Hs|apply levels_raised_refl].
  - destruct (propagate_lemma_sound lvl acc i Hlvl Hs) as [Hs1 Hr1].
    destruct (IH _ Hs1) as [Hs2 Hr2].
    split; [exact Hs2|]. eapply levels_raised_trans; eauto.
Qed.

Lemma sound_levels f l :
  sound f -> In l (m_lemmas f) -> is_level (level l) ->
  (level l = 0 -> forall s, ~ (init s /\ ~ holds (get_expr l) s)) /\
  (0 < level l ->
   forall s s',
     frame f (level l - 1) s -> trans s s' -> holds (get_expr l) s').
Proof.
  intros Hs Hin Hlvl. specialize (Hs l Hin). unfold FrameSoundness.sound_at in Hs.
  split.
  - intros H0. rewrite H0 in Hs. exact Hs.
  - intros Hpos s s' Hfr. destruct (Z.eqb_spec (level l) 0); [lia|].
    apply Hs. eapply frame_weaken; [|exact Hfr].
    unfold prev_level. destruct (is_infty_level (level l)) eqn:E.
    + apply is_infty_level_true in E. lia.
    + destruct (Z.eqb_spec (level l) 0); [lia|].
      unfold is_level, in_range in Hlvl. rewrite wrap_small; lia.
Qed.

(** Adding a lemma that is sound at its level keeps the frame set
    sound. *)
Lemma add_lemma_sound f fml lvl :
  sound f -> sound_at f (mk_lemma fml [] lvl lvl false) ->
  sound (add_lemma f fml lvl).2.
Proof.
  intros Hs Hnew. unfold FrameSoundness.add_lemma.
  destruct (existsb _ _); [exact Hs|]. simpl.
  intros l Hin. simpl in Hin. apply in_app_or in Hin as [Hin|[<-|[]]].
  - eapply sound_at_frames; [|now apply Hs]. intros ? ?. apply frame_app.
  - eapply sound_at_frames; [|exact Hnew]. intros ? ?. apply frame_app.
Qed.

(** [add_lemma] adds at most one lemma, with the given level. *)
Lemma add_lemma_levels f fml lvl :
  is_level lvl ->
  Forall (fun l => is_level (level l)) (m_lemmas f) ->
  Forall (fun l => is_level (level l)) (m_lemmas (add_lemma f fml lvl).2).
Proof.
  intros Hlvl Hf. unfold FrameSoundness.add_lemma.
  destruct (existsb _ _); [exact Hf|]. simpl.
  apply Forall_app. split; [exact Hf|]. constructor; [exact Hlvl|constructor].
Qed.

(** The answers of the reachability oracle are right: a core comes with
    a query that has no model. *)
Hypothesis is_reachable_sound :
  forall f post lvl core,
    is_reachable f post lvl = r_unsat core -> blocked_at f lvl core.

(** [mk_not] is the negation. *)
Hypothesis holds_mk_not :
  forall e s, holds (mk_not e) s <-> ~ holds e s.

(** The interface of a generalizer: its result is "still valid at the
    lemma's level". *)
Hypothesis generalizers_valid :
  forall g f lvl e,
    In g generalizers ->
    sound_at f (mk_lemma e [] lvl lvl false) ->
    sound_at f (mk_lemma (g f lvl e) [] lvl lvl false).

(** The negation of a core whose query has no model is sound at the level
    of the query. *)
Lemma blocked_at_sound f lvl core :
  blocked_at f lvl core ->
  sound_at f (mk_lemma (mk_not core) [] lvl lvl false).
Proof.
  unfold FrameSoundness.blocked_at, FrameSoundness.sound_at. simpl.
  destruct (lvl =? 0).
  - intros Hb s [Hi Hn]. apply Hn. apply holds_mk_not.
    intros Hc. apply (Hb s). now split.
  - intros Hb s s' Hfr Htr. apply holds_mk_not. now apply (Hb s s').
Qed.

Lemma generalize_sound f lvl e :
  sound_at f (mk_lemma e [] lvl lvl false) ->
  sound_at f (mk_lemma (generalize f lvl e) [] lvl lvl false).
Proof.
  unfold FrameSoundness.generalize.
  assert (Hall : forall g, In g generalizers -> In g generalizers) by auto.
  revert e Hall. generalize generalizers at 1 3.
  intros gs. induction gs as [|g gs IH]; intros e Hall He; simpl; [exact He|].
  apply IH.
  - intros g' Hg'. apply Hall. now right.
  - apply generalizers_valid; [|exact He]. apply Hall. now left.
Qed.

Lemma learn_sound f post lvl : sound f -> sound (learn f post lvl).
Proof.
  intros Hs. unfold FrameSoundness.learn.
  destruct (is_reachable f post lvl) as [core| |] eqn:Hq; try exact Hs.
  apply add_lemma_sound; [exact Hs|].
  apply generalize_sound, blocked_at_sound.
  eapply is_reachable_sound; eauto.
Qed.

Lemma learn_levels f post lvl :
  is_level lvl ->
  Forall (fun l => is_level (level l)) (m_lemmas f) ->
  Forall (fun l => is_level (level l)) (m_lemmas (learn f post lvl)).
Proof.
  intros Hlvl Hf. unfold FrameSoundness.learn.
  destruct (is_reachable f post lvl); try exact Hf.
  now apply add_lemma_levels.
Qed.

Lemma propagate_lemma_levels lvl acc i :
  is_level lvl ->
  Forall (fun l => is_level (level l)) (m_lemmas acc.2) ->
  Forall (fun l => is_level (level l))
    (m_lemmas (propagate_lemma lvl acc i).2).
Proof.
  intros Hlvl Hf. unfold FrameSoundness.propagate_lemma.
  destruct (m_lemmas acc.2 !! i) as [l|] eqn:Hi; [|exact Hf].
  destruct (level l =? lvl); [|exact Hf].
  destruct (is_invariant acc.2 (next_level lvl) l); [|exact Hf].
  simpl. rewrite Forall_lookup. intros j l' Hj.
  rewrite list_lookup_alter in Hj.
  destruct (decide (i = j)) as [<-|Hne].
  - rewrite Hi in Hj. injection Hj as <-. simpl.
    now apply next_level_is_level.
  - rewrite Forall_lookup in Hf. eapply Hf; eauto.
Qed.

Lemma propagate_levels f lvl :
  is_level lvl ->
  Forall (fun l => is_level (level l)) (m_lemmas f) ->
  Forall (fun l => is_level (level l))
    (m_lemmas (propagate_to_next_level f lvl).2).
Proof.
  intros Hlvl. unfold FrameSoundness.propagate_to_next_level.
  generalize (seq 0 (length (m_lemmas f))). intros idx.
  change f with ((false, f).2) at 1. generalize (false, f).
  induction idx as [|i idx IH]; intros acc Hf; simpl; [exact Hf|].
  apply IH. now apply propagate_lemma_levels.
Qed.

(** Every operation keeps the frame set sound and its levels values of
    [unsigned]. *)
Lemma apply_operation_sound f o :
  is_level (op_level o) ->
  sound f /\ Forall (fun l => is_level (level l)) (m_lemmas f) ->
  sound (apply_operation f o) /\
  Forall (fun l => is_level (level l)) (m_lemmas (apply_operation f o)).
Proof.
  intros Hlvl [Hs Hf]. destruct o as [post lvl|lvl]; simpl in *.
  - split; [now apply learn_sound|now apply learn_levels].
  - split; [|now apply propagate_levels].
    unfold FrameSoundness.propagate_to_next_level.
    now apply (propagate_fold_sound lvl _ Hlvl (false, f)).
Qed.

Lemma run_sound ops :
  Forall (fun o => is_level (op_level o)) ops ->
  sound (run ops) /\
  Forall (fun l => is_level (level l)) (m_lemmas (run ops)).
Proof.
  unfold FrameSoundness.run.
  assert (H0 : sound (@empty_frames expr) /\
               Forall (fun l => is_level (level l))
                 (m_lemmas (@empty_frames expr))).
  { split; [intros l []|constructor]. }
  revert H0. generalize (@empty_frames expr).
  induction ops as [|o ops IH]; intros f Hf Hops; simpl; [exact Hf|].
  inversion Hops as [|? ? Ho Hrest]; subst.
  apply IH; [|exact Hrest]. now apply apply_operation_sound.
Qed.


End Soundness.

Lemma is_invariant2_sound f lvl l :
  is_invariant2 f lvl l = true ->
  forall s s',
    frame holds2 f (prev_level lvl) s -> trans2 s s' -> holds2 (get_expr l) s'.
Proof.
  intros H s s' Hfr ->. unfold is_invariant2 in H.
  assert (frame2 f (prev_level lvl) s = true) as Hb.
  { apply forallb_forall. intros e He. now apply Hfr. }
  simpl in H. rewrite !andb_true_iff in H. destruct H as (H0 & H1 & _).
  unfold holds2. destruct s; [rewrite Hb in H1|rewrite Hb in H0]; assumption.
Qed.

Lemma stays_false_sound : sound holds2 init2 trans2 stays_false.
Proof.
  intros l [<-|[]]. unfold sound_at. simpl.
  intros s [Hi Hn]. apply Hn. unfold holds2, init2 in *. now subst.
Qed.

Example stays_false_propagated :
  (fun r => (r.1, level <$> m_lemmas r.2))
    (propagate_to_next_level is_invariant2 stays_false 0)
  = (false, [1]).
Proof. reflexivity. Qed.

Lemma is_reachable2_sound f post lvl core :
  is_reachable2 f post lvl = r_unsat core ->
  blocked_at holds2 init2 trans2 f lvl core.
Proof.
  unfold is_reachable2, blocked_at.
  destruct (existsb _ _) eqn:Hex; [discriminate|]. intros [= <-].
  simpl in Hex. rewrite !orb_false_iff in Hex. destruct Hex as (H0 & H1 & _).
  destruct (lvl =? 0).
  - intros s [Hi Hp]. unfold init2, holds2 in *. subst s.
    simpl in H0. congruence.
  - intros s s' Hfr -> Hp. unfold holds2 in Hp.
    assert (frame2 f (prev_level lvl) s = true) as Hb.
    { apply forallb_forall. intros e He. now apply Hfr. }
    destruct s; [rewrite Hb, Hp in H1|rewrite Hb, Hp in H0]; discriminate.
Qed.

Lemma holds_mk_not2 e s : holds2 (mk_not2 e) s <-> ~ holds2 e s.
Proof.
  unfold holds2, mk_not2. destruct (e s); simpl; split; congruence.
Qed.

Lemma generalizers2_valid g f lvl e :
  In g generalizers2 ->
  sound_at holds2 init2 trans2 f (mk_lemma e [] lvl lvl false) ->
  sound_at holds2 init2 trans2 f (mk_lemma (g f lvl e) [] lvl lvl false).
Proof.
  intros [<-|[]] He. destruct (e false && e true) eqn:E; [|exact He].
  unfold sound_at, holds2. simpl. destruct (lvl =? 0).
  - intros s [_ Hn]. now apply Hn.
  - reflexivity.
Qed.

Example block_true_run :
  (fun l => (get_expr l false, get_expr l true, level l))
    <$> m_lemmas
          (run is_invariant2 stronger_eq2 is_reachable2 mk_not2 generalizers2
             block_true)
  = [(true, false, 1)].
Proof. reflexivity. Qed.


End FrameSoundnessFacts.

Module ProofUtilsFacts.
Import ProofUtils.

(** X20. Every Farkas lemma is an arithmetic lemma, and a proof step that
    is not a theory lemma is neither. *)
Theorem is_farkas_lemma_is_arith_lemma pr :
  (is_farkas_lemma pr = true -> is_arith_lemma pr = true) /\
  (get_decl_kind pr <> PR_TH_LEMMA ->
   is_arith_lemma pr = false /\ is_farkas_lemma pr = false).
Proof.
  unfold is_farkas_lemma, is_arith_lemma. split.
  - destruct (get_decl_kind pr); [|discriminate].
    rewrite !andb_true_iff. intros [[Hn Ha] _]. split; [|exact Ha].
    apply Z.geb_le. apply Z.geb_le in Hn. lia.
  - intros Hk. destruct (get_decl_kind pr); [contradiction|auto].
Qed.

Lemma is_farkas_lemma_is_arith_lemma_witness :
  is_arith_lemma
    (mk_proof_step PR_TH_LEMMA
       [PARAM_SYMBOL "arith"; PARAM_SYMBOL "farkas"; PARAM_OTHER])
  = true.
Proof. apply is_farkas_lemma_is_arith_lemma. reflexivity. Defined.

Local Open Scope nat_scope.

Section Ancestor.

Variable m : proof_dag.
Variable p q : nat.

Local Abbreviation weight := (unvisited_parents m).

Lemma weight_insert_notin (visited : gset nat) cur (l : list nat) :
  cur ∉ l ->
  sum_list_with
    (fun i => if decide (i ∈ {[cur]} ∪ visited) then 0
              else length (get_parents m i)) l
  = sum_list_with
      (fun i => if decide (i ∈ visited) then 0
                else length (get_parents m i)) l.
Proof.
  induction l as [|i l IH]; intros Hnotin; [reflexivity|].
  cbn [sum_list_with]. rewrite IH by (intros H; apply Hnotin; now right).
  f_equal. assert (i <> cur) as Hne by (intros ->; apply Hnotin; left).
  destruct (decide (i ∈ visited)) as [Hin|Hnin].
  - rewrite decide_True by (apply elem_of_union; now right). reflexivity.
  - rewrite decide_False; [reflexivity|].
    rewrite elem_of_union, elem_of_singleton. tauto.
Qed.

Lemma weight_insert_in (visited : gset nat) cur (l : list nat) :
  NoDup l -> cur ∈ l -> cur ∉ visited ->
  sum_list_with
    (fun i => if decide (i ∈ {[cur]} ∪ visited) then 0
              else length (get_parents m i)) l
  + length (get_parents m cur)
  = sum_list_with
      (fun i => if decide (i ∈ visited) then 0
                else length (get_parents m i)) l.
Proof.
  induction l as [|i l IH]; intros Hnd Hin Hnv;
    [now apply elem_of_nil in Hin|].
  apply NoDup_cons in Hnd as [Hi Hnd]. cbn [sum_list_with].
  apply elem_of_cons in Hin as [<-|Hin].
  - rewrite weight_insert_notin by exact Hi.
    rewrite decide_True by (apply elem_of_union; left; now apply elem_of_singleton).
    rewrite decide_False by exact Hnv. lia.
  - rewrite <- (IH Hnd Hin Hnv).
    assert (i <> cur) as Hne by (intros ->; contradiction).
    destruct (decide (i ∈ visited)) as [Hiv|Hiv].
    + rewrite decide_True by (apply elem_of_union; now right). lia.
    + rewrite decide_False; [lia|].
      rewrite elem_of_union, elem_of_singleton. tauto.
Qed.

(** Visiting a step takes its parents off the weight. *)
Lemma weight_visit (visited : gset nat) cur :
  cur ∉ visited ->
  weight ({[cur]} ∪ visited) + length (get_parents m cur) = weight visited.
Proof.
  intros Hnv. unfold unvisited_parents.
  destruct (decide (cur < length m)) as [Hlt|Hge].
  - apply weight_insert_in; [apply NoDup_seq| |exact Hnv].
    apply elem_of_seq. lia.
  - rewrite weight_insert_notin by (rewrite elem_of_seq; lia).
    assert (get_parents m cur = []) as ->
      by (unfold get_parents; now rewrite lookup_ge_None_2 by lia).
    simpl. lia.
Qed.

(** The loop answers, and its answer is right, when every step on the
    stack can be reached from [q], [p] has not been visited, and every
    parent of a visited step is visited or on the stack, as is [q]. *)
Lemma is_ancestor_loop_spec fuel :
  forall todo (visited : gset nat),
    length todo + weight visited <= fuel ->
    (forall x, x ∈ todo -> rtc (parent_of m) q x) ->
    p ∉ visited ->
    (forall v y, v ∈ visited -> parent_of m v y -> y ∈ visited \/ y ∈ todo) ->
    q ∈ visited \/ q ∈ todo ->
    exists b,
      is_ancestor_loop fuel m p todo visited = Some b /\
      (b = true <-> rtc (parent_of m) q p).
Proof.
  induction fuel as [|fuel IH]; intros todo visited Hfuel Hreach Hp Hclosed Hq.
  - destruct todo as [|cur todo]; [|simpl in Hfuel; lia].
    exists false. split; [reflexivity|]. split; [discriminate|].
    intros Hrtc. exfalso. apply Hp.
    assert (forall x, rtc (parent_of m) q x -> x ∈ visited) as Hall.
    { intros x Hx. apply rtc_ind_r with (x := q) (P := fun z => z ∈ visited) in Hx.
      - exact Hx.
      - destruct Hq as [?|H]; [assumption|now apply elem_of_nil in H].
      - intros y z _ Hyz Hy. destruct (Hclosed y z Hy Hyz) as [?|H];
          [assumption|now apply elem_of_nil in H]. }
    now apply Hall.
  - destruct todo as [|cur todo].
    + exists false. split; [reflexivity|]. split; [discriminate|].
      intros Hrtc. exfalso. apply Hp.
      assert (forall x, rtc (parent_of m) q x -> x ∈ visited) as Hall.
      { intros x Hx.
        apply rtc_ind_r with (x := q) (P := fun z => z ∈ visited) in Hx.
        - exact Hx.
        - destruct Hq as [?|H]; [assumption|now apply elem_of_nil in H].
        - intros y z _ Hyz Hy. destruct (Hclosed y z Hy Hyz) as [?|H];
            [assumption|now apply elem_of_nil in H]. }
      now apply Hall.
    + cbn [is_ancestor_loop]. destruct (decide (cur ∈ visited)) as [Hin|Hnin].
      * rewrite bool_decide_eq_true_2 by exact Hin.
        apply IH.
        -- simpl in Hfuel. lia.
        -- intros x Hx. apply Hreach. now right.
        -- exact Hp.
        -- intros v y Hv Hy. destruct (Hclosed v y Hv Hy) as [?|H];
             [now left|].
           apply elem_of_cons in H as [->|H]; [now left|now right].
        -- destruct Hq as [?|H]; [now left|].
           apply elem_of_cons in H as [->|H]; [now left|now right].
      * rewrite bool_decide_eq_false_2 by exact Hnin.
        destruct (Nat.eqb_spec cur p) as [->|Hne].
        -- exists true. split; [reflexivity|]. split; [|reflexivity].
           intros _. apply Hreach. now left.
        -- apply IH.
           ++ pose proof (weight_visit visited cur Hnin) as Hw.
              rewrite length_app, length_reverse. simpl in Hfuel. lia.
           ++ intros x Hx. apply elem_of_app in Hx as [Hx|Hx].
              ** rewrite elem_of_reverse in Hx. eapply rtc_r; [|exact Hx].
                 apply Hreach. now left.
              ** apply Hreach. now right.
           ++ rewrite elem_of_union, elem_of_singleton. intros [?|?];
                [congruence|contradiction].
           ++ intros v y Hv Hy. apply elem_of_union in Hv as [Hv|Hv].
              ** apply elem_of_singleton in Hv as ->. right.
                 apply elem_of_app. left. now rewrite elem_of_reverse.
              ** destruct (Hclosed v y Hv Hy) as [?|H];
                   [left; apply elem_of_union; now right|].
                 apply elem_of_cons in H as [->|H].
                 --- left. apply elem_of_union. left.
                     now apply elem_of_singleton.
                 --- right. apply elem_of_app. now right.
           ++ destruct Hq as [?|H]; [left; apply elem_of_union; now right|].
              apply elem_of_cons in H as [->|H].
              ** left. apply elem_of_union. left. now apply elem_of_singleton.
              ** right. apply elem_of_app. now right.
Qed.

(** X21. [is_ancestor] decides reachability in the proof: whatever the
    steps and their parents are, the walk ends, with as many rounds as the
    proof has parent links and one more, and it answers [true] exactly when
    [p] can be reached from [q] by going from a step to one of its parents
    any number of times. *)
Theorem is_ancestor_spec :
  forall fuel, S (unvisited_parents m ∅) <= fuel ->
    exists b,
      is_ancestor fuel m p q = Some b /\
      (b = true <-> rtc (parent_of m) q p).
Proof.
  intros fuel Hfuel. unfold is_ancestor.
  destruct (Nat.eqb_spec p q) as [->|Hne].
  - exists true. split; [reflexivity|]. split; [reflexivity|reflexivity].
  - apply is_ancestor_loop_spec.
    + simpl. lia.
    + intros x Hx. apply elem_of_cons in Hx as [->|Hx];
        [reflexivity|now apply elem_of_nil in Hx].
    + apply not_elem_of_empty.
    + intros v y Hv. now apply elem_of_empty in Hv.
    + right. now left.
Qed.

End Ancestor.

Lemma is_ancestor_spec_witness :
  exists b, is_ancestor 5 diamond 3 0 = Some b /\
            (b = true <-> rtc (parent_of diamond) 0 3).
Proof. apply (is_ancestor_spec diamond 3 0 5). vm_compute. lia. Defined.

End ProofUtilsFacts.

Module NormalizeOrderFacts.
Import NormalizeOrder.

Section OrderFacts.

Context {expr : Type} `{EqDecision expr}.
Variable ast_lt : expr -> expr -> bool.
Variable is_mul : expr -> option (expr * expr).

Hypothesis ast_lt_irrefl : forall a, ast_lt a a = false.
Hypothesis ast_lt_trans :
  forall a b c, ast_lt a b = true -> ast_lt b c = true -> ast_lt a c = true.
Hypothesis ast_lt_total :
  forall a b, a <> b -> ast_lt a b = true \/ ast_lt b a = true.

Local Abbreviation add_less := (arith_add_less_proc ast_lt is_mul).

Lemma ast_lt_asym a b : ast_lt a b = true -> ast_lt b a = false.
Proof.
  intros H. destruct (ast_lt b a) eqn:E; [|reflexivity].
  rewrite <- (ast_lt_irrefl a). symmetry. eapply ast_lt_trans; eauto.
Qed.

(** The order of [arith_add_less_proc] on the pairs it compares. *)
Let key_lt (x y : option expr * expr) : Prop :=
  ast_lt x.2 y.2 = true
  \/ (x.2 = y.2 /\
      match x.1, y.1 with
      | None, Some _ => True
      | Some a, Some b => ast_lt a b = true
      | _, _ => False
      end).

Lemma add_less_key e1 e2 :
  add_less e1 e2 = true <-> key_lt (add_key is_mul e1) (add_key is_mul e2).
Proof.
  unfold arith_add_less_proc, key_lt.
  destruct (add_key is_mul e1) as [k1 t1], (add_key is_mul e2) as [k2 t2].
  cbn [fst snd]. destruct (decide (t1 = t2)) as [->|Hne].
  - rewrite ast_lt_irrefl.
    destruct k1 as [k1|], k2 as [k2|]; split; try discriminate;
      intuition congruence.
  - split; [now left|]. intros [H|[? _]]; [exact H|contradiction].
Qed.

Lemma key_lt_irrefl x : ~ key_lt x x.
Proof.
  unfold key_lt. rewrite ast_lt_irrefl. intros [H|[_ H]]; [discriminate|].
  destruct x.1 as [a|]; [|exact H]. now rewrite ast_lt_irrefl in H.
Qed.

Lemma key_lt_trans x y z : key_lt x y -> key_lt y z -> key_lt x z.
Proof.
  unfold key_lt. intros [H1|[E1 H1]] [H2|[E2 H2]].
  - left. eapply ast_lt_trans; eauto.
  - left. now rewrite <- E2.
  - left. now rewrite E1.
  - right. split; [congruence|].
    destruct x.1 as [a|], y.1 as [b|], z.1 as [c|]; try tauto.
    eapply ast_lt_trans; eauto.
Qed.

Lemma key_lt_neg_trans x y z : key_lt x z -> key_lt x y \/ key_lt y z.
Proof.
  unfold key_lt. destruct x as [kx tx], y as [ky ty], z as [kz tz].
  cbn [fst snd]. intros H.
  destruct (decide (tx = ty)) as [<-|Exy].
  - destruct H as [H|[<- H]]; [now right; left|].
    destruct kx as [a|], ky as [b|], kz as [c|]; try contradiction.
    + destruct (decide (a = b)) as [<-|Hab]; [right; right; auto|].
      destruct (ast_lt_total _ _ Hab) as [Hlt|Hlt]; [left; right; auto|].
      right. right. split; [reflexivity|]. eapply ast_lt_trans; eauto.
    + right. right. auto.
    + left. right. auto.
    + right. right. auto.
  - destruct (ast_lt_total _ _ Exy) as [Hlt|Hlt]; [now left; left|].
    right. left. destruct H as [H|[<- _]]; [|exact Hlt].
    eapply ast_lt_trans; eauto.
Qed.

(** X22. When [ast_lt_proc] is a strict total order on expressions,
    [arith_add_less_proc] is a strict weak order, as sorting the arguments
    of a sum with it requires: it is irreflexive and transitive, and an
    expression that comes before another comes before any third one or has
    the third one before the other.  An expression that is no product comes
    before its products. *)
Theorem arith_add_less_proc_strict_weak_order :
  let lt := arith_add_less_proc ast_lt is_mul in
  (forall e, lt e e = false) /\
  (forall e1 e2 e3, lt e1 e2 = true -> lt e2 e3 = true -> lt e1 e3 = true) /\
  (forall e1 e2 e3, lt e1 e3 = true -> lt e1 e2 = true \/ lt e2 e3 = true) /\
  (forall e k t, is_mul e = Some (k, t) -> is_mul t = None -> lt t e = true).
Proof.
  cbv zeta. split; [|split; [|split]].
  - intros e. apply not_true_iff_false. rewrite add_less_key.
    apply key_lt_irrefl.
  - intros e1 e2 e3. rewrite !add_less_key. apply key_lt_trans.
  - intros e1 e2 e3. rewrite !add_less_key. apply key_lt_neg_trans.
  - intros e k t He Ht. apply add_less_key. unfold add_key.
    rewrite He, Ht. right. split; reflexivity.
Qed.

End OrderFacts.

Section LiteralOrderFacts.

Context {expr : Type} `{EqDecision expr}.
Variable ast_lt : expr -> expr -> bool.
Variable is_mul : expr -> option (expr * expr).
Variable is_not : expr -> option expr.
Variable is_le : expr -> option (expr * expr).
Variable is_lt : expr -> option (expr * expr).
Variable is_ge : expr -> option (expr * expr).
Variable is_gt : expr -> option (expr * expr).
Variable is_app : expr -> bool.
Variable get_depth : expr -> Z.
Variable is_uninterp_const : expr -> bool.
Variable is_add : expr -> bool.
Variable get_num_args : expr -> nat.
Variable get_arg : expr -> nat -> expr.

Hypothesis ast_lt_irrefl : forall a, ast_lt a a = false.
Hypothesis ast_lt_trans :
  forall a b c, ast_lt a b = true -> ast_lt b c = true -> ast_lt a c = true.

Local Abbreviation first_uc :=
  (get_first_uc is_mul is_uninterp_const is_add get_num_args get_arg).
Local Abbreviation atom_sides := (sides is_le is_lt is_ge is_gt).
Local Abbreviation atom_lt :=
  (arith_lt ast_lt is_mul is_le is_lt is_ge is_gt is_app get_depth
     is_uninterp_const is_add get_num_args get_arg).
Local Abbreviation and_less :=
  (bool_and_less_proc ast_lt is_mul is_not is_le is_lt is_ge is_gt is_app
     get_depth is_uninterp_const is_add get_num_args get_arg).

Lemma ast_lt_cycle a b : ast_lt a b = true -> ast_lt b a = true -> False.
Proof.
  intros H1 H2. pose proof (ast_lt_trans _ _ _ H1 H2) as H3.
  rewrite ast_lt_irrefl in H3. discriminate.
Qed.

Lemma get_first_uc_mono fuel fuel' e u :
  (fuel <= fuel')%nat ->
  first_uc fuel e = Some u -> first_uc fuel' e = Some u.
Proof.
  revert fuel' e. induction fuel as [|fuel IH]; intros fuel' e Hle;
    [discriminate|].
  destruct fuel' as [|fuel']; [lia|]. cbn [get_first_uc].
  destruct (is_uninterp_const e); [auto|].
  destruct (is_add e).
  - destruct (get_num_args e =? 0)%nat; [auto|]. apply IH. lia.
  - destruct (is_mul e) as [[k t]|]; [|auto]. apply IH. lia.
Qed.

Lemma get_first_uc_const fuel e u :
  first_uc fuel e = Some (Some u) -> is_uninterp_const u = true.
Proof.
  revert e. induction fuel as [|fuel IH]; intros e; [discriminate|].
  cbn [get_first_uc]. destruct (is_uninterp_const e) eqn:Ec.
  - intros [= <-]. exact Ec.
  - destruct (is_add e).
    + destruct (get_num_args e =? 0)%nat; [discriminate|]. apply IH.
    + destruct (is_mul e) as [[k t]|]; [|discriminate]. apply IH.
Qed.

Ltac order_step :=
  match goal with
  | H : ast_lt ?x ?x = true |- _ =>
      rewrite ast_lt_irrefl in H; discriminate
  | H1 : ast_lt ?x ?y = true, H2 : ast_lt ?y ?x = true |- _ =>
      destruct (ast_lt_cycle _ _ H1 H2)
  | H1 : ast_lt ?x ?y = true, H2 : ast_lt ?y ?z = true
    |- ast_lt ?x ?z = true => exact (ast_lt_trans _ _ _ H1 H2)
  | H1 : ast_lt ?x ?y = true, H2 : ast_lt ?y ?z = true,
    H3 : ast_lt ?z ?x = true |- _ =>
      destruct (ast_lt_cycle _ _ (ast_lt_trans _ _ _ H1 H2) H3)
  end.

(** The order of [arith_lt] on the left sides of two comparisons. *)
Let left_lt (fuel : nat) (t1 t2 : expr) : option bool :=
  if negb (is_app t1 && is_app t2) then
    if Bool.eqb (is_app t1) (is_app t2) then Some (ast_lt t1 t2)
    else Some (bool_lt (is_app t1) (is_app t2))
  else
    if negb (get_depth t1 =? get_depth t2)
    then Some (get_depth t1 <? get_depth t2)
    else
      u1 ← first_uc fuel t1;
      u2 ← first_uc fuel t2;
      match u1, u2 with
      | Some u1, Some u2 =>
          Some (if decide (u1 = u2) then ast_lt t1 t2 else ast_lt u1 u2)
      | None, None => Some (ast_lt t1 t2)
      | _, _ => Some (null_lt u1 u2)
      end.

Lemma arith_lt_left fuel e1 e2 :
  atom_lt fuel e1 e2
  = if decide (e1 = e2) then Some false
    else
      match (atom_sides e1).2, (atom_sides e2).2 with
      | Some k1, Some k2 =>
          if decide ((atom_sides e1).1 = (atom_sides e2).1)
          then Some (ast_lt k1 k2)
          else left_lt fuel (atom_sides e1).1 (atom_sides e2).1
      | None, None => Some (ast_lt (atom_sides e1).1 (atom_sides e2).1)
      | k1, k2 => Some (null_lt k1 k2)
      end.
Proof.
  unfold arith_lt, left_lt.
  destruct (atom_sides e1) as [t1 [k1|]], (atom_sides e2) as [t2 [k2|]];
    reflexivity.
Qed.

Lemma left_lt_irrefl fuel t : left_lt fuel t t <> Some true.
Proof.
  unfold left_lt. destruct (is_app t); cbn.
  - rewrite Z.eqb_refl. cbn.
    destruct (first_uc fuel t) as [[u|]|]; cbn; [|..|discriminate].
    + rewrite decide_True by reflexivity. now rewrite ast_lt_irrefl.
    + now rewrite ast_lt_irrefl.
  - now rewrite ast_lt_irrefl.
Qed.

Lemma left_lt_trans fuel t1 t2 t3 :
  left_lt fuel t1 t2 = Some true -> left_lt fuel t2 t3 = Some true ->
  left_lt fuel t1 t3 = Some true.
Proof.
  unfold left_lt, bool_lt, null_lt.
  destruct (is_app t1), (is_app t2), (is_app t3); cbn; try discriminate;
    try reflexivity.
  - destruct (Z.eqb_spec (get_depth t1) (get_depth t2)) as [E12|N12],
      (Z.eqb_spec (get_depth t2) (get_depth t3)) as [E23|N23],
      (Z.eqb_spec (get_depth t1) (get_depth t3)) as [E13|N13]; cbn;
      try lia.
    + destruct (first_uc fuel t1) as [[u1|]|], (first_uc fuel t2) as [[u2|]|],
        (first_uc fuel t3) as [[u3|]|]; cbn; try discriminate;
        try reflexivity; repeat case_decide; intros Hlt1 Hlt2; simplify_eq;
        f_equal; try assumption; try order_step.
    + intros _ [= H2]. f_equal. rewrite Z.ltb_lt in *. lia.
    + intros [= H1] _. f_equal. rewrite Z.ltb_lt in *. lia.
    + intros [= H1] [= H2]. rewrite Z.ltb_lt in *. lia.
    + intros [= H1] [= H2]. f_equal. rewrite Z.ltb_lt in *. lia.
  - intros [= H1] [= H2]. f_equal. eapply ast_lt_trans; eauto.
Qed.

Ltac sides_cases :=
  repeat case_decide; simplify_eq/=; try discriminate; try reflexivity;
  f_equal; try assumption; try order_step;
  try match goal with
    | H1 : left_lt ?f ?x ?y = Some true, H2 : left_lt ?f ?y ?x = Some true
      |- _ => destruct (left_lt_irrefl f x (left_lt_trans _ _ _ _ H1 H2))
    | H1 : left_lt ?f ?x ?y = Some true, H2 : left_lt ?f ?y ?z = Some true
      |- left_lt ?f ?x ?z = Some true => exact (left_lt_trans _ _ _ _ H1 H2)
    end.

Lemma arith_lt_irrefl fuel a : atom_lt fuel a a = Some false.
Proof. unfold arith_lt. now rewrite decide_True. Qed.

Lemma arith_lt_asym fuel a b :
  atom_lt fuel a b = Some true -> atom_lt fuel b a = Some true -> False.
Proof.
  rewrite !arith_lt_left.
  destruct (atom_sides a) as [ta [ka|]], (atom_sides b) as [tb [kb|]];
    cbn [fst snd null_lt]; intros H1 H2; sides_cases.
Qed.

Lemma arith_lt_trans fuel a b c :
  atom_lt fuel a b = Some true -> atom_lt fuel b c = Some true ->
  atom_lt fuel a c = Some true.
Proof.
  intros H1 H2. destruct (decide (a = c)) as [->|Hac].
  { destruct (arith_lt_asym _ _ _ H1 H2). }
  revert H1 H2. rewrite !arith_lt_left.
  destruct (decide (a = c)) as [?|_]; [contradiction|].
  destruct (atom_sides a) as [ta [ka|]], (atom_sides b) as [tb [kb|]],
    (atom_sides c) as [tc [kc|]]; cbn [fst snd null_lt]; intros H1 H2;
    sides_cases.
Qed.

Lemma left_lt_mono fuel fuel' t1 t2 r :
  (fuel <= fuel')%nat ->
  left_lt fuel t1 t2 = Some r -> left_lt fuel' t1 t2 = Some r.
Proof.
  intros Hle. unfold left_lt.
  destruct (negb (is_app t1 && is_app t2)); [auto|].
  destruct (negb (get_depth t1 =? get_depth t2)); [auto|].
  destruct (first_uc fuel t1) as [u1|] eqn:E1; [|discriminate].
  destruct (first_uc fuel t2) as [u2|] eqn:E2; [|discriminate].
  rewrite (get_first_uc_mono _ _ _ _ Hle E1).
  rewrite (get_first_uc_mono _ _ _ _ Hle E2). auto.
Qed.

Lemma arith_lt_mono fuel fuel' a b r :
  (fuel <= fuel')%nat ->
  atom_lt fuel a b = Some r -> atom_lt fuel' a b = Some r.
Proof.
  intros Hle. rewrite !arith_lt_left.
  destruct (decide (a = b)); [auto|].
  destruct (atom_sides a).2, (atom_sides b).2; auto.
  case_decide; [auto|]. now apply left_lt_mono.
Qed.

Lemma sides_none e : (atom_sides e).2 = None -> (atom_sides e).1 = e.
Proof.
  unfold sides.
  destruct (is_le e) as [[? ?]|]; [discriminate|].
  destruct (is_lt e) as [[? ?]|]; [discriminate|].
  destruct (is_ge e) as [[? ?]|]; [discriminate|].
  destruct (is_gt e) as [[? ?]|]; [discriminate|]. reflexivity.
Qed.

Lemma and_less_true fuel e1 e2 :
  and_less fuel e1 e2 = Some true
  <-> ((literal is_not e1).2 = (literal is_not e2).2 /\
       (literal is_not e1).1 = false /\ (literal is_not e2).1 = true)
      \/ ((literal is_not e1).2 <> (literal is_not e2).2 /\
          atom_lt fuel (literal is_not e1).2 (literal is_not e2).2
          = Some true).
Proof.
  unfold bool_and_less_proc, bool_lt.
  destruct (literal is_not e1) as [n1 a1], (literal is_not e2) as [n2 a2].
  cbn [fst snd]. destruct (decide (a1 = a2)) as [->|Hne].
  - split.
    + intros Hlt. left. destruct n1, n2; cbn in Hlt; try discriminate; auto.
    + intros [(_ & -> & ->)|[N _]]; [reflexivity|contradiction].
  - intuition.
Qed.

(** X23. [bool_and_less_proc] is a strict partial order on literals when
    [ast_lt_proc] is one on expressions: no literal comes before itself,
    the order is transitive, and an atom comes before its negation and not
    after it.  A result does not change when [get_first_uc] is allowed more
    calls. *)
Theorem bool_and_less_proc_strict_order fuel :
  let lt :=
    bool_and_less_proc ast_lt is_mul is_not is_le is_lt is_ge is_gt is_app
      get_depth is_uninterp_const is_add get_num_args get_arg in
  (forall e, lt fuel e e = Some false) /\
  (forall e1 e2 e3,
     lt fuel e1 e2 = Some true -> lt fuel e2 e3 = Some true ->
     lt fuel e1 e3 = Some true) /\
  (forall e a,
     is_not e = Some a -> is_not a = None ->
     lt fuel a e = Some true /\ lt fuel e a = Some false) /\
  (forall e1 e2 r fuel',
     (fuel <= fuel')%nat ->
     lt fuel e1 e2 = Some r -> lt fuel' e1 e2 = Some r).
Proof.
  cbv zeta. split; [|split; [|split]].
  - intros e. unfold bool_and_less_proc, bool_lt.
    destruct (literal is_not e) as [n a]. rewrite decide_True by reflexivity.
    now destruct n.
  - intros e1 e2 e3. rewrite !and_less_true.
    intros [(E1 & F1 & T1)|[N1 L1]] [(E2 & F2 & T2)|[N2 L2]].
    + congruence.
    + right. rewrite E1. auto.
    + right. rewrite <- E2. auto.
    + right. split; [|eapply arith_lt_trans; eauto].
      intros E. rewrite E in L1. destruct (arith_lt_asym _ _ _ L1 L2).
  - intros e a He Ha. unfold bool_and_less_proc, literal.
    rewrite He, Ha. rewrite !decide_True by reflexivity. auto.
  - intros e1 e2 r fuel' Hle. unfold bool_and_less_proc.
    destruct (literal is_not e1) as [n1 a1], (literal is_not e2) as [n2 a2].
    case_decide; [auto|]. now apply arith_lt_mono.
Qed.

(** X24. Two distinct comparisons with the same two sides, such as
    [x <= 5] and [x >= 5], are not ordered by [bool_and_less_proc], and
    neither is the second one and the negation of the first, although the
    first comes before its negation: being unordered is not transitive. *)
Theorem bool_and_less_proc_unordered fuel a b e :
  a <> b ->
  sides is_le is_lt is_ge is_gt a = sides is_le is_lt is_ge is_gt b ->
  is_Some (sides is_le is_lt is_ge is_gt a).2 ->
  is_not a = None -> is_not b = None -> is_not e = Some a ->
  let lt :=
    bool_and_less_proc ast_lt is_mul is_not is_le is_lt is_ge is_gt is_app
      get_depth is_uninterp_const is_add get_num_args get_arg fuel in
  lt a b = Some false /\ lt b a = Some false /\
  lt b e = Some false /\ lt e b = Some false /\
  lt a e = Some true.
Proof.
  intros Hne Hs [k Hk] Ha Hb He. cbv zeta.
  assert (Hab : atom_lt fuel a b = Some false).
  { rewrite arith_lt_left, <- Hs, Hk.
    rewrite decide_False by exact Hne. rewrite decide_True by reflexivity.
    now rewrite ast_lt_irrefl. }
  assert (Hba : atom_lt fuel b a = Some false).
  { rewrite arith_lt_left, <- Hs, Hk.
    rewrite decide_False by (intros E; now apply Hne).
    rewrite decide_True by reflexivity. now rewrite ast_lt_irrefl. }
  unfold bool_and_less_proc, literal. rewrite Ha, Hb, He.
  rewrite !decide_False by (try exact Hne; intros E; now apply Hne).
  rewrite decide_True by reflexivity. auto.
Qed.

Hypothesis ast_lt_total :
  forall a b, a <> b -> ast_lt a b = true \/ ast_lt b a = true.

Lemma left_lt_total fuel t1 t2 :
  left_lt fuel t1 t2 = Some false -> left_lt fuel t2 t1 = Some false ->
  t1 = t2.
Proof.
  assert (Htot : forall x y : expr,
             ast_lt x y = false -> ast_lt y x = false -> x = y).
  { intros x y H1 H2. destruct (decide (x = y)) as [E|N]; [exact E|].
    destruct (ast_lt_total _ _ N); congruence. }
  unfold left_lt, bool_lt, null_lt.
  destruct (is_app t1), (is_app t2); cbn; try discriminate.
  - rewrite (Z.eqb_sym (get_depth t2)).
    destruct (Z.eqb_spec (get_depth t1) (get_depth t2)) as [E|N]; cbn.
    + destruct (first_uc fuel t1) as [[u1|]|], (first_uc fuel t2) as [[u2|]|];
        cbn; try discriminate; repeat case_decide; simplify_eq;
        intros [= H1] [= H2]; auto.
      pose proof (Htot _ _ H1 H2). congruence.
    + intros [= H1] [= H2]. rewrite Z.ltb_ge in *. lia.
  - intros [= H1] [= H2]. auto.
Qed.

(** X25. [arith_lt] is a strict partial order on atoms when [ast_lt_proc]
    is a strict total order on expressions: no atom comes before itself and
    the order is transitive.  Two distinct atoms of which neither comes
    before the other are comparisons with the same two sides. *)
Theorem arith_lt_strict_order fuel :
  let lt :=
    arith_lt ast_lt is_mul is_le is_lt is_ge is_gt is_app get_depth
      is_uninterp_const is_add get_num_args get_arg fuel in
  (forall a, lt a a = Some false) /\
  (forall a b c, lt a b = Some true -> lt b c = Some true -> lt a c = Some true) /\
  (forall a b,
     a <> b -> lt a b = Some false -> lt b a = Some false ->
     sides is_le is_lt is_ge is_gt a = sides is_le is_lt is_ge is_gt b /\
     is_Some (sides is_le is_lt is_ge is_gt a).2).
Proof.
  cbv zeta. split; [|split].
  - intros a. unfold arith_lt. now rewrite decide_True.
  - intros a b c Hab Hbc. destruct (decide (a = c)) as [->|Hac].
    + destruct (arith_lt_asym _ _ _ Hab Hbc).
    + eapply arith_lt_trans; eauto.
  - intros a b Hne. rewrite !arith_lt_left.
    rewrite !decide_False by (try exact Hne; intros E; now apply Hne).
    pose proof (sides_none a) as Ha. pose proof (sides_none b) as Hb.
    destruct (atom_sides a) as [ta [ka|]], (atom_sides b) as [tb [kb|]];
      cbn [fst snd null_lt] in *; try discriminate.
    + destruct (decide (ta = tb)) as [<-|Et].
      * rewrite decide_True by reflexivity. intros [= H1] [= H2].
        destruct (decide (ka = kb)) as [->|Nk]; [eauto|].
        destruct (ast_lt_total _ _ Nk); congruence.
      * rewrite decide_False by (intros E; now apply Et).
        intros H1 H2. destruct (Et (left_lt_total _ _ _ H1 H2)).
    + intros [= H1] [= H2]. rewrite Ha, Hb in * by reflexivity.
      destruct (ast_lt_total _ _ Hne); congruence.
Qed.

(** With a size of expressions that goes down to the argument that
    [get_first_uc] looks at, a number of calls above the size is enough. *)
Lemma get_first_uc_total (size : expr -> nat) :
  (forall e,
     is_add e = true -> (0 < get_num_args e)%nat ->
     (size (get_arg e 0%nat) < size e)%nat) ->
  (forall e k t, is_mul e = Some (k, t) -> (size t < size e)%nat) ->
  forall fuel e, (size e < fuel)%nat -> is_Some (first_uc fuel e).
Proof.
  intros Hadd Hmul fuel. induction fuel as [|fuel IH]; intros e Hlt; [lia|].
  cbn [get_first_uc]. destruct (is_uninterp_const e); [eauto|].
  destruct (is_add e) eqn:Ea.
  - destruct (Nat.eqb_spec (get_num_args e) 0) as [E|N]; [eauto|].
    apply IH. specialize (Hadd e Ea). lia.
  - destruct (is_mul e) as [[k t]|] eqn:Em; [|eauto].
    apply IH. specialize (Hmul e k t Em). lia.
Qed.

(** X26. On expressions that have a size which goes down from a sum to
    its first argument and from a product to its second factor,
    [get_first_uc] returns a result, with a number of calls above the size
    of the expression and the same result with any larger number.  The
    result is [nullptr] or an uninterpreted constant; on an uninterpreted
    constant it is the constant itself, on a sum it is the result on the
    first argument, whatever the other arguments are, and it is [nullptr]
    on an expression that is none of these and no product. *)
Theorem get_first_uc_spec (size : expr -> nat) :
  (forall e,
     is_add e = true -> (0 < get_num_args e)%nat ->
     (size (get_arg e 0%nat) < size e)%nat) ->
  (forall e k t, is_mul e = Some (k, t) -> (size t < size e)%nat) ->
  forall e, exists r,
    (forall fuel,
       (size e < fuel)%nat ->
       get_first_uc is_mul is_uninterp_const is_add get_num_args get_arg
         fuel e = Some r) /\
    match r with Some u => is_uninterp_const u = true | None => True end /\
    (is_uninterp_const e = true -> r = Some e) /\
    (is_uninterp_const e = false -> is_add e = true ->
     (0 < get_num_args e)%nat ->
     forall fuel,
       (size (get_arg e 0%nat) < fuel)%nat ->
       get_first_uc is_mul is_uninterp_const is_add get_num_args get_arg
         fuel (get_arg e 0%nat) = Some r) /\
    (is_uninterp_const e = false -> is_add e = false -> is_mul e = None ->
     r = None).
Proof.
  intros Hadd Hmul e.
  assert (Hrun : forall x fuel r,
             first_uc (S (size x)) x = Some r ->
             (size x < fuel)%nat -> first_uc fuel x = Some r).
  { intros x fuel r Hr Hlt. eapply get_first_uc_mono; [|exact Hr]. lia. }
  destruct (get_first_uc_total size Hadd Hmul (S (size e)) e) as [r Hr]; [lia|].
  exists r. split; [|split; [|split; [|split]]].
  - intros fuel Hlt. now apply Hrun.
  - destruct r as [u|]; [|exact I]. eapply get_first_uc_const; eauto.
  - cbn [get_first_uc] in Hr. intros Hc. rewrite Hc in Hr. congruence.
  - cbn [get_first_uc] in Hr. intros Hc Ha Hn fuel Hlt.
    rewrite Hc, Ha in Hr.
    destruct (Nat.eqb_spec (get_num_args e) 0) as [E|_]; [lia|].
    destruct (get_first_uc_total size Hadd Hmul _ _ Hlt) as [r' Hr'].
    rewrite Hr'. f_equal.
    assert (Hmax : first_uc (fuel + size e) (get_arg e 0%nat) = Some r').
    { eapply get_first_uc_mono; [|exact Hr']. lia. }
    assert (Hmax' : first_uc (fuel + size e) (get_arg e 0%nat) = Some r).
    { eapply get_first_uc_mono; [|exact Hr]. lia. }
    congruence.
  - cbn [get_first_uc] in Hr. intros Hc Ha Hm.
    rewrite Hc, Ha, Hm in Hr. congruence.
Qed.

End LiteralOrderFacts.

Lemma arith_add_less_proc_strict_weak_order_witness :
  arith_add_less_proc Z.ltb unit_product 5 4 = true.
Proof.
  apply (arith_add_less_proc_strict_weak_order Z.ltb unit_product
           Z.ltb_irrefl) with (k := 1).
  - intros a b c. rewrite !Z.ltb_lt. lia.
  - intros a b Hne. rewrite !Z.ltb_lt. lia.
  - reflexivity.
  - reflexivity.
Defined.

Lemma nat_ltb_trans (a b c : nat) :
  (a <? b)%nat = true -> (b <? c)%nat = true -> (a <? c)%nat = true.
Proof. rewrite !Nat.ltb_lt. lia. Qed.

Lemma nat_ltb_total (a b : nat) :
  a <> b -> (a <? b)%nat = true \/ (b <? a)%nat = true.
Proof. rewrite !Nat.ltb_lt. lia. Qed.

Lemma bool_and_less_proc_strict_order_witness :
  tbl_bool_and_less_proc sample 1 2 4 = Some true /\
  tbl_bool_and_less_proc sample 1 4 2 = Some false.
Proof.
  unfold tbl_bool_and_less_proc.
  apply (bool_and_less_proc_strict_order Nat.ltb (tbl_is_mul sample)
           (tbl_is_not sample) (tbl_is_le sample) (fun _ => None)
           (tbl_is_ge sample) (fun _ => None) (tbl_is_app sample)
           (tbl_get_depth sample) (tbl_is_uninterp_const sample)
           (tbl_is_add sample) (tbl_get_num_args sample)
           (tbl_get_arg sample) Nat.ltb_irrefl nat_ltb_trans 1%nat);
    reflexivity.
Defined.

Lemma bool_and_less_proc_unordered_witness :
  tbl_bool_and_less_proc sample 1 2 3 = Some false /\
  tbl_bool_and_less_proc sample 1 3 2 = Some false /\
  tbl_bool_and_less_proc sample 1 3 4 = Some false /\
  tbl_bool_and_less_proc sample 1 4 3 = Some false /\
  tbl_bool_and_less_proc sample 1 2 4 = Some true.
Proof.
  unfold tbl_bool_and_less_proc.
  apply (bool_and_less_proc_unordered Nat.ltb (tbl_is_mul sample)
           (tbl_is_not sample) (tbl_is_le sample) (fun _ => None)
           (tbl_is_ge sample) (fun _ => None) (tbl_is_app sample)
           (tbl_get_depth sample) (tbl_is_uninterp_const sample)
           (tbl_is_add sample) (tbl_get_num_args sample)
           (tbl_get_arg sample) Nat.ltb_irrefl 1%nat 2%nat 3%nat 4%nat).
  - discriminate.
  - reflexivity.
  - eexists. reflexivity.
  - reflexivity.
  - reflexivity.
  - reflexivity.
Defined.

Lemma arith_lt_strict_order_witness :
  tbl_arith_lt sample 1 0 2 = Some true.
Proof.
  unfold tbl_arith_lt.
  apply (proj1 (proj2
           (arith_lt_strict_order Nat.ltb (tbl_is_mul sample)
              (tbl_is_le sample) (fun _ => None) (tbl_is_ge sample)
              (fun _ => None) (tbl_is_app sample) (tbl_get_depth sample)
              (tbl_is_uninterp_const sample) (tbl_is_add sample)
              (tbl_get_num_args sample) (tbl_get_arg sample)
              Nat.ltb_irrefl nat_ltb_trans nat_ltb_total 1%nat))
           0%nat 7%nat 2%nat); reflexivity.
Defined.

Lemma sample_is_add_smaller (e : nat) :
  tbl_is_add sample e = true -> (0 < tbl_get_num_args sample e)%nat ->
  (tbl_get_arg sample e 0 < e)%nat.
Proof.
  unfold tbl_is_add, tbl_get_arg, tbl_args.
  do 8 (destruct e as [|e]; [simpl; try discriminate; lia|]).
  discriminate.
Qed.

Lemma sample_is_mul_smaller (e k t : nat) :
  tbl_is_mul sample e = Some (k, t) -> (t < e)%nat.
Proof.
  unfold tbl_is_mul.
  do 8 (destruct e as [|e]; [simpl; try discriminate; intros [= <- <-]; lia|]).
  discriminate.
Qed.

Lemma get_first_uc_spec_witness :
  tbl_get_first_uc sample 100 6 = tbl_get_first_uc sample 7 6.
Proof.
  destruct (get_first_uc_spec (tbl_is_mul sample)
              (tbl_is_uninterp_const sample) (tbl_is_add sample)
              (tbl_get_num_args sample) (tbl_get_arg sample) (fun e => e)
              sample_is_add_smaller sample_is_mul_smaller 6%nat)
    as (r & Hrun & _).
  unfold tbl_get_first_uc. rewrite (Hrun 100%nat), (Hrun 7%nat) by lia.
  reflexivity.
Defined.

End NormalizeOrderFacts.

